(** * A shallow embedding of the poker hand engine

    The development follows [engine/poker_game.py] (class [PokerGame]) and the
    two validation helpers of [bot_api.py].  Python integers are [Z], the
    dictionaries [player_chips] and [player_bets] are [gmap string Z], the
    lists of player names are [list string], the set [players_acted] is a
    [gset string].  Python exceptions are explicit outcomes.

    Cards, the deck and the hand evaluator are opaque services for the engine:
    they never touch chips, bets or the pot.  The dealt cards are left out of
    the state and the evaluator is a parameter of [play_hand].  The functions
    that draw cards come twice: first as what they do to the chips, then, in
    the part on the cards drawn, with a deck that can run out. *)

From stdpp Require Import gmap strings list fin_maps.

Open Scope string_scope.
Open Scope list_scope.
Open Scope Z_scope.

(** ** Outcomes of engine calls *)

Inductive exn : Type := KeyError | IndexError | ZeroDivisionError.

(** [Starved] is the outcome of a betting loop that still waits for a bot
    when the supplied sequence of decisions is exhausted. *)
Inductive outcome (A : Type) : Type :=
| Ok (a : A)
| Raised (e : exn)
| Starved.
Arguments Ok {A} a.
Arguments Raised {A} e.
Arguments Starved {A}.

Definition obind {A B : Type} (m : outcome A) (k : A → outcome B) : outcome B :=
  match m with
  | Ok a => k a
  | Raised e => Raised e
  | Starved => Starved
  end.

Notation "'do' x <- m ; k" := (obind m (λ x, k))
  (at level 10, x name, m at level 100, k at level 200,
   format "'[v' 'do'  x  <-  m ; '/' k ']'").

(** ** Data model *)

(** [PlayerAction] is declared in [engine/game_state.py]; its five members are
    the ones the engine and [bot_api] dispatch on. *)
Inductive PlayerAction : Type := FOLD | CHECK | CALL | RAISE | ALL_IN.

Global Instance PlayerAction_eq_dec : EqDecision PlayerAction.
Proof. solve_decision. Defined.

Record PokerGame : Type := mkGame {
  player_ids : list string;
  small_blind : Z;
  big_blind : Z;
  player_chips : gmap string Z;
  player_bets : gmap string Z;
  active_players : list string;
  folded_players : list string;
  pot : Z;
  current_bet : Z;
  dealer_button : Z;
  round_name : string;
  players_acted : gset string;
  current_player_index : Z
}.

(** Field writes [self.f = v]. *)
Definition set_player_chips (v : gmap string Z) (g : PokerGame) : PokerGame :=
  mkGame (player_ids g) (small_blind g) (big_blind g) v (player_bets g)
    (active_players g) (folded_players g) (pot g) (current_bet g)
    (dealer_button g) (round_name g) (players_acted g) (current_player_index g).
Definition set_player_bets (v : gmap string Z) (g : PokerGame) : PokerGame :=
  mkGame (player_ids g) (small_blind g) (big_blind g) (player_chips g) v
    (active_players g) (folded_players g) (pot g) (current_bet g)
    (dealer_button g) (round_name g) (players_acted g) (current_player_index g).
Definition set_active_players (v : list string) (g : PokerGame) : PokerGame :=
  mkGame (player_ids g) (small_blind g) (big_blind g) (player_chips g) (player_bets g)
    v (folded_players g) (pot g) (current_bet g)
    (dealer_button g) (round_name g) (players_acted g) (current_player_index g).
Definition set_folded_players (v : list string) (g : PokerGame) : PokerGame :=
  mkGame (player_ids g) (small_blind g) (big_blind g) (player_chips g) (player_bets g)
    (active_players g) v (pot g) (current_bet g)
    (dealer_button g) (round_name g) (players_acted g) (current_player_index g).
Definition set_pot (v : Z) (g : PokerGame) : PokerGame :=
  mkGame (player_ids g) (small_blind g) (big_blind g) (player_chips g) (player_bets g)
    (active_players g) (folded_players g) v (current_bet g)
    (dealer_button g) (round_name g) (players_acted g) (current_player_index g).
Definition set_current_bet (v : Z) (g : PokerGame) : PokerGame :=
  mkGame (player_ids g) (small_blind g) (big_blind g) (player_chips g) (player_bets g)
    (active_players g) (folded_players g) (pot g) v
    (dealer_button g) (round_name g) (players_acted g) (current_player_index g).
Definition set_dealer_button (v : Z) (g : PokerGame) : PokerGame :=
  mkGame (player_ids g) (small_blind g) (big_blind g) (player_chips g) (player_bets g)
    (active_players g) (folded_players g) (pot g) (current_bet g)
    v (round_name g) (players_acted g) (current_player_index g).
Definition set_round_name (v : string) (g : PokerGame) : PokerGame :=
  mkGame (player_ids g) (small_blind g) (big_blind g) (player_chips g) (player_bets g)
    (active_players g) (folded_players g) (pot g) (current_bet g)
    (dealer_button g) v (players_acted g) (current_player_index g).
Definition set_players_acted (v : gset string) (g : PokerGame) : PokerGame :=
  mkGame (player_ids g) (small_blind g) (big_blind g) (player_chips g) (player_bets g)
    (active_players g) (folded_players g) (pot g) (current_bet g)
    (dealer_button g) (round_name g) v (current_player_index g).
Definition set_current_player_index (v : Z) (g : PokerGame) : PokerGame :=
  mkGame (player_ids g) (small_blind g) (big_blind g) (player_chips g) (player_bets g)
    (active_players g) (folded_players g) (pot g) (current_bet g)
    (dealer_button g) (round_name g) (players_acted g) v.

(** ** Python primitives *)

(** [d[k]]: raises [KeyError] on a missing key. *)
Definition getitem (d : gmap string Z) (k : string) : outcome Z :=
  match d !! k with
  | Some v => Ok v
  | None => Raised KeyError
  end.

(** [d.get(k, 0)]. *)
Definition get0 (d : gmap string Z) (k : string) : Z := default 0 (d !! k).

(** [len(l)]. *)
Definition len {A : Type} (l : list A) : Z := Z.of_nat (length l).

(** [l[i]]: a negative index counts from the end, an index outside
    [-len(l) .. len(l) - 1] raises [IndexError]. *)
Definition list_item (l : list string) (i : Z) : outcome string :=
  let j := if bool_decide (i < 0) then i + len l else i in
  if bool_decide (j < 0) then Raised IndexError
  else match l !! Z.to_nat j with
       | Some p => Ok p
       | None => Raised IndexError
       end.

(** [a % b]. *)
Definition pymod (a b : Z) : outcome Z :=
  if bool_decide (b = 0) then Raised ZeroDivisionError else Ok (a mod b).

(** [p in l]. *)
Definition in_list (p : string) (l : list string) : bool := bool_decide (p ∈ l).

(** [l.remove(p)], guarded by [p in l] at its only call site: the first
    occurrence is removed. *)
Fixpoint list_remove_first (p : string) (l : list string) : list string :=
  match l with
  | [] => []
  | q :: l' => if bool_decide (q = p) then l' else q :: list_remove_first p l'
  end.

(** [{player: starting_chips for player in ids}]. *)
Definition starting_stacks (ids : list string) (starting_chips : Z) : gmap string Z :=
  foldr (λ p m, <[p := starting_chips]> m) ∅ ids.

(** [{player: 0 for player in ids}]. *)
Definition zero_bets (ids : list string) : gmap string Z :=
  starting_stacks ids 0.

(** [[p for p in ids if chips[p] > 0]]. *)
Fixpoint players_with_chips (chips : gmap string Z) (ids : list string)
  : outcome (list string) :=
  match ids with
  | [] => Ok []
  | p :: ids' =>
      do c <- getitem chips p;
      do rest <- players_with_chips chips ids';
      Ok (if bool_decide (c > 0) then p :: rest else rest)
  end.

(** ** Hand set-up *)

Definition reset_hand (g : PokerGame) : outcome PokerGame :=
  do act <- players_with_chips (player_chips g) (player_ids g);
  Ok (set_round_name "preflop"
     (set_current_bet (big_blind g)
     (set_pot 0
     (set_folded_players []
     (set_player_bets (zero_bets (player_ids g))
     (set_active_players act g)))))).

Definition post_blinds (g : PokerGame) : outcome PokerGame :=
  if bool_decide (len (active_players g) < 2) then Ok g
  else
    do small_blind_player_index <- pymod (dealer_button g + 1) (len (active_players g));
    do big_blind_player_index <- pymod (dealer_button g + 2) (len (active_players g));
    do small_blind_player <- list_item (active_players g) small_blind_player_index;
    do big_blind_player <- list_item (active_players g) big_blind_player_index;
    (* Post small blind *)
    do sb_chips <- getitem (player_chips g) small_blind_player;
    let small_blind_amount := Z.min (small_blind g) sb_chips in
    let g := set_player_bets (<[small_blind_player := small_blind_amount]> (player_bets g)) g in
    let g := set_player_chips
               (<[small_blind_player := sb_chips - small_blind_amount]> (player_chips g)) g in
    let g := set_pot (pot g + small_blind_amount) g in
    (* Post big blind *)
    do bb_chips <- getitem (player_chips g) big_blind_player;
    let big_blind_amount := Z.min (big_blind g) bb_chips in
    let g := set_player_bets (<[big_blind_player := big_blind_amount]> (player_bets g)) g in
    let g := set_player_chips
               (<[big_blind_player := bb_chips - big_blind_amount]> (player_chips g)) g in
    let g := set_pot (pot g + big_blind_amount) g in
    Ok g.

(** What [_start_hand] does to the game: [deal_hole_cards] only fills
    [player_hands], its draws from the deck are in [_start_hand_cards]; the
    log line reads [player_ids[dealer_button]]. *)
Definition _start_hand (g : PokerGame) : outcome PokerGame :=
  do g <- reset_hand g;
  do g <- post_blinds g;
  do dealer <- list_item (player_ids g) (dealer_button g);
  Ok g.

(** ** Betting round *)

Definition _start_betting_round (g : PokerGame) : outcome PokerGame :=
  let g := set_players_acted ∅ g in
  do i <- pymod (dealer_button g + 1) (len (active_players g));
  let g := set_current_player_index i g in
  if bool_decide (round_name g ≠ "preflop") then
    Ok (set_player_bets (zero_bets (player_ids g)) (set_current_bet 0 g))
  else Ok g.

Definition get_current_player (g : PokerGame) : outcome string :=
  match active_players g with
  | [] => Ok ""
  | _ =>
      do i <- pymod (current_player_index g) (len (active_players g));
      list_item (active_players g) i
  end.

Definition is_valid_action (g : PokerGame) (player : string)
    (action : PlayerAction) (amount : Z) : bool :=
  if negb (in_list player (active_players g)) || in_list player (folded_players g)
  then false
  else
    let player_bet := get0 (player_bets g) player in
    let to_call := current_bet g - player_bet in
    let available_chips := get0 (player_chips g) player in
    match action with
    | FOLD => true
    | CHECK => bool_decide (to_call = 0)
    | CALL => bool_decide (to_call > 0)
    | RAISE =>
        let min_raise := current_bet g + big_blind g in
        bool_decide (amount >= min_raise) &&
        bool_decide (available_chips >= amount - player_bet)
    | ALL_IN => bool_decide (available_chips > 0)
    end.

Definition process_action (g : PokerGame) (player : string)
    (action : PlayerAction) (amount : Z) : outcome PokerGame :=
  let '(action, amount) :=
    if is_valid_action g player action amount then (action, amount)
    else (FOLD, 0) in
  let g := set_players_acted ({[player]} ∪ players_acted g) g in
  do player_bet <- getitem (player_bets g) player;
  let to_call := current_bet g - player_bet in
  match action with
  | FOLD =>
      let g := set_folded_players (folded_players g ++ [player]) g in
      if in_list player (active_players g)
      then Ok (set_active_players (list_remove_first player (active_players g)) g)
      else Ok g
  | CHECK => Ok g
  | CALL =>
      do chips <- getitem (player_chips g) player;
      let call_amount := Z.min to_call chips in
      let g := set_player_bets (<[player := player_bet + call_amount]> (player_bets g)) g in
      let g := set_player_chips (<[player := chips - call_amount]> (player_chips g)) g in
      Ok (set_pot (pot g + call_amount) g)
  | RAISE =>
      let raise_total := amount in
      let raise_amount := raise_total - player_bet in
      do chips <- getitem (player_chips g) player;
      if bool_decide (chips <= raise_amount) then
        (* Player does not have enough chips, it's an all-in *)
        let raise_amount := chips in
        let g := set_player_bets (<[player := player_bet + raise_amount]> (player_bets g)) g in
        let g := set_pot (pot g + raise_amount) g in
        let g := set_player_chips (<[player := 0]> (player_chips g)) g in
        Ok (set_current_bet (Z.max (current_bet g) (player_bet + raise_amount)) g)
      else
        let g := set_player_bets (<[player := player_bet + raise_amount]> (player_bets g)) g in
        let g := set_player_chips (<[player := chips - raise_amount]> (player_chips g)) g in
        let g := set_pot (pot g + raise_amount) g in
        let g := set_current_bet (player_bet + raise_amount) g in
        Ok (set_players_acted {[player]} g)
  | ALL_IN =>
      do all_in_amount <- getitem (player_chips g) player;
      let new_bet := player_bet + all_in_amount in
      let g := set_player_bets (<[player := new_bet]> (player_bets g)) g in
      let g := set_player_chips (<[player := 0]> (player_chips g)) g in
      let g := set_pot (pot g + all_in_amount) g in
      if bool_decide (new_bet > current_bet g) then
        Ok (set_players_acted {[player]} (set_current_bet new_bet g))
      else Ok g
  end.

Definition advance_to_next_player (g : PokerGame) : PokerGame :=
  match active_players g with
  | [] => g
  | _ => set_current_player_index
           ((current_player_index g + 1) mod len (active_players g)) g
  end.

(** The [for] loop of [is_betting_round_complete]: [Ok false] at the first
    active player that still has chips and has not matched [max_bet]. *)
Fixpoint all_bets_matched (g : PokerGame) (max_bet : Z) (ps : list string)
  : outcome bool :=
  match ps with
  | [] => Ok true
  | player :: ps' =>
      do chips <- getitem (player_chips g) player;
      if bool_decide (chips > 0) then
        do bet <- getitem (player_bets g) player;
        if bool_decide (bet ≠ max_bet) then Ok false
        else all_bets_matched g max_bet ps'
      else all_bets_matched g max_bet ps'
  end.

Definition is_betting_round_complete (g : PokerGame) : outcome bool :=
  if bool_decide (len (active_players g) <= 1) then Ok true
  (* All players have had a chance to act *)
  else if bool_decide (Z.of_nat (size (players_acted g)) < len (active_players g))
  then Ok false
  else all_bets_matched g (current_bet g) (active_players g).

(** ** What a bot is shown *)

(** [GameState] is declared in [engine/game_state.py]; the fields are those
    [get_game_state] passes, cards left out. *)
Record GameState : Type := mkGameState {
  gs_pot : Z;
  gs_current_bet : Z;
  gs_player_chips : gmap string Z;
  gs_player_bets : gmap string Z;
  gs_active_players : list string;
  gs_current_player : string;
  gs_round_name : string;
  gs_min_bet : Z;
  gs_big_blind : Z;
  gs_small_blind : Z
}.

Definition get_game_state (g : PokerGame) : outcome GameState :=
  do cur <- get_current_player g;
  Ok (mkGameState (pot g) (current_bet g) (player_chips g) (player_bets g)
        (active_players g) cur (round_name g) (big_blind g) (big_blind g)
        (small_blind g)).

(** [bot_api.validate_action]. *)
Definition validate_action (action : PlayerAction) (amount : Z)
    (game_state : GameState) (player_name : string) : outcome bool :=
  if negb (in_list player_name (gs_active_players game_state)) then Ok false
  else if bool_decide (player_name ≠ gs_current_player game_state) then Ok false
  else
    do player_chips <- getitem (gs_player_chips game_state) player_name;
    do player_bet <- getitem (gs_player_bets game_state) player_name;
    let to_call := gs_current_bet game_state - player_bet in
    Ok match action with
       | FOLD => true
       | CHECK => bool_decide (to_call = 0)
       | CALL => bool_decide (to_call > 0) && bool_decide (player_chips >= to_call)
       | RAISE =>
           let min_raise := gs_current_bet game_state + gs_big_blind game_state in
           bool_decide (amount >= min_raise) &&
           bool_decide (player_chips >= amount - player_bet) &&
           bool_decide (amount > gs_current_bet game_state)
       | ALL_IN => bool_decide (player_chips > 0)
       end.

(** [bot_api.get_legal_actions]. *)
Definition get_legal_actions (game_state : GameState) (player_name : string)
  : outcome (list PlayerAction) :=
  if negb (in_list player_name (gs_active_players game_state))
     || bool_decide (player_name ≠ gs_current_player game_state)
  then Ok []
  else
    do player_chips <- getitem (gs_player_chips game_state) player_name;
    do player_bet <- getitem (gs_player_bets game_state) player_name;
    let to_call := gs_current_bet game_state - player_bet in
    let legal_actions := [FOLD] in
    let legal_actions :=
      if bool_decide (to_call = 0) then legal_actions ++ [CHECK]
      else if bool_decide (player_chips >= to_call) then legal_actions ++ [CALL]
      else legal_actions in
    let legal_actions :=
      if bool_decide (player_chips > to_call) then legal_actions ++ [RAISE]
      else legal_actions in
    let legal_actions :=
      if bool_decide (player_chips > 0) then legal_actions ++ [ALL_IN]
      else legal_actions in
    Ok legal_actions.

(** ** The betting loop *)

(** A bot answers each request with an action and an amount.  The answers of
    all bots, in the order the engine asks for them, form the decision
    sequence the loop consumes; nothing constrains them. *)
Definition decision : Type := PlayerAction * Z.

(** The [while] loop of [_run_betting_round].  Before the bot is called the
    engine builds the state view, the legal actions and [max_bet]; these
    reads can raise and are kept, their values go to the bot only. *)
Fixpoint betting_loop (ds : list decision) (g : PokerGame)
  : outcome (PokerGame * list decision) :=
  do complete <- is_betting_round_complete g;
  if complete then Ok (g, ds)
  else
    do player_id <- get_current_player g;
    if bool_decide (player_id = "") then Ok (g, ds)
    else
      do game_state <- get_game_state g;
      do legal_actions <- get_legal_actions game_state player_id;
      do c <- getitem (player_chips g) player_id;
      do b <- getitem (player_bets g) player_id;
      match ds with
      | [] => Starved
      | (action, amount) :: ds' =>
          do g <- process_action g player_id action amount;
          betting_loop ds' (advance_to_next_player g)
      end.

Definition _run_betting_round (ds : list decision) (g : PokerGame)
  : outcome (PokerGame * list decision) :=
  do g <- _start_betting_round g;
  betting_loop ds g.

(** What [advance_to_next_round] does to the game: dealing the flop, turn
    and river only moves cards, the draws from the deck are in
    [advance_to_next_round_cards]. *)
Definition advance_to_next_round (g : PokerGame) : PokerGame :=
  if bool_decide (round_name g = "preflop") then set_round_name "flop" g
  else if bool_decide (round_name g = "flop") then set_round_name "turn" g
  else if bool_decide (round_name g = "turn") then set_round_name "river" g
  else if bool_decide (round_name g = "river") then set_round_name "showdown" g
  else g.

(** ** Showdown *)

(** [HandEvaluator.get_winners] lives in [engine/cards.py]; it is given the
    active players with their seven cards and answers with the best of them. *)
Definition determine_winners (get_winners : list string → list string)
    (g : PokerGame) : list string :=
  if bool_decide (len (active_players g) = 1) then active_players g
  else get_winners (active_players g).

(** The [for] loop of [_distribute_pot]. *)
Fixpoint pay_winners (winnings_per_player : Z) (winners : list string)
    (chips : gmap string Z) : outcome (gmap string Z) :=
  match winners with
  | [] => Ok chips
  | winner :: ws =>
      do c <- getitem chips winner;
      pay_winners winnings_per_player ws (<[winner := c + winnings_per_player]> chips)
  end.

Definition _distribute_pot (g : PokerGame) (winners : list string)
  : outcome PokerGame :=
  match winners with
  | [] => Ok g
  | _ =>
      (* For now, simple pot splitting. Side pots are not handled. *)
      let winnings_per_player := pot g `div` len winners in
      do chips <- pay_winners winnings_per_player winners (player_chips g);
      (* Clear pot after distribution *)
      Ok (set_pot 0 (set_player_chips chips g))
  end.

(** ** A whole hand *)

(** One street of [play_hand]: skipped once a single player is left. *)
Definition street (advance : bool) (st : PokerGame * list decision)
  : outcome (PokerGame * list decision) :=
  let '(g, ds) := st in
  if bool_decide (len (active_players g) > 1) then
    _run_betting_round ds (if advance then advance_to_next_round g else g)
  else Ok (g, ds).

(** Everything of [play_hand] before the showdown. *)
Definition play_streets (ds : list decision) (g : PokerGame)
  : outcome (PokerGame * list decision) :=
  do g <- _start_hand g;
  do st <- street false (g, ds);
  do st <- street true st;
  do st <- street true st;
  street true st.

(** The showdown and the move of the dealer button. *)
Definition settle (get_winners : list string → list string) (g : PokerGame)
  : outcome PokerGame :=
  let winners := determine_winners get_winners g in
  do g <- _distribute_pot g winners;
  do d <- pymod (dealer_button g + 1) (len (player_ids g));
  Ok (set_dealer_button d g).

(** [play_hand]: the returned dictionary is [player_chips] of the result. *)
Definition play_hand (get_winners : list string → list string)
    (ds : list decision) (g : PokerGame) : outcome PokerGame :=
  do st <- play_streets ds g;
  settle get_winners st.1.

(** ** The deck *)

(** Modelled from the spec: the class [Deck] of [engine/cards.py], which is
    not among the sources.  The spec has it produce unique cards on demand,
    created and shuffled once per hand, and a deck that runs out of cards is
    fatal and propagated to the caller.  A deck is the number of cards it
    still holds: which cards they are never reaches the chips.  The spec
    does not name the exception of an empty deck; it is rendered as
    [IndexError]. *)
Definition Deck : Type := nat.

Definition deal_card (deck : Deck) : outcome Deck :=
  match deck with
  | O => Raised IndexError
  | S deck' => Ok deck'
  end.

(** [deal_hole_cards]: two cards for each active player, in list order. *)
Fixpoint deal_hole_cards (players : list string) (deck : Deck) : outcome Deck :=
  match players with
  | [] => Ok deck
  | _ :: players' =>
      do deck <- deal_card deck;
      do deck <- deal_card deck;
      deal_hole_cards players' deck
  end.

(** [deal_flop]: a burn card and three community cards. *)
Definition deal_flop (deck : Deck) : outcome Deck :=
  do deck <- deal_card deck;
  do deck <- deal_card deck;
  do deck <- deal_card deck;
  deal_card deck.

(** [deal_turn] and [deal_river]: a burn card and one community card. *)
Definition deal_turn (deck : Deck) : outcome Deck :=
  do deck <- deal_card deck;
  deal_card deck.

Definition deal_river (deck : Deck) : outcome Deck :=
  do deck <- deal_card deck;
  deal_card deck.

(** ** A whole hand, the cards drawn *)

(** The functions of this part are [_start_hand], [advance_to_next_round]
    and [play_hand] once more, now with the draws from the deck that the
    versions above leave out.  [cards] is the number of cards of a fresh
    deck. *)
Definition _start_hand_cards (cards : nat) (g : PokerGame)
  : outcome (PokerGame * Deck) :=
  do g <- reset_hand g;
  do deck <- deal_hole_cards (active_players g) cards;
  do g <- post_blinds g;
  do dealer <- list_item (player_ids g) (dealer_button g);
  Ok (g, deck).

Definition advance_to_next_round_cards (g : PokerGame) (deck : Deck)
  : outcome (PokerGame * Deck) :=
  if bool_decide (round_name g = "preflop") then
    do deck <- deal_flop deck; Ok (set_round_name "flop" g, deck)
  else if bool_decide (round_name g = "flop") then
    do deck <- deal_turn deck; Ok (set_round_name "turn" g, deck)
  else if bool_decide (round_name g = "turn") then
    do deck <- deal_river deck; Ok (set_round_name "river" g, deck)
  else if bool_decide (round_name g = "river") then
    Ok (set_round_name "showdown" g, deck)
  else Ok (g, deck).

Definition street_cards (advance : bool) (st : PokerGame * Deck * list decision)
  : outcome (PokerGame * Deck * list decision) :=
  let '(g, deck, ds) := st in
  if bool_decide (len (active_players g) > 1) then
    do gd <- (if advance then advance_to_next_round_cards g deck else Ok (g, deck));
    do r <- _run_betting_round ds gd.1;
    Ok (r.1, gd.2, r.2)
  else Ok (g, deck, ds).

Definition play_hand_cards (cards : nat)
    (get_winners : list string → list string)
    (ds : list decision) (g : PokerGame) : outcome PokerGame :=
  do gd <- _start_hand_cards cards g;
  do st <- street_cards false (gd.1, gd.2, ds);
  do st <- street_cards true st;
  do st <- street_cards true st;
  do st <- street_cards true st;
  settle get_winners st.1.1.

(** ** The constructor *)

(** [PokerGame(players, starting_chips, small_blind, big_blind)].  The
    constructor creates no [current_player_index]: the attribute is first
    written by [_start_betting_round], and the 0 it has here is read by
    nothing before that. *)
Definition new_game (ids : list string) (starting_chips small_blind big_blind : Z)
  : PokerGame :=
  mkGame ids small_blind big_blind (starting_stacks ids starting_chips)
    (zero_bets ids) ids [] 0 0 0 "preflop" ∅ 0.

(** ** Sums over the seated players *)

Definition sum_over (m : gmap string Z) (ids : list string) : Z :=
  foldr (λ p acc, get0 m p + acc) 0 ids.

Definition total_chips (g : PokerGame) : Z := sum_over (player_chips g) (player_ids g).
Definition total_bets (g : PokerGame) : Z := sum_over (player_bets g) (player_ids g).

(** ** [GameInfoAPI] *)

(** [GameInfoAPI.calculate_bet_amount]. *)
Definition calculate_bet_amount (current_bet player_current_bet : Z) : Z :=
  Z.max 0 (current_bet - player_current_bet).

(** [GameInfoAPI.get_active_opponents]. *)
Definition get_active_opponents (game_state : GameState) (player_name : string)
  : list string :=
  List.filter (λ player, bool_decide (player ≠ player_name))
    (gs_active_players game_state).

(** [GameInfoAPI.is_heads_up]. *)
Definition is_heads_up (game_state : GameState) : bool :=
  bool_decide (len (gs_active_players game_state) = 2).

(** [GameInfoAPI.get_stack_sizes]: a copy of the dictionary. *)
Definition get_stack_sizes (game_state : GameState) : gmap string Z :=
  gs_player_chips game_state.

(** [l.index(x)]: the first position of [x]; [None] stands for the
    [ValueError] that [get_position_info] catches. *)
Fixpoint list_index (x : string) (l : list string) : option Z :=
  match l with
  | [] => None
  | y :: l' => if bool_decide (y = x) then Some 0 else Z.succ <$> list_index x l'
  end.

(** The dictionary [get_position_info] returns. *)
Record PositionInfo : Type := mkPositionInfo {
  position : Z;
  players_after : Z;
  is_last : bool
}.

(** [GameInfoAPI.get_position_info]. *)
Definition get_position_info (game_state : GameState) (player_name : string)
  : PositionInfo :=
  match list_index player_name (gs_active_players game_state) with
  | None => mkPositionInfo (-1) 0 false
  | Some position =>
      match list_index (gs_current_player game_state)
              (gs_active_players game_state) with
      | None => mkPositionInfo (-1) 0 false
      | Some current_pos =>
          (* Adjust position relative to current player *)
          let n := len (gs_active_players game_state) in
          let relative_pos := (position - current_pos) mod n in
          mkPositionInfo relative_pos (n - relative_pos - 1)
            (bool_decide (relative_pos = n - 1))
      end
  end.

(** * Predicates and relations of the proofs *)

(** An active player either has no chips left or has matched [m]. *)
Definition matched (g : PokerGame) (m : Z) (p : string) : Prop :=
  get0 (player_chips g) p > 0 → get0 (player_bets g) p = m.

(** The chips an action moves: none, or [d] chips of the acting player [p]
    from the stack to the bet and the pot. *)
Inductive chip_move (p : string) (g g' : PokerGame) : Prop :=
| no_move :
    player_chips g' = player_chips g →
    player_bets g' = player_bets g →
    pot g' = pot g →
    current_bet g' = current_bet g →
    chip_move p g g'
| wager (c b d : Z) :
    p ∈ active_players g →
    player_chips g !! p = Some c →
    player_bets g !! p = Some b →
    d ≤ c →
    (0 ≤ c → 0 ≤ b → 0 ≤ big_blind g → 0 ≤ current_bet g →
     0 ≤ b + d ∧ 0 ≤ current_bet g') →
    player_chips g' = <[p := c - d]> (player_chips g) →
    player_bets g' = <[p := b + d]> (player_bets g) →
    pot g' = pot g + d →
    chip_move p g g'.

(** The comprehension of [reset_hand] is a filter of the seat list. *)
Definition has_chips (chips : gmap string Z) (p : string) : bool :=
  bool_decide (get0 chips p > 0).

(** The seats and the two dictionaries agree. *)
Record seated (g : PokerGame) : Prop := {
  seats_nodup : NoDup (player_ids g);
  seats_chips : ∀ p, p ∈ player_ids g → is_Some (player_chips g !! p);
  seats_bets : ∀ p, p ∈ player_ids g → is_Some (player_bets g !! p);
  active_seated : ∀ p, p ∈ active_players g → p ∈ player_ids g;
  active_nodup : NoDup (active_players g)
}.

(** Nothing is negative and this round's bets are part of the pot. *)
Record solvent (g : PokerGame) : Prop := {
  chips_nonneg : ∀ p c, player_chips g !! p = Some c → 0 ≤ c;
  bets_nonneg : ∀ p b, player_bets g !! p = Some b → 0 ≤ b;
  blinds_nonneg : 0 ≤ small_blind g ∧ 0 ≤ big_blind g;
  current_bet_nonneg : 0 ≤ current_bet g;
  bets_in_pot : total_bets g ≤ pot g
}.

(** What [play_hand] is entitled to find: distinct seats, a stack of zero or
    more chips for each seat, blinds that are not negative. *)
Record ready (g : PokerGame) : Prop := {
  ready_nodup : NoDup (player_ids g);
  ready_chips : ∀ p, p ∈ player_ids g → is_Some (player_chips g !! p);
  ready_nonneg : ∀ p c, player_chips g !! p = Some c → 0 ≤ c;
  ready_blinds : 0 ≤ small_blind g ∧ 0 ≤ big_blind g
}.

(** The invariant of a hand started from [g0]. *)
Record hand_inv (g0 g : PokerGame) : Prop := {
  inv_seated : seated g;
  inv_solvent : solvent g;
  inv_ids : player_ids g = player_ids g0;
  inv_conserved : pot g + total_chips g = total_chips g0
}.

(** The state [post_blinds] leaves when it posts: [cs] and [cb] are the
    stacks of the two blind players. *)
Definition blinds_posted (g : PokerGame) (sbp bbp : string) (cs cb : Z) : PokerGame :=
  let sba := Z.min (small_blind g) cs in
  let bba := Z.min (big_blind g) cb in
  set_pot (pot g + sba + bba)
    (set_player_chips (<[bbp := cb - bba]> (<[sbp := cs - sba]> (player_chips g)))
       (set_player_bets (<[bbp := bba]> (<[sbp := sba]> (player_bets g))) g)).

(** One transition of the engine between the reset and the showdown.  The
    acting player, the action and the amount of [step_action] are arbitrary:
    every decision a bot can return is covered, valid or not. *)
Inductive hand_step : PokerGame → PokerGame → Prop :=
| step_blinds g g' : post_blinds g = Ok g' → hand_step g g'
| step_round g g' : _start_betting_round g = Ok g' → hand_step g g'
| step_action g p a amt g' : process_action g p a amt = Ok g' → hand_step g g'
| step_next_player g : hand_step g (advance_to_next_player g)
| step_next_round g : hand_step g (advance_to_next_round g).

(** The states from [reset_hand] until just before the pot is paid. *)
Inductive in_hand (g0 : PokerGame) : PokerGame → Prop :=
| in_hand_reset g : reset_hand g0 = Ok g → in_hand g0 g
| in_hand_step g g' : in_hand g0 g → hand_step g g' → in_hand g0 g'.

(** All states of a hand: the one [play_hand] is called on, the betting
    states and the states after the payout and after the button has moved. *)
Inductive hand_state (g0 : PokerGame) : PokerGame → Prop :=
| state_before : hand_state g0 g0
| state_betting g : in_hand g0 g → hand_state g0 g
| state_paid g ws g' :
    in_hand g0 g → _distribute_pot g ws = Ok g' → hand_state g0 g'
| state_button g d : hand_state g0 g → hand_state g0 (set_dealer_button d g).

(** [ready], decided. *)
Definition ready_b (g : PokerGame) : bool :=
  bool_decide (NoDup (player_ids g)) &&
  forallb (λ p, bool_decide (is_Some (player_chips g !! p))) (player_ids g) &&
  bool_decide (map_Forall (λ _ c, 0 ≤ c) (player_chips g)) &&
  bool_decide (0 ≤ small_blind g) && bool_decide (0 ≤ big_blind g).

(** The evaluator answers with distinct players among those it was given. *)
Definition honest_evaluator (get_winners : list string → list string) : Prop :=
  ∀ l, NoDup l → NoDup (get_winners l) ∧ ∀ p, p ∈ get_winners l → p ∈ l.

(** The call ends normally or is still waiting for a bot. *)
Definition not_raised {A : Type} (m : outcome A) : Prop :=
  match m with
  | Raised _ => False
  | _ => True
  end.

(** One transition of a betting round: as [hand_step], the blinds left out. *)
Inductive betting_step : PokerGame → PokerGame → Prop :=
| bstep_round g g' : _start_betting_round g = Ok g' → betting_step g g'
| bstep_action g p a amt g' : process_action g p a amt = Ok g' → betting_step g g'
| bstep_next_player g : betting_step g (advance_to_next_player g)
| bstep_next_round g : betting_step g (advance_to_next_round g).

(** The states from the end of [_start_hand] until just before the pot is
    paid: the blinds are posted once, at the start. *)
Inductive in_betting (g0 : PokerGame) : PokerGame → Prop :=
| in_betting_start g : _start_hand g0 = Ok g → in_betting g0 g
| in_betting_step g g' : in_betting g0 g → betting_step g g' → in_betting g0 g'.

(** No bet of the round is above [current_bet]. *)
Definition level (g : PokerGame) : Prop :=
  ∀ p b, player_bets g !! p = Some b → b ≤ current_bet g.

(** [n] turns of the cursor. *)
Fixpoint turns (n : nat) (g : PokerGame) : PokerGame :=
  match n with
  | O => g
  | S n' => advance_to_next_player (turns n' g)
  end.

(** The body of the betting loop run on a given list of turns: each turn
    names the player who acts, the action and the amount. *)
Fixpoint take_turns (ts : list (string * PlayerAction * Z)) (g : PokerGame)
  : outcome PokerGame :=
  match ts with
  | [] => Ok g
  | (p, a, amt) :: ts' =>
      do g <- process_action g p a amt;
      take_turns ts' (advance_to_next_player g)
  end.

(** A player has answered the present bet level: the player is in the
    acted-set and has matched [current_bet] or has no chips left. *)
Definition settled (g : PokerGame) (q : string) : Prop :=
  q ∈ players_acted g ∧ matched g (current_bet g) q.

(** The [k] seats of the active list just behind the cursor hold settled
    players. *)
Definition lap (g : PokerGame) (k : Z) : Prop :=
  ∀ i, 1 ≤ i ≤ k →
    ∃ q, active_players g
           !! Z.to_nat ((current_player_index g - i) `mod` len (active_players g))
         = Some q ∧ settled g q.

(** No bet level of a hand started from [g0] goes above this. *)
Definition bet_bound (g0 : PokerGame) : Z :=
  Z.max (big_blind g0) (total_chips g0).

(** What is left of a betting round: folds still possible, room for raises,
    seats of the lap not yet passed. *)
Definition rank (g0 g : PokerGame) (k : Z) : Z :=
  len (active_players g) * (bet_bound g0 + 1) * (len (player_ids g0) + 1)
  + (bet_bound g0 - current_bet g) * (len (player_ids g0) + 1)
  + (len (active_players g) - k).

(** Decisions that are enough for any one betting round of a hand started
    from [g0], and for the whole hand. *)
Definition round_budget (g0 : PokerGame) : nat :=
  Z.to_nat (len (player_ids g0) * (bet_bound g0 + 1) * (len (player_ids g0) + 1)
            + bet_bound g0 * (len (player_ids g0) + 1)
            + len (player_ids g0)).

Definition hand_budget (g0 : PokerGame) : nat := 4 * round_budget g0.


(** The cards the board still takes from a street on: eight before the
    flop, four before the turn, two before the river. *)
Definition board_cards (name : string) : nat :=
  if bool_decide (name = "preflop") then 8%nat
  else if bool_decide (name = "flop") then 4%nat
  else if bool_decide (name = "turn") then 2%nat
  else 0%nat.

(** The seats that hold chips: the players [reset_hand] deals in. *)
Definition funded (g : PokerGame) : list string :=
  List.filter (has_chips (player_chips g)) (player_ids g).

(** The claim's words on the blinds, for comparison with [post_blinds]: the
    active players in seat order, starting at the seat after the dealer's
    seat [player_ids[dealer_button]] and going once around the table. *)
Definition active_after_dealer (g : PokerGame) : list string :=
  let d := S (Z.to_nat (dealer_button g)) in
  List.filter (λ p, in_list p (active_players g))
    (drop d (player_ids g) ++ take d (player_ids g)).

(** ** Example hands *)

(** Three players with 1000 chips each, blinds 10 and 20, button on P0. *)
Definition three : PokerGame := new_game ["P0"; "P1"; "P2"] 1000 10 20.

(** [three] after [_start_hand]: P1 and P2 have posted. *)
Definition three_blinds : PokerGame :=
  mkGame ["P0"; "P1"; "P2"] 10 20
    (<["P2" := 980]> (<["P1" := 990]> (starting_stacks ["P0"; "P1"; "P2"] 1000)))
    (<["P2" := 20]> (<["P1" := 10]> (zero_bets ["P0"; "P1"; "P2"])))
    ["P0"; "P1"; "P2"] [] 30 20 0 "preflop" ∅ 0.

(** After [_start_betting_round]: the cursor is on P1, the small blind. *)
Definition limp0 : PokerGame := set_current_player_index 1 three_blinds.

(** P1 has called. *)
Definition limp1 : PokerGame :=
  mkGame ["P0"; "P1"; "P2"] 10 20
    (<["P1" := 980]> (player_chips three_blinds))
    (<["P1" := 20]> (player_bets three_blinds))
    ["P0"; "P1"; "P2"] [] 40 20 0 "preflop" {["P1"]} 2.

(** P2 has checked. *)
Definition limp2 : PokerGame :=
  set_current_player_index 0 (set_players_acted {["P1"; "P2"]} limp1).

(** P0 has called. *)
Definition limp3 : PokerGame :=
  mkGame ["P0"; "P1"; "P2"] 10 20
    (<["P0" := 980]> (player_chips limp2))
    (<["P0" := 20]> (player_bets limp2))
    ["P0"; "P1"; "P2"] [] 60 20 0 "preflop" {["P0"; "P1"; "P2"]} 1.

(** P1 folds, P0 calls: the preflop loop stops here. *)
Definition fold_call : PokerGame :=
  mkGame ["P0"; "P1"; "P2"] 10 20
    (<["P0" := 980]> (player_chips three_blinds))
    (<["P0" := 20]> (player_bets three_blinds))
    ["P0"; "P2"] ["P1"] 50 20 0 "preflop" {["P0"; "P1"]} 1.

(** P1 has called and P2 has raised to 1000, which is all of P2's chips. *)
Definition shove : PokerGame :=
  mkGame ["P0"; "P1"; "P2"] 10 20
    (<["P2" := 0]> (player_chips limp1))
    (<["P2" := 1000]> (player_bets limp1))
    ["P0"; "P1"; "P2"] [] 1020 1000 0 "preflop" {["P1"; "P2"]} 2.

(** A hand that loses a chip: blinds 5 and 20, P1 folds, P0 calls, both
    check to the river and tie at the showdown for a pot of 45. *)
Definition odd : PokerGame := new_game ["P0"; "P1"; "P2"] 1000 5 20.

(** The decisions of that hand, in the order the engine asks for them. *)
Definition odd_decisions : list decision :=
  [(FOLD, 0); (CALL, 0); (CHECK, 0); (CHECK, 0); (CHECK, 0); (CHECK, 0);
   (CHECK, 0); (CHECK, 0)].

(** [odd] after the river betting. *)
Definition odd_river : PokerGame :=
  mkGame ["P0"; "P1"; "P2"] 5 20
    (<["P0" := 980]> (<["P1" := 995]> (<["P2" := 980]> ∅)))
    (zero_bets ["P0"; "P1"; "P2"])
    ["P0"; "P2"] ["P1"] 45 0 0 "river" {["P0"; "P2"]} 1.

(** [odd] after [play_hand]. *)
Definition odd_final : PokerGame :=
  mkGame ["P0"; "P1"; "P2"] 5 20
    (<["P0" := 1002]> (<["P1" := 995]> (<["P2" := 1002]> ∅)))
    (zero_bets ["P0"; "P1"; "P2"])
    ["P0"; "P2"] ["P1"] 0 0 1 "river" {["P0"; "P2"]} 1.

(** Seats A, B, C, D with B out of chips and the button at index 2. *)
Definition bust_seat : PokerGame :=
  mkGame ["A"; "B"; "C"; "D"] 10 20
    (<["A" := 100]> (<["B" := 0]> (<["C" := 100]> (<["D" := 100]> ∅))))
    (zero_bets ["A"; "B"; "C"; "D"])
    ["A"; "B"; "C"; "D"] [] 0 0 2 "preflop" ∅ 0.

(** A pot of 100 and a three-way tie: 33 each, one chip for nobody. *)
Definition tie : PokerGame := set_pot 100 three.

(** Blinds 10 and 20 with P1 on a stack of 30. *)
Definition short : PokerGame :=
  mkGame ["P0"; "P1"; "P2"] 10 20
    (<["P0" := 1000]> (<["P1" := 30]> (<["P2" := 1000]> ∅)))
    (zero_bets ["P0"; "P1"; "P2"])
    ["P0"; "P1"; "P2"] [] 0 0 0 "preflop" ∅ 0.

(** [short] before the first decision. *)
Definition short_preflop : PokerGame :=
  mkGame ["P0"; "P1"; "P2"] 10 20
    (<["P0" := 1000]> (<["P1" := 20]> (<["P2" := 980]> ∅)))
    (<["P0" := 0]> (<["P1" := 10]> (<["P2" := 20]> ∅)))
    ["P0"; "P1"; "P2"] [] 30 20 0 "preflop" ∅ 1.

(** P1 went all-in for 30, P2 raised to 100, P0 called: P1 is asked again. *)
Definition squeezed : PokerGame :=
  mkGame ["P0"; "P1"; "P2"] 10 20
    (<["P0" := 900]> (<["P1" := 0]> (<["P2" := 900]> ∅)))
    (<["P0" := 100]> (<["P1" := 30]> (<["P2" := 100]> ∅)))
    ["P0"; "P1"; "P2"] [] 230 100 0 "preflop" {["P0"; "P2"]} 1.

(** What the engine shows P1 in [limp0]. *)
Definition limp0_view : GameState :=
  mkGameState 30 20 (player_chips limp0) (player_bets limp0)
    ["P0"; "P1"; "P2"] "P1" "preflop" 20 20 10.

(** What the engine shows P1 in [squeezed]. *)
Definition squeezed_view : GameState :=
  mkGameState 230 100 (player_chips squeezed) (player_bets squeezed)
    ["P0"; "P1"; "P2"] "P1" "preflop" 20 20 10.

(** [three] after P1 and P0 have folded before the flop. *)
Definition lone : PokerGame :=
  mkGame ["P0"; "P1"; "P2"] 10 20
    (player_chips three_blinds) (player_bets three_blinds)
    ["P2"] ["P1"; "P0"] 30 20 0 "preflop" {["P0"; "P1"]} 0.

(** Two players with two chips each, both blinds at one chip. *)
Definition penny : PokerGame := new_game ["P0"; "P1"] 2 1 1.


(** * Basic facts *)

Lemma obind_Ok {A B : Type} (m : outcome A) (k : A → outcome B) (b : B) :
  obind m k = Ok b → ∃ a, m = Ok a ∧ k a = Ok b.
Proof. destruct m; simpl; intros; eauto; discriminate. Qed.

Lemma getitem_Ok (d : gmap string Z) (k : string) (v : Z) :
  getitem d k = Ok v ↔ d !! k = Some v.
Proof. unfold getitem. destruct (d !! k); split; intros; congruence. Qed.

Lemma getitem_Some (d : gmap string Z) (k : string) :
  is_Some (d !! k) → ∃ v, getitem d k = Ok v ∧ d !! k = Some v.
Proof. intros [v Hv]. exists v. by rewrite getitem_Ok. Qed.

(** Peel one successful [obind] off a hypothesis. *)
Tactic Notation "ok_inv" hyp(H) "as" ident(a) ident(Ha) :=
  apply obind_Ok in H as (a & Ha & H).

Lemma list_item_nonneg l i :
  0 ≤ i →
  list_item l i = match l !! Z.to_nat i with
                  | Some p => Ok p
                  | None => Raised IndexError
                  end.
Proof.
  intros Hi. unfold list_item.
  rewrite (bool_decide_eq_false_2 (i < 0)) by lia.
  by rewrite (bool_decide_eq_false_2 (i < 0)) by lia.
Qed.

Lemma list_item_Ok l i p : list_item l i = Ok p → p ∈ l.
Proof.
  unfold list_item. case_bool_decide; [done|].
  destruct (l !! _) eqn:E; [|done]. intros [= <-]. by eapply list_elem_of_lookup_2.
Qed.

Lemma list_item_in_range l i :
  0 ≤ i < len l → ∃ p, list_item l i = Ok p ∧ l !! Z.to_nat i = Some p.
Proof.
  intros Hi. rewrite list_item_nonneg by lia.
  destruct (lookup_lt_is_Some_2 l (Z.to_nat i)) as [p Hp]; [unfold len in Hi; lia|].
  exists p. by rewrite Hp.
Qed.

Lemma in_list_true p l : in_list p l = true ↔ p ∈ l.
Proof. unfold in_list. by rewrite bool_decide_eq_true. Qed.

Lemma in_list_false p l : in_list p l = false ↔ p ∉ l.
Proof. unfold in_list. by rewrite bool_decide_eq_false. Qed.

Lemma get0_insert_eq m p v : get0 (<[p := v]> m) p = v.
Proof. unfold get0. by rewrite lookup_insert_eq. Qed.

Lemma get0_insert_ne m p q v : p ≠ q → get0 (<[p := v]> m) q = get0 m q.
Proof. intros. unfold get0. by rewrite lookup_insert_ne. Qed.

Lemma get0_Some m p v : m !! p = Some v → get0 m p = v.
Proof. unfold get0. by intros ->. Qed.

Section Sums.
Implicit Types (m : gmap string Z) (ids : list string).

Lemma sum_over_insert_notin m ids p v :
  p ∉ ids → sum_over (<[p := v]> m) ids = sum_over m ids.
Proof.
  induction ids as [|q ids IH]; simpl; [done|].
  rewrite not_elem_of_cons. intros [Hne Hnin].
  rewrite get0_insert_ne by done. by rewrite IH.
Qed.

Lemma sum_over_insert m ids p v :
  NoDup ids → p ∈ ids →
  sum_over (<[p := v]> m) ids = sum_over m ids - get0 m p + v.
Proof.
  induction ids as [|q ids IH]; simpl.
  - intros _ Hin. by apply elem_of_nil in Hin.
  - rewrite NoDup_cons. intros [Hq Hnd] Hin.
    destruct (decide (p = q)) as [->|Hne].
    + rewrite get0_insert_eq, sum_over_insert_notin by done. lia.
    + apply elem_of_cons in Hin as [?|Hin]; [done|].
      rewrite get0_insert_ne, IH by done. lia.
Qed.

Lemma sum_over_nonneg m ids :
  (∀ p v, m !! p = Some v → 0 ≤ v) → 0 ≤ sum_over m ids.
Proof.
  intros Hm. induction ids as [|q ids IH]; simpl; [done|].
  assert (0 ≤ get0 m q); [|lia].
  unfold get0. destruct (m !! q) eqn:E; simpl; [eauto|done].
Qed.

Lemma starting_stacks_lookup ids v p :
  starting_stacks ids v !! p = if bool_decide (p ∈ ids) then Some v else None.
Proof.
  unfold starting_stacks. induction ids as [|q ids IH].
  - cbn [foldr]. rewrite lookup_empty. case_bool_decide as H; [|done].
    by apply elem_of_nil in H.
  - cbn [foldr]. destruct (decide (q = p)) as [->|Hne].
    + rewrite lookup_insert_eq.
      by rewrite (bool_decide_eq_true_2 (p ∈ p :: ids)) by apply list_elem_of_here.
    + rewrite lookup_insert_ne, IH by done.
      apply (f_equal (λ b : bool, if b then Some v else None)).
      apply bool_decide_ext. rewrite elem_of_cons. intuition congruence.
Qed.

Lemma zero_bets_lookup ids p :
  zero_bets ids !! p = if bool_decide (p ∈ ids) then Some 0 else None.
Proof. apply starting_stacks_lookup. Qed.

Lemma zero_bets_get0 ids p : get0 (zero_bets ids) p = 0.
Proof. unfold get0. rewrite zero_bets_lookup. by case_bool_decide. Qed.

Lemma sum_over_zero_bets ids ids' : sum_over (zero_bets ids) ids' = 0.
Proof.
  induction ids' as [|q l IH]; simpl; [done|].
  by rewrite zero_bets_get0, IH.
Qed.
End Sums.

(** * What one action does *)

Lemma is_valid_action_active g p a amt :
  is_valid_action g p a amt = true →
  p ∈ active_players g ∧ p ∉ folded_players g.
Proof.
  unfold is_valid_action.
  destruct (in_list p (active_players g)) eqn:Ha;
    destruct (in_list p (folded_players g)) eqn:Hf; simpl; try discriminate.
  intros _. by rewrite <-in_list_true, <-in_list_false.
Qed.

Lemma process_action_invalid g p a amt :
  is_valid_action g p a amt = false →
  process_action g p a amt = process_action g p FOLD 0.
Proof.
  intros Hv. unfold process_action. rewrite Hv.
  by destruct (is_valid_action g p FOLD 0).
Qed.

Lemma process_action_chip_move g p a amt g' :
  process_action g p a amt = Ok g' → chip_move p g g'.
Proof.
  intros H.
  destruct (is_valid_action g p a amt) eqn:Hv.
  2:{ rewrite process_action_invalid in H by done.
      unfold process_action in H.
      destruct (is_valid_action g p FOLD 0); ok_inv H as b Hb;
        destruct (in_list p _); simplify_eq; by apply no_move. }
  pose proof (is_valid_action_active _ _ _ _ Hv) as [Hact Hnf].
  unfold process_action in H. rewrite Hv in H.
  unfold is_valid_action in Hv.
  apply in_list_true in Hact as Hact'. apply in_list_false in Hnf as Hnf'.
  rewrite Hact', Hnf' in Hv. simpl in Hv.
  ok_inv H as b Hb. apply getitem_Ok in Hb. simpl in Hb.
  rewrite (get0_Some _ _ _ Hb) in Hv.
  destruct a.
  - destruct (in_list p _); simplify_eq; by apply no_move.
  - simplify_eq. by apply no_move.
  - ok_inv H as c Hc. apply getitem_Ok in Hc. simpl in Hc.
    apply bool_decide_eq_true in Hv. simplify_eq.
    eapply wager; simpl; eauto; lia.
  - ok_inv H as c Hc. apply getitem_Ok in Hc. simpl in Hc.
    rewrite (get0_Some _ _ _ Hc) in Hv.
    apply andb_true_iff in Hv as [Hv1 Hv2].
    apply bool_decide_eq_true in Hv1, Hv2.
    case_bool_decide; simplify_eq.
    + eapply (wager _ _ _ c b c); simpl; eauto; try lia.
      by rewrite Z.sub_diag.
    + eapply (wager _ _ _ c b (amt - b)); simpl; eauto; lia.
  - ok_inv H as c Hc. apply getitem_Ok in Hc. simpl in Hc.
    rewrite (get0_Some _ _ _ Hc) in Hv.
    apply bool_decide_eq_true in Hv.
    case_bool_decide; simplify_eq.
    + eapply (wager _ _ _ c b c); simpl; eauto; try lia.
      by rewrite Z.sub_diag.
    + eapply (wager _ _ _ c b c); simpl; eauto; try lia.
      by rewrite Z.sub_diag.
Qed.

Lemma process_action_frame g p a amt g' :
  process_action g p a amt = Ok g' →
  player_ids g' = player_ids g ∧ small_blind g' = small_blind g ∧
  big_blind g' = big_blind g ∧ dealer_button g' = dealer_button g ∧
  round_name g' = round_name g ∧
  current_player_index g' = current_player_index g ∧
  (active_players g' = active_players g ∨
   active_players g' = list_remove_first p (active_players g)).
Proof.
  unfold process_action.
  destruct (is_valid_action g p a amt); [|clear a; pose (a := FOLD)];
    intros H; ok_inv H as b Hb; destruct a;
    repeat match type of H with
      | obind _ _ = Ok _ => let c := fresh "c" in let Hc := fresh "Hc" in
                            ok_inv H as c Hc
      | context [bool_decide ?P] => destruct (bool_decide P)
      | context [in_list ?x ?l] => destruct (in_list x l)
      end; simplify_eq; simpl; tauto.
Qed.

(** ** Lists of players *)

Lemma list_remove_first_subseteq p l q :
  q ∈ list_remove_first p l → q ∈ l.
Proof.
  induction l as [|x l IH]; simpl; [done|].
  case_bool_decide; rewrite !elem_of_cons; [tauto|].
  intros [?|?]; [by left | right; auto].
Qed.

Lemma list_remove_first_NoDup p l :
  NoDup l → NoDup (list_remove_first p l).
Proof.
  induction 1 as [|x l Hx Hnd IH]; simpl; [constructor|].
  case_bool_decide; [done|].
  constructor; [|done]. intros Hin. by apply list_remove_first_subseteq in Hin.
Qed.

Lemma list_remove_first_gone p l :
  NoDup l → p ∉ list_remove_first p l.
Proof.
  induction 1 as [|x l Hx Hnd IH]; simpl; [apply not_elem_of_nil|].
  case_bool_decide as Heq; [by subst|].
  rewrite not_elem_of_cons. split; [congruence | done].
Qed.

Lemma list_remove_first_other p q l :
  q ≠ p → q ∈ l → q ∈ list_remove_first p l.
Proof.
  intros Hne. induction l as [|x l IH]; simpl; [done|].
  rewrite elem_of_cons. case_bool_decide as Heq.
  - intros [->|?]; [congruence | done].
  - rewrite elem_of_cons. intros [?|?]; [by left | right; auto].
Qed.

Lemma list_remove_first_length p l :
  p ∈ l → len l = len (list_remove_first p l) + 1.
Proof.
  unfold len. induction l as [|x l IH]; simpl.
  - intros H. by apply elem_of_nil in H.
  - case_bool_decide as Heq; [lia|].
    rewrite elem_of_cons. intros [?|Hin]; [congruence|].
    specialize (IH Hin). simpl. lia.
Qed.

Lemma has_chips_Some chips p c :
  chips !! p = Some c → has_chips chips p = bool_decide (c > 0).
Proof. intros H. unfold has_chips. by rewrite (get0_Some _ _ _ H). Qed.

Lemma players_with_chips_Ok chips ids act :
  players_with_chips chips ids = Ok act →
  act = List.filter (has_chips chips) ids.
Proof.
  revert act. induction ids as [|p ids IH]; simpl; intros act H.
  - congruence.
  - ok_inv H as c Hc. ok_inv H as rest Hrest.
    apply getitem_Ok in Hc.
    rewrite (has_chips_Some _ _ _ Hc), <-(IH _ Hrest). congruence.
Qed.

Lemma players_with_chips_total chips ids :
  (∀ p, p ∈ ids → is_Some (chips !! p)) →
  players_with_chips chips ids = Ok (List.filter (has_chips chips) ids).
Proof.
  induction ids as [|p ids IH]; simpl; intros Hk; [done|].
  destruct (getitem_Some chips p) as (c & -> & Hc).
  { apply Hk, list_elem_of_here. }
  simpl. rewrite IH by (intros; by apply Hk, list_elem_of_further).
  simpl. by rewrite (has_chips_Some _ _ _ Hc).
Qed.

Lemma filter_has_chips_elem chips ids p :
  p ∈ List.filter (has_chips chips) ids ↔ p ∈ ids ∧ get0 chips p > 0.
Proof.
  rewrite !list_elem_of_In, filter_In. unfold has_chips.
  by rewrite bool_decide_eq_true.
Qed.

Lemma filter_has_chips_NoDup chips ids :
  NoDup ids → NoDup (List.filter (has_chips chips) ids).
Proof. rewrite !NoDup_ListNoDup. apply List.NoDup_filter. Qed.

(** * Invariants of a hand *)

Section Transfers.
Implicit Types (m : gmap string Z) (ids : list string).

Lemma sum_over_put m ids p old v :
  NoDup ids → p ∈ ids → m !! p = Some old →
  sum_over (<[p := v]> m) ids = sum_over m ids - old + v.
Proof. intros ?? Hp. rewrite sum_over_insert by done. by rewrite (get0_Some _ _ _ Hp). Qed.

Lemma insert_is_Some m p v q : is_Some (m !! q) → is_Some (<[p := v]> m !! q).
Proof. intros. rewrite lookup_insert_is_Some. destruct (decide (p = q)); auto. Qed.

Lemma insert_nonneg m p v :
  0 ≤ v → (∀ q c, m !! q = Some c → 0 ≤ c) →
  ∀ q c, <[p := v]> m !! q = Some c → 0 ≤ c.
Proof.
  intros Hv Hm q c. rewrite lookup_insert. case_decide; [|by eauto].
  intros; simplify_eq. done.
Qed.
End Transfers.

Lemma blind_seats_distinct d n : 2 ≤ n → (d + 1) mod n ≠ (d + 2) mod n.
Proof.
  intros Hn Heq.
  assert (0 ≤ (d + 1) mod n < n) by (apply Z.mod_pos_bound; lia).
  replace (d + 2) with ((d + 1) + 1) in Heq by lia.
  rewrite <-(Z.add_mod_idemp_l (d + 1) 1 n) in Heq by lia.
  destruct (decide ((d + 1) mod n + 1 < n)).
  - rewrite (Z.mod_small ((d + 1) mod n + 1)) in Heq by lia. lia.
  - replace ((d + 1) mod n + 1) with n in Heq by lia.
    rewrite Z.mod_same in Heq by lia. lia.
Qed.

Lemma post_blinds_Ok g g' :
  post_blinds g = Ok g' →
  (len (active_players g) < 2 ∧ g' = g) ∨
  (2 ≤ len (active_players g) ∧ ∃ sbp bbp cs cb,
     active_players g !! Z.to_nat ((dealer_button g + 1) mod len (active_players g))
       = Some sbp ∧
     active_players g !! Z.to_nat ((dealer_button g + 2) mod len (active_players g))
       = Some bbp ∧
     player_chips g !! sbp = Some cs ∧
     <[sbp := cs - Z.min (small_blind g) cs]> (player_chips g) !! bbp = Some cb ∧
     g' = blinds_posted g sbp bbp cs cb).
Proof.
  unfold post_blinds. case_bool_decide as Hn; intros H.
  { left. split; [done | congruence]. }
  right. split; [lia|].
  unfold pymod in H. rewrite bool_decide_eq_false_2 in H by lia. simpl in H.
  rewrite !list_item_nonneg in H by (apply Z.mod_pos_bound; lia).
  destruct (active_players g !! _) as [sbp|] eqn:Hs; [|done].
  destruct (active_players g !! Z.to_nat ((dealer_button g + 2) mod _))
    as [bbp|] eqn:Hb; [|done].
  simpl in H. ok_inv H as cs Hcs. ok_inv H as cb Hcb.
  apply getitem_Ok in Hcs, Hcb. simpl in Hcb.
  exists sbp, bbp, cs, cb. repeat split; try done.
  unfold blinds_posted. simpl in H. simplify_eq.
  reflexivity.
Qed.

(** With distinct active players the two blinds go to two players. *)
Lemma blind_players_distinct g sbp bbp :
  NoDup (active_players g) → 2 ≤ len (active_players g) →
  active_players g !! Z.to_nat ((dealer_button g + 1) mod len (active_players g))
    = Some sbp →
  active_players g !! Z.to_nat ((dealer_button g + 2) mod len (active_players g))
    = Some bbp →
  sbp ≠ bbp.
Proof.
  intros Hnd Hn Hs Hb ->.
  pose proof (NoDup_lookup _ _ _ _ Hnd Hs Hb) as Heq.
  apply (blind_seats_distinct (dealer_button g) _ Hn).
  assert (0 ≤ (dealer_button g + 1) mod len (active_players g)) by (apply Z.mod_pos_bound; lia).
  assert (0 ≤ (dealer_button g + 2) mod len (active_players g)) by (apply Z.mod_pos_bound; lia).
  lia.
Qed.

(** ** The invariant is established by [reset_hand] and kept by every step *)

(** The invariant reads seven fields only. *)
Lemma hand_inv_ext g0 g g' :
  player_ids g' = player_ids g →
  player_chips g' = player_chips g →
  player_bets g' = player_bets g →
  (∀ p, p ∈ active_players g' → p ∈ active_players g) →
  NoDup (active_players g') →
  pot g' = pot g →
  0 ≤ current_bet g' →
  small_blind g' = small_blind g →
  big_blind g' = big_blind g →
  hand_inv g0 g → hand_inv g0 g'.
Proof.
  intros Hids Hc Hb Ha Hnd Hp Hcb Hsb Hbb [[] [] ? ?].
  split; [split|split| |]; unfold total_bets, total_chips in *;
    rewrite ?Hids, ?Hc, ?Hb, ?Hp, ?Hsb, ?Hbb; auto.
Qed.

Lemma reset_hand_Ok g g' :
  reset_hand g = Ok g' →
  g' = set_round_name "preflop" (set_current_bet (big_blind g) (set_pot 0
         (set_folded_players [] (set_player_bets (zero_bets (player_ids g))
         (set_active_players (List.filter (has_chips (player_chips g)) (player_ids g))
            g))))).
Proof.
  unfold reset_hand. intros H. ok_inv H as act Hact.
  apply players_with_chips_Ok in Hact. by simplify_eq.
Qed.

Lemma reset_hand_inv g0 g :
  ready g0 → reset_hand g0 = Ok g → hand_inv g0 g.
Proof.
  intros [Hnd Hk Hnn Hbl] H. apply reset_hand_Ok in H as ->.
  split; [split|split| |]; simpl; auto.
  - intros p Hp. rewrite zero_bets_lookup, bool_decide_eq_true_2 by done. eauto.
  - intros p Hp. by apply filter_has_chips_elem in Hp as [? _].
  - by apply filter_has_chips_NoDup.
  - intros p b. rewrite zero_bets_lookup. case_bool_decide; intros; by simplify_eq.
  - lia.
  - unfold total_bets; simpl. by rewrite sum_over_zero_bets.
Qed.

Lemma post_blinds_inv g0 g g' :
  hand_inv g0 g → post_blinds g = Ok g' → hand_inv g0 g'.
Proof.
  intros Hinv H.
  apply post_blinds_Ok in H as [[_ ->]|(Hn & sbp & bbp & cs & cb & Hs & Hb & Hcs & Hcb & ->)];
    [done|].
  destruct Hinv as [[Hnd Hkc Hkb Hact Hand] [Hc Hbn [Hsb Hbb] Hcur Hpot] Hids Hcons].
  pose proof (blind_players_distinct _ _ _ Hand Hn Hs Hb) as Hne.
  rewrite lookup_insert_ne in Hcb by done.
  assert (sbp ∈ player_ids g) as Hsin by eauto using list_elem_of_lookup_2.
  assert (bbp ∈ player_ids g) as Hbin by eauto using list_elem_of_lookup_2.
  destruct (Hkb _ Hsin) as [bs Hbs]. destruct (Hkb _ Hbin) as [bb' Hbb'].
  pose proof (Hc _ _ Hcs). pose proof (Hc _ _ Hcb).
  pose proof (Hbn _ _ Hbs). pose proof (Hbn _ _ Hbb').
  split; [split|split| |]; simpl; auto.
  - intros p Hp. by do 2 apply insert_is_Some; auto.
  - intros p Hp. by do 2 apply insert_is_Some; auto.
  - do 2 (apply insert_nonneg; [lia|]). done.
  - do 2 (apply insert_nonneg; [lia|]). done.
  - unfold total_bets in *; simpl.
    rewrite (sum_over_put _ _ bbp bb') by (by rewrite ?lookup_insert_ne).
    rewrite (sum_over_put _ _ sbp bs) by done. lia.
  - unfold total_chips in *; simpl.
    rewrite (sum_over_put _ _ bbp cb) by (by rewrite ?lookup_insert_ne).
    rewrite (sum_over_put _ _ sbp cs) by done. lia.
Qed.

Lemma start_hand_inv g0 g :
  ready g0 → _start_hand g0 = Ok g → hand_inv g0 g.
Proof.
  intros Hr H. unfold _start_hand in H. ok_inv H as g1 Hg1.
  ok_inv H as g2 Hg2. ok_inv H as dealer Hdealer. simplify_eq.
  eauto using reset_hand_inv, post_blinds_inv.
Qed.

Lemma process_action_inv g0 g p a amt g' :
  hand_inv g0 g → process_action g p a amt = Ok g' → hand_inv g0 g'.
Proof.
  intros Hinv H.
  pose proof (process_action_frame _ _ _ _ _ H) as (Hids & Hsb & Hbb & _ & _ & _ & Hact).
  assert (∀ q, q ∈ active_players g' → q ∈ active_players g) as Hsub.
  { destruct Hact as [->| ->]; [done|]. intros q. apply list_remove_first_subseteq. }
  assert (NoDup (active_players g')) as Hnd'.
  { destruct Hact as [->| ->]; [|apply list_remove_first_NoDup];
      apply Hinv. }
  apply process_action_chip_move in H as [Hc Hb Hp Hcb|c b d Hin Hc Hb Hd Hnn Hc' Hb' Hp'].
  { apply (hand_inv_ext g0 g); auto. rewrite Hcb. apply Hinv. }
  destruct Hinv as [[Hnd Hkc Hkb Hseat Hand] [Hcn Hbn [Hsbn Hbbn] Hcur Hpot] Hids0 Hcons].
  assert (p ∈ player_ids g) as Hpin by auto.
  destruct Hnn as [Hbd Hcur']; eauto.
  split; [split|split| |]; rewrite ?Hids, ?Hsb, ?Hbb; auto.
  - intros q Hq. rewrite Hc'. by apply insert_is_Some; auto.
  - intros q Hq. rewrite Hb'. by apply insert_is_Some; auto.
  - rewrite Hc'. apply insert_nonneg; [lia | done].
  - rewrite Hb'. apply insert_nonneg; [lia | done].
  - unfold total_bets in *. rewrite Hids, Hb', Hp'.
    rewrite (sum_over_put _ _ p b) by done. lia.
  - unfold total_chips in *. rewrite Hids, Hc', Hp'.
    rewrite (sum_over_put _ _ p c) by done. lia.
Qed.

Lemma start_betting_round_inv g0 g g' :
  hand_inv g0 g → _start_betting_round g = Ok g' → hand_inv g0 g'.
Proof.
  intros Hinv H. unfold _start_betting_round in H.
  ok_inv H as i Hi. simpl in H.
  case_bool_decide; simplify_eq.
  2:{ apply (hand_inv_ext g0 g); simpl; auto; apply Hinv. }
  destruct Hinv as [[Hnd Hkc Hkb Hseat Hand] [Hcn Hbn [Hsbn Hbbn] Hcur Hpot] Hids0 Hcons].
  split; [split|split| |]; simpl; auto.
  - intros p Hp. rewrite zero_bets_lookup, bool_decide_eq_true_2 by done. eauto.
  - intros p b. rewrite zero_bets_lookup. case_bool_decide; intros; by simplify_eq.
  - done.
  - unfold total_bets in *; simpl. rewrite sum_over_zero_bets.
    pose proof (sum_over_nonneg _ (player_ids g) Hbn). lia.
Qed.

Lemma advance_to_next_player_inv g0 g :
  hand_inv g0 g → hand_inv g0 (advance_to_next_player g).
Proof.
  intros Hinv. unfold advance_to_next_player.
  destruct (active_players g) eqn:E; [done|].
  apply (hand_inv_ext g0 g); simpl; auto; apply Hinv.
Qed.

Lemma advance_to_next_round_inv g0 g :
  hand_inv g0 g → hand_inv g0 (advance_to_next_round g).
Proof.
  intros Hinv. unfold advance_to_next_round.
  repeat case_bool_decide; try done;
    apply (hand_inv_ext g0 g); simpl; auto; apply Hinv.
Qed.

(** ** Paying the winners *)

Section Payout.
Implicit Types (chips : gmap string Z) (ws ids : list string).

Lemma pay_winners_total w ws chips :
  (∀ p, p ∈ ws → is_Some (chips !! p)) →
  ∃ chips', pay_winners w ws chips = Ok chips'.
Proof.
  revert chips. induction ws as [|x ws IH]; simpl; intros chips Hk; [eauto|].
  destruct (getitem_Some chips x) as (c & -> & Hc); [apply Hk; left|].
  simpl. apply IH. intros p Hp. apply insert_is_Some, Hk. by right.
Qed.

Lemma pay_winners_keys w ws chips chips' p :
  pay_winners w ws chips = Ok chips' →
  is_Some (chips !! p) → is_Some (chips' !! p).
Proof.
  revert chips. induction ws as [|x ws IH]; simpl; intros chips H Hp.
  - congruence.
  - ok_inv H as c Hc. eapply IH; [done|]. by apply insert_is_Some.
Qed.

Lemma pay_winners_others w ws chips chips' p :
  pay_winners w ws chips = Ok chips' → p ∉ ws → chips' !! p = chips !! p.
Proof.
  revert chips. induction ws as [|x ws IH]; simpl; intros chips H Hp.
  - congruence.
  - ok_inv H as c Hc. apply not_elem_of_cons in Hp as [Hne Hp].
    rewrite (IH _ H Hp). by rewrite lookup_insert_ne.
Qed.

Lemma pay_winners_share w ws chips chips' p c :
  NoDup ws → pay_winners w ws chips = Ok chips' →
  p ∈ ws → chips !! p = Some c → chips' !! p = Some (c + w).
Proof.
  intros Hnd. revert chips.
  induction Hnd as [|x ws Hx Hnd IH]; simpl; intros chips H Hp Hc.
  - by apply elem_of_nil in Hp.
  - ok_inv H as c' Hc'. apply getitem_Ok in Hc'.
    apply elem_of_cons in Hp as [->|Hp].
    + rewrite (pay_winners_others _ _ _ _ _ H Hx), lookup_insert_eq. congruence.
    + apply (IH _ H Hp). rewrite lookup_insert_ne; [done|]. by intros ->.
Qed.

Lemma pay_winners_nonneg w ws chips chips' :
  0 ≤ w → pay_winners w ws chips = Ok chips' →
  (∀ p c, chips !! p = Some c → 0 ≤ c) →
  ∀ p c, chips' !! p = Some c → 0 ≤ c.
Proof.
  intros Hw. revert chips. induction ws as [|x ws IH]; simpl; intros chips H Hn.
  - by simplify_eq.
  - ok_inv H as c' Hc'. apply getitem_Ok in Hc'.
    apply (IH _ H). apply insert_nonneg; [|done].
    specialize (Hn _ _ Hc'). lia.
Qed.

Lemma pay_winners_sum w ws chips chips' ids :
  NoDup ids → NoDup ws → (∀ p, p ∈ ws → p ∈ ids) →
  pay_winners w ws chips = Ok chips' →
  sum_over chips' ids = sum_over chips ids + w * len ws.
Proof.
  intros Hids Hnd. revert chips.
  induction Hnd as [|x ws Hx Hnd IH]; simpl; intros chips Hsub H.
  - simplify_eq. unfold len; simpl. lia.
  - ok_inv H as c Hc. apply getitem_Ok in Hc.
    rewrite (IH _ (λ p Hp, Hsub p (list_elem_of_further _ _ _ Hp)) H).
    rewrite (sum_over_put _ _ x c) by (auto using list_elem_of_here).
    unfold len; simpl length. lia.
Qed.
End Payout.

Lemma distribute_pot_inv g ws g' :
  _distribute_pot g ws = Ok g' → solvent g →
  ∀ p c, player_chips g' !! p = Some c → 0 ≤ c.
Proof.
  intros H Hs. unfold _distribute_pot in H. destruct ws as [|w ws].
  - simplify_eq. apply Hs.
  - ok_inv H as chips Hchips. simplify_eq. simpl.
    eapply pay_winners_nonneg; [|done|apply Hs].
    apply Z.div_pos; [|unfold len; simpl length; lia].
    destruct Hs as [_ Hb _ _ Hpot].
    pose proof (sum_over_nonneg _ (player_ids g) Hb). unfold total_bets in Hpot. lia.
Qed.

(** * The states of a hand *)

Lemma hand_step_inv g0 g g' : hand_inv g0 g → hand_step g g' → hand_inv g0 g'.
Proof.
  intros Hinv Hs. revert Hinv. destruct Hs; intros Hinv.
  - eauto using post_blinds_inv.
  - eauto using start_betting_round_inv.
  - eauto using process_action_inv.
  - by apply advance_to_next_player_inv.
  - by apply advance_to_next_round_inv.
Qed.

Lemma in_hand_inv g0 g : ready g0 → in_hand g0 g → hand_inv g0 g.
Proof.
  intros Hr. induction 1; eauto using reset_hand_inv, hand_step_inv.
Qed.

Lemma start_hand_in_hand g0 g : _start_hand g0 = Ok g → in_hand g0 g.
Proof.
  unfold _start_hand. intros H. ok_inv H as g1 Hg1.
  ok_inv H as g2 Hg2. ok_inv H as dealer Hdealer. simplify_eq.
  eapply in_hand_step; [by apply in_hand_reset|]. by apply step_blinds.
Qed.

(** The loop and the streets only take such steps. *)
Lemma betting_loop_in_hand g0 ds g g' ds' :
  betting_loop ds g = Ok (g', ds') → in_hand g0 g → in_hand g0 g'.
Proof.
  revert g. induction ds as [|[a amt] ds IH]; intros g H Hin; simpl in H;
    ok_inv H as fin Hfin; destruct fin; simplify_eq; try done;
    ok_inv H as pid Hpid; case_bool_decide; simplify_eq; try done;
    ok_inv H as gs Hgs; ok_inv H as la Hla; ok_inv H as c Hc; ok_inv H as b Hb;
    try discriminate.
  ok_inv H as g1 Hg1. apply (IH _ H).
  eapply in_hand_step; [|apply step_next_player].
  eapply in_hand_step; [done|]. by eapply step_action.
Qed.

Lemma run_betting_round_in_hand g0 ds g g' ds' :
  _run_betting_round ds g = Ok (g', ds') → in_hand g0 g → in_hand g0 g'.
Proof.
  unfold _run_betting_round. intros H Hin. ok_inv H as g1 Hg1.
  eapply betting_loop_in_hand; [done|].
  eapply in_hand_step; [done|]. by apply step_round.
Qed.

Lemma street_in_hand g0 adv st g' ds' :
  street adv st = Ok (g', ds') → in_hand g0 st.1 → in_hand g0 g'.
Proof.
  destruct st as [g ds]. unfold street. simpl. case_bool_decide as Hlen; intros H Hin.
  - eapply run_betting_round_in_hand; [done|].
    destruct adv; [|done]. eapply in_hand_step; [done|]. apply step_next_round.
  - by simplify_eq.
Qed.

Lemma play_streets_in_hand ds g0 g ds' :
  play_streets ds g0 = Ok (g, ds') → in_hand g0 g.
Proof.
  unfold play_streets. intros H.
  ok_inv H as g2 Hg2.
  ok_inv H as st1 H1. ok_inv H as st2 H2. ok_inv H as st3 H3.
  assert (in_hand g0 g2) as Hin by (by apply start_hand_in_hand).
  destruct st1 as [x1 d1], st2 as [x2 d2], st3 as [x3 d3].
  eapply (street_in_hand g0 _ (x3, d3)); [done|]. simpl.
  eapply (street_in_hand g0 _ (x2, d2)); [done|]. simpl.
  eapply (street_in_hand g0 _ (x1, d1)); [done|]. simpl.
  by eapply (street_in_hand g0 _ (g2, ds)).
Qed.

Lemma play_hand_hand_state get_winners ds g0 g' :
  play_hand get_winners ds g0 = Ok g' → hand_state g0 g'.
Proof.
  unfold play_hand, settle. intros H.
  ok_inv H as st Hst. destruct st as [g ds']. simpl in H.
  ok_inv H as g1 Hg1. ok_inv H as d Hd. simplify_eq.
  apply state_button. eapply state_paid; [|done].
  by eapply play_streets_in_hand.
Qed.

(** ** Readiness, decided *)

Lemma ready_b_true g : ready_b g = true → ready g.
Proof.
  unfold ready_b. rewrite !andb_true_iff, !bool_decide_eq_true, forallb_forall.
  intros ((((Hnd & Hk) & Hn) & Hs) & Hb). split; auto.
  intros p Hp. apply list_elem_of_In, Hk in Hp. by apply bool_decide_eq_true in Hp.
Qed.

(** The constructor hands [play_hand] a ready game. *)
Lemma new_game_ready ids starting_chips sb bb :
  NoDup ids → 0 ≤ starting_chips → 0 ≤ sb → 0 ≤ bb →
  ready (new_game ids starting_chips sb bb).
Proof.
  intros Hnd Hc Hsb Hbb. split; simpl; auto.
  - intros p Hp. rewrite starting_stacks_lookup, bool_decide_eq_true_2 by done. eauto.
  - intros p c. rewrite starting_stacks_lookup. case_bool_decide; intros; by simplify_eq.
Qed.

(** * Chips *)

(** C10.  Between [reset_hand] and the payout the pot and the stacks together
    hold exactly the chips the players sat down with: every blind, call, raise
    and all-in puts into the pot what it takes from a stack.  The bets of the
    round are part of the pot, not an amount beside it. *)
Theorem pot_plus_chips_conserved g0 g :
  ready g0 → in_hand g0 g →
  pot g + total_chips g = total_chips g0 ∧ total_bets g ≤ pot g.
Proof.
  intros Hr Hin. destruct (in_hand_inv _ _ Hr Hin) as [_ Hs _ Hc].
  split; [done | apply Hs].
Qed.

(** C2.  No stack is negative in any state of a hand: not before it, not
    after the blinds or after any action of any player, valid or coerced,
    and not after the pot is paid. *)
Theorem chips_never_negative g0 g p c :
  ready g0 → hand_state g0 g → player_chips g !! p = Some c → 0 ≤ c.
Proof.
  intros Hr Hst. revert p c.
  induction Hst as [|g Hin|g ws g' Hin Hpay|g d Hst IH]; intros p c Hp.
  - by eapply ready_nonneg.
  - destruct (in_hand_inv _ _ Hr Hin) as [_ Hs _ _]. by eapply chips_nonneg.
  - destruct (in_hand_inv _ _ Hr Hin) as [_ Hs _ _].
    by eapply distribute_pot_inv.
  - by eapply IH.
Qed.

(** * Validation and coercion *)

(** C5.  A request that fails the engine's validation is carried out as
    FOLD with amount 0: the call returns normally, the player leaves the
    active list and joins the folded list, and pot, stacks, bets and the
    current bet are what they were. *)
Theorem invalid_action_is_fold g p a amt :
  NoDup (active_players g) → is_Some (player_bets g !! p) →
  is_valid_action g p a amt = false →
  ∃ g', process_action g p a amt = Ok g' ∧
        process_action g p FOLD 0 = Ok g' ∧
        p ∈ folded_players g' ∧ (p ∉ active_players g') ∧
        (∀ q, q ≠ p → (q ∈ active_players g' ↔ q ∈ active_players g)) ∧
        pot g' = pot g ∧ player_chips g' = player_chips g ∧
        player_bets g' = player_bets g ∧ current_bet g' = current_bet g.
Proof.
  intros Hnd [b Hb] Hv.
  rewrite (process_action_invalid _ _ _ _ Hv).
  unfold process_action.
  assert (getitem (player_bets (set_players_acted ({[p]} ∪ players_acted g) g)) p
          = Ok b) as Hget by (by apply getitem_Ok).
  destruct (is_valid_action g p FOLD 0); rewrite Hget; simpl;
    destruct (in_list p (active_players g)) eqn:Hin;
    (eexists; split; [reflexivity|]; split; [reflexivity|]; simpl;
     repeat split; auto;
     try (rewrite elem_of_app, list_elem_of_singleton; by right)).
  all: try (by apply list_remove_first_gone).
  all: try (by apply in_list_false).
  all: try (by apply list_remove_first_subseteq).
  all: by apply list_remove_first_other.
Qed.

(** * Blinds *)


(** * Payout *)

(** C9.  With [k >= 1] distinct winners, each of them seated, every winner
    receives [pot // k], nobody else receives anything, the pot is emptied,
    and what the stacks gain in total is the pot less its remainder
    [pot mod k], which goes to nobody. *)
Theorem distribute_pot_even_split g winners :
  winners ≠ [] → NoDup winners → NoDup (player_ids g) →
  (∀ p, p ∈ winners → p ∈ player_ids g ∧ is_Some (player_chips g !! p)) →
  let k := len winners in
  ∃ g', _distribute_pot g winners = Ok g' ∧
        (∀ p c, p ∈ winners → player_chips g !! p = Some c →
                player_chips g' !! p = Some (c + pot g `div` k)) ∧
        (∀ p, p ∉ winners → player_chips g' !! p = player_chips g !! p) ∧
        pot g' = 0 ∧
        total_chips g' = total_chips g + pot g - pot g `mod` k.
Proof.
  intros Hne Hnd Hids Hk k.
  destruct (pay_winners_total (pot g `div` k) winners (player_chips g))
    as [chips Hpay]; [intros; by apply Hk|].
  exists (set_pot 0 (set_player_chips chips g)).
  split.
  { unfold _distribute_pot. destruct winners as [|w ws]; [congruence|].
    fold k. by rewrite Hpay. }
  split; [|split; [|split; [done|]]].
  - intros p c Hp Hc. simpl. exact (pay_winners_share _ _ _ _ _ _ Hnd Hpay Hp Hc).
  - intros p Hp. simpl. exact (pay_winners_others _ _ _ _ _ Hpay Hp).
  - unfold total_chips; simpl.
    rewrite (pay_winners_sum _ _ _ _ _ Hids Hnd (λ p Hp, proj1 (Hk p Hp)) Hpay).
    fold k. assert (k ≠ 0) by (unfold k, len; destruct winners; simpl; [done|lia]).
    rewrite (Z.mod_eq (pot g) k) by done. lia.
Qed.

(** * Closing a betting round *)

Section RoundClosure.
Variable g : PokerGame.
Hypothesis Hseated : seated g.

Lemma all_bets_matched_seated m ps :
  (∀ p, p ∈ ps → p ∈ player_ids g) →
  all_bets_matched g m ps = Ok (bool_decide (Forall (matched g m) ps)).
Proof.
  induction ps as [|p ps IH]; intros Hps.
  - symmetry. apply (f_equal Ok), bool_decide_eq_true_2. constructor.
  - cbn [all_bets_matched].
    destruct (getitem_Some (player_chips g) p) as (c & -> & Hc).
    { apply Hseated, Hps. left. }
    destruct (getitem_Some (player_bets g) p) as (b & Hgb & Hb).
    { apply Hseated, Hps. left. }
    cbn [obind]. rewrite IH by (intros; apply Hps; by right).
    assert (matched g m p ↔ (c > 0 → b = m)) as Hm.
    { unfold matched. by rewrite (get0_Some _ _ _ Hc), (get0_Some _ _ _ Hb). }
    destruct (decide (c > 0)) as [Hc0|Hc0].
    + rewrite (bool_decide_eq_true_2 (c > 0)) by done.
      rewrite Hgb. cbn [obind].
      destruct (decide (b = m)) as [Hbm|Hbm].
      * rewrite (bool_decide_eq_false_2 (b ≠ m)) by tauto.
        apply (f_equal Ok), bool_decide_ext. rewrite Forall_cons, Hm. tauto.
      * rewrite (bool_decide_eq_true_2 (b ≠ m)) by done.
        symmetry. apply (f_equal Ok), bool_decide_eq_false_2.
        rewrite Forall_cons, Hm. tauto.
    + rewrite (bool_decide_eq_false_2 (c > 0)) by done.
      apply (f_equal Ok), bool_decide_ext. rewrite Forall_cons, Hm. tauto.
Qed.

(** What the engine decides: a count of the acted-set against the active
    list, then the match of every active player that still has chips. *)
Lemma round_complete_decided :
  is_betting_round_complete g =
  Ok (bool_decide (len (active_players g) ≤ 1 ∨
        (len (active_players g) ≤ Z.of_nat (size (players_acted g)) ∧
         Forall (matched g (current_bet g)) (active_players g)))).
Proof.
  unfold is_betting_round_complete.
  case_bool_decide as Hone.
  { by rewrite bool_decide_eq_true_2 by (by left). }
  case_bool_decide as Hacted.
  { rewrite bool_decide_eq_false_2; [done|]. lia. }
  rewrite all_bets_matched_seated by apply Hseated.
  apply f_equal, bool_decide_ext. split; [|intros [?|[_ ?]]; [lia|done]].
  intros ?. right. split; [lia|done].
Qed.

(** A round with two or more active players never closes while one of
    them has chips and a bet different from [current_bet]. *)
Lemma round_complete_all_matched p :
  is_betting_round_complete g = Ok true → 1 < len (active_players g) →
  p ∈ active_players g → get0 (player_chips g) p > 0 →
  get0 (player_bets g) p = current_bet g.
Proof.
  rewrite round_complete_decided. intros [= H%bool_decide_eq_true] Hn Hp Hc.
  destruct H as [?|[_ Hall]]; [lia|].
  rewrite Forall_forall in Hall. by apply Hall.
Qed.

(** If every active player is in the acted-set and the bets are matched,
    the round is judged complete. *)
Lemma all_acted_and_matched_complete :
  len (active_players g) ≤ 1 ∨
  ((∀ p, p ∈ active_players g → p ∈ players_acted g) ∧
   Forall (matched g (current_bet g)) (active_players g)) →
  is_betting_round_complete g = Ok true.
Proof.
  rewrite round_complete_decided. intros H.
  apply f_equal, bool_decide_eq_true_2.
  destruct H as [?|[Hall ?]]; [by left|right]. split; [|done].
  pose proof (active_nodup _ Hseated) as Hnd.
  assert (list_to_set (active_players g) ⊆ players_acted g) as Hsub.
  { intros p. rewrite elem_of_list_to_set. apply Hall. }
  apply subseteq_size in Hsub. rewrite size_list_to_set in Hsub by done.
  unfold len. lia.
Qed.
End RoundClosure.

Lemma determine_winners_seated get_winners g :
  honest_evaluator get_winners → seated g →
  NoDup (determine_winners get_winners g) ∧
  ∀ p, p ∈ determine_winners get_winners g → p ∈ player_ids g.
Proof.
  intros Hev Hs. unfold determine_winners. case_bool_decide.
  - split; [apply Hs | apply Hs].
  - destruct (Hev _ (active_nodup _ Hs)) as [Hnd Hsub].
    split; [done|]. intros p Hp. by apply Hs, Hsub.
Qed.

(** * No exception reaches the caller *)

Lemma not_raised_bind {A B : Type} (m : outcome A) (k : A → outcome B) :
  not_raised m → (∀ a, m = Ok a → not_raised (k a)) → not_raised (obind m k).
Proof. destruct m; simpl; auto. Qed.

Lemma process_action_total g p a amt :
  seated g → p ∈ player_ids g → ∃ g', process_action g p a amt = Ok g'.
Proof.
  intros Hs Hp.
  destruct (seats_bets _ Hs _ Hp) as [b Hb].
  destruct (seats_chips _ Hs _ Hp) as [c Hc].
  unfold process_action.
  destruct (is_valid_action g p a amt); [|clear a; pose (a := FOLD)];
    unfold getitem; simpl; rewrite Hb; simpl; destruct a; rewrite ?Hc; simpl;
    repeat match goal with
      | |- context [bool_decide ?P] => destruct (bool_decide P)
      | |- context [in_list ?x ?l] => destruct (in_list x l)
      end; eauto.
Qed.

Lemma get_current_player_total g :
  ∃ p, get_current_player g = Ok p ∧ (p ∈ active_players g ∨ p = "").
Proof.
  unfold get_current_player. destruct (active_players g) as [|x l] eqn:E; [eauto|].
  rewrite <-E. assert (0 < len (active_players g)) by (rewrite E; unfold len; simpl; lia).
  unfold pymod. rewrite bool_decide_eq_false_2 by lia. simpl.
  destruct (list_item_in_range (active_players g)
              (current_player_index g `mod` len (active_players g)))
    as (p & -> & Hp); [apply Z.mod_pos_bound; lia|].
  exists p. split; [done|]. left. by eapply list_elem_of_lookup_2.
Qed.

Lemma get_legal_actions_total gs p :
  is_Some (gs_player_chips gs !! p) → is_Some (gs_player_bets gs !! p) →
  ∃ l, get_legal_actions gs p = Ok l.
Proof.
  intros [c Hc] [b Hb]. unfold get_legal_actions.
  destruct (_ || _); [eauto|].
  unfold getitem. rewrite Hc, Hb. simpl. eauto.
Qed.

Lemma betting_loop_not_raised g0 ds g :
  hand_inv g0 g → not_raised (betting_loop ds g).
Proof.
  revert g. induction ds as [|[a amt] ds IH]; intros g Hinv;
    pose proof (inv_seated _ _ Hinv) as Hs; simpl;
    rewrite (round_complete_decided g Hs); simpl;
    (destruct (bool_decide _); [done|]);
    destruct (get_current_player_total g) as (p & Hp & Hin);
    unfold get_game_state; rewrite Hp; simpl;
    (case_bool_decide as Hempty; [done|]);
    (destruct Hin as [Hin|Hnil]; [|done]);
    apply (active_seated _ Hs) in Hin;
    destruct (get_legal_actions_total
                (mkGameState (pot g) (current_bet g) (player_chips g) (player_bets g)
                   (active_players g) p (round_name g) (big_blind g) (big_blind g)
                   (small_blind g)) p) as [la ->];
    try (by apply Hs);
    destruct (getitem_Some (player_chips g) p) as (c & -> & _); try (by apply Hs);
    destruct (getitem_Some (player_bets g) p) as (b & -> & _); try (by apply Hs);
    simpl; [done|].
  destruct (process_action_total g p a amt Hs Hin) as [g' Hg']. rewrite Hg'. simpl.
  apply IH. apply advance_to_next_player_inv. by eapply process_action_inv.
Qed.

Lemma start_betting_round_total g :
  active_players g ≠ [] → ∃ g', _start_betting_round g = Ok g'.
Proof.
  intros Hne. unfold _start_betting_round, pymod. simpl.
  rewrite bool_decide_eq_false_2
    by (unfold len; destruct (active_players g); simpl; [done|lia]).
  simpl. destruct (bool_decide _); eauto.
Qed.

Lemma street_not_raised g0 adv g ds :
  hand_inv g0 g → not_raised (street adv (g, ds)).
Proof.
  intros Hinv. unfold street. case_bool_decide as Hn; [|done].
  unfold _run_betting_round.
  set (g1 := if adv then advance_to_next_round g else g).
  assert (hand_inv g0 g1) as Hinv1
    by (destruct adv; [by apply advance_to_next_round_inv | done]).
  assert (active_players g1 = active_players g) as Hact.
  { destruct adv; [|done]. unfold g1, advance_to_next_round.
    by repeat case_bool_decide. }
  destruct (start_betting_round_total g1) as [g2 Hg2].
  { rewrite Hact. intros E. rewrite E in Hn. unfold len in Hn. simpl in Hn. lia. }
  rewrite Hg2. simpl. eapply betting_loop_not_raised.
  by eapply start_betting_round_inv.
Qed.

Lemma street_inv g0 adv st g' ds' :
  ready g0 → in_hand g0 st.1 → street adv st = Ok (g', ds') → hand_inv g0 g'.
Proof. intros Hr Hin H. eapply in_hand_inv; [done|]. by eapply street_in_hand. Qed.

Lemma start_hand_total g0 :
  ready g0 → 0 ≤ dealer_button g0 < len (player_ids g0) →
  ∃ g, _start_hand g0 = Ok g.
Proof.
  intros Hr Hd. unfold _start_hand, reset_hand.
  rewrite (players_with_chips_total _ _ (ready_chips _ Hr)). cbn [obind].
  set (g1 := set_round_name _ _).
  assert (reset_hand g0 = Ok g1) as Hreset.
  { unfold reset_hand. by rewrite (players_with_chips_total _ _ (ready_chips _ Hr)). }
  pose proof (reset_hand_inv _ _ Hr Hreset) as Hinv.
  assert (∃ g2, post_blinds g1 = Ok g2 ∧ player_ids g2 = player_ids g0 ∧
                dealer_button g2 = dealer_button g0) as (g2 & -> & Hids & Hdb).
  { unfold post_blinds. case_bool_decide as Hn; [eauto|].
    unfold pymod. rewrite bool_decide_eq_false_2 by lia. cbn [obind].
    destruct (list_item_in_range (active_players g1)
                ((dealer_button g1 + 1) `mod` len (active_players g1)))
      as (sbp & -> & Hs); [apply Z.mod_pos_bound; lia|].
    destruct (list_item_in_range (active_players g1)
                ((dealer_button g1 + 2) `mod` len (active_players g1)))
      as (bbp & -> & Hb); [apply Z.mod_pos_bound; lia|].
    cbn [obind].
    apply list_elem_of_lookup_2, (active_seated _ (inv_seated _ _ Hinv)) in Hs, Hb.
    destruct (getitem_Some (player_chips g1) sbp) as (cs & -> & _);
      [by apply (inv_seated _ _ Hinv)|].
    cbn [obind].
    match goal with
    | |- context [getitem ?m bbp] =>
        destruct (getitem_Some m bbp) as (cb & -> & _)
    end.
    { apply insert_is_Some. by apply (inv_seated _ _ Hinv). }
    cbn [obind]. eauto. }
  cbn [obind]. rewrite Hids, Hdb.
  destruct (list_item_in_range _ _ Hd) as (dealer & -> & _). cbn [obind]. eauto.
Qed.

(** What [play_hand] does to the game, the cards left out: for a ready
    game with the button on a seat and an honest evaluator it raises
    nothing, whatever the bots decide. *)
Lemma play_hand_not_raised get_winners ds g0 :
  ready g0 → 0 ≤ dealer_button g0 < len (player_ids g0) →
  honest_evaluator get_winners →
  not_raised (play_hand get_winners ds g0).
Proof.
  intros Hr Hd Hev. unfold play_hand.
  apply not_raised_bind.
  - unfold play_streets.
    destruct (start_hand_total _ Hr Hd) as [g Hg]. rewrite Hg. cbn [obind].
    pose proof (start_hand_in_hand _ _ Hg) as Hin.
    apply not_raised_bind;
      [apply (street_not_raised g0), (in_hand_inv _ _ Hr Hin)|].
    intros [g1 d1] H1. pose proof (street_in_hand g0 _ (g, ds) _ _ H1 Hin) as Hin1.
    apply not_raised_bind;
      [apply (street_not_raised g0), (in_hand_inv _ _ Hr Hin1)|].
    intros [g2 d2] H2. pose proof (street_in_hand g0 _ (g1, d1) _ _ H2 Hin1) as Hin2.
    apply not_raised_bind;
      [apply (street_not_raised g0), (in_hand_inv _ _ Hr Hin2)|].
    intros [g3 d3] H3. pose proof (street_in_hand g0 _ (g2, d2) _ _ H3 Hin2) as Hin3.
    apply (street_not_raised g0), (in_hand_inv _ _ Hr Hin3).
  - intros [g ds'] Hst. simpl.
    pose proof (in_hand_inv _ _ Hr (play_streets_in_hand _ _ _ _ Hst)) as Hinv.
    destruct (determine_winners_seated _ _ Hev (inv_seated _ _ Hinv)) as [_ Hsub].
    unfold settle, _distribute_pot.
    assert (len (player_ids g) ≠ 0) as Hlen by (rewrite (inv_ids _ _ Hinv); lia).
    destruct (determine_winners get_winners g) as [|w ws] eqn:Hws.
    + cbn [obind]. unfold pymod. by rewrite bool_decide_eq_false_2.
    + destruct (pay_winners_total (pot g `div` len (w :: ws)) (w :: ws)
                  (player_chips g)) as [chips ->].
      { intros p Hp. by apply (inv_seated _ _ Hinv), Hsub. }
      cbn [obind]. unfold pymod. simpl. by rewrite bool_decide_eq_false_2.
Qed.

(** * Reseeding the acted-set *)

(** A raise the stack more than covers: the bet level becomes the raise and
    the acted-set is the raiser alone. *)
Lemma full_raise_reseeds g p amt c b :
  is_valid_action g p RAISE amt = true →
  player_chips g !! p = Some c → player_bets g !! p = Some b →
  amt - b < c →
  ∃ g', process_action g p RAISE amt = Ok g' ∧
        current_bet g' = amt ∧ players_acted g' = {[p]}.
Proof.
  intros Hv Hc Hb Hlt. unfold process_action. rewrite Hv.
  unfold getitem; simpl. rewrite Hb, Hc; simpl.
  rewrite bool_decide_eq_false_2 by lia.
  eexists; split; [reflexivity|]. simpl. split; [lia|done].
Qed.

(** An all-in above the bet level does the same. *)
Lemma raising_all_in_reseeds g p c b :
  is_valid_action g p ALL_IN 0 = true →
  player_chips g !! p = Some c → player_bets g !! p = Some b →
  current_bet g < b + c →
  ∃ g', process_action g p ALL_IN 0 = Ok g' ∧
        current_bet g' = b + c ∧ players_acted g' = {[p]}.
Proof.
  intros Hv Hc Hb Hlt. unfold process_action. rewrite Hv.
  unfold getitem; simpl. rewrite Hb, Hc; simpl.
  rewrite bool_decide_eq_true_2 by lia.
  eexists; split; [reflexivity|]. by simpl.
Qed.

(** A raise for exactly the whole stack takes the all-in branch of RAISE:
    the bet level rises and the acted-set keeps its members. *)
Lemma all_in_raise_keeps_acted_set g p amt c b :
  is_valid_action g p RAISE amt = true →
  player_chips g !! p = Some c → player_bets g !! p = Some b →
  c ≤ amt - b →
  ∃ g', process_action g p RAISE amt = Ok g' ∧
        current_bet g' = Z.max (current_bet g) (b + c) ∧
        players_acted g' = {[p]} ∪ players_acted g.
Proof.
  intros Hv Hc Hb Hle. unfold process_action. rewrite Hv.
  unfold getitem; simpl. rewrite Hb, Hc; simpl.
  rewrite bool_decide_eq_true_2 by lia.
  eexists; split; [reflexivity|]. by simpl.
Qed.

(** * The three-player limp *)

(** C7, as the engine plays it.  Three players with 1000 chips, blinds 10
    and 20, button on P0: P1 posts 10, P2 posts 20, [current_bet] is 20.
    The first to act is P1, who calls 10 more (pot 40); P2 checks (pot 40);
    P0 calls 20 (pot 60); only then is the round complete, with pot 60 and
    every bet at 20. *)
Theorem three_player_limp :
  _start_hand three = Ok three_blinds ∧
  player_bets three_blinds !! "P1" = Some 10 ∧
  player_bets three_blinds !! "P2" = Some 20 ∧
  pot three_blinds = 30 ∧ current_bet three_blinds = 20 ∧
  _start_betting_round three_blinds = Ok limp0 ∧
  is_betting_round_complete limp0 = Ok false ∧
  get_current_player limp0 = Ok "P1" ∧
  (do g <- process_action limp0 "P1" CALL 0; Ok (advance_to_next_player g)) = Ok limp1 ∧
  player_bets limp1 !! "P1" = Some 20 ∧ pot limp1 = 40 ∧
  is_betting_round_complete limp1 = Ok false ∧
  get_current_player limp1 = Ok "P2" ∧
  (do g <- process_action limp1 "P2" CHECK 0; Ok (advance_to_next_player g)) = Ok limp2 ∧
  pot limp2 = 40 ∧
  is_betting_round_complete limp2 = Ok false ∧
  get_current_player limp2 = Ok "P0" ∧
  (do g <- process_action limp2 "P0" CALL 0; Ok (advance_to_next_player g)) = Ok limp3 ∧
  is_betting_round_complete limp3 = Ok true ∧
  pot limp3 = 60 ∧
  Forall (λ p, player_bets limp3 !! p = Some 20) (player_ids limp3) ∧
  _run_betting_round [(CALL, 0); (CHECK, 0); (CALL, 0)] three_blinds = Ok (limp3, []).
Proof.
  repeat split; try (vm_compute; reflexivity).
  repeat constructor.
Qed.

(** C7, as the specification orders it: the first decision of the hand is
    not asked of P0, and the pot after the first call is 40, not 50. *)
Lemma three_player_limp_order_differs :
  (do g <- _start_hand three;
   do g <- _start_betting_round g;
   get_current_player g) ≠ Ok "P0" ∧
  (do g <- _start_hand three;
   do r <- _run_betting_round [(CALL, 0); (CHECK, 0); (CALL, 0)] g;
   Ok (pot r.1)) = Ok 60 ∧
  (do g <- _start_hand three;
   do g <- _start_betting_round g;
   do p <- get_current_player g;
   do g <- process_action g p CALL 0;
   Ok (p, pot g)) = Ok ("P1", 40).
Proof. repeat split; vm_compute; congruence. Qed.

(** * Two hands on which the acted-set misleads *)

(** C3, on the hand of [three] where P1 folds and P0 calls.  The preflop
    round is judged complete with P0 and P2 active although P2, the big
    blind, is not in the acted-set and was never asked: the fold left P1 in
    the acted-set, so its size reaches the number of active players. *)
Theorem round_closes_before_big_blind_acts :
  _start_hand three = Ok three_blinds ∧
  _run_betting_round [(FOLD, 0); (CALL, 0)] three_blinds = Ok (fold_call, []) ∧
  is_betting_round_complete fold_call = Ok true ∧
  active_players fold_call = ["P0"; "P2"] ∧
  ("P2" ∉ players_acted fold_call) ∧
  players_acted fold_call = {["P0"; "P1"]} ∧
  player_chips fold_call !! "P2" = Some 980.
Proof.
  repeat split; try (vm_compute; reflexivity).
  apply (bool_decide_unpack _). vm_compute. reflexivity.
Qed.

(** C4, on the hand of [three] where P1 calls and P2 raises to 1000.  The
    raise is valid and takes the all-in branch of RAISE; [current_bet] goes
    from 20 to 1000 and the acted-set still holds P1. *)
Theorem all_in_raise_does_not_reseed :
  (do g <- process_action limp0 "P1" CALL 0; Ok (advance_to_next_player g)) = Ok limp1 ∧
  get_current_player limp1 = Ok "P2" ∧
  is_valid_action limp1 "P2" RAISE 1000 = true ∧
  process_action limp1 "P2" RAISE 1000 = Ok shove ∧
  current_bet limp1 = 20 ∧ current_bet shove = 1000 ∧
  player_chips shove !! "P2" = Some 0 ∧
  players_acted shove = {["P1"; "P2"]} ∧
  players_acted shove ≠ {["P2"]}.
Proof.
  repeat split; try (vm_compute; reflexivity).
  apply (bool_decide_unpack _). vm_compute. reflexivity.
Qed.

(** * Who may act *)

(** [process_action] never reads the turn cursor and never writes it. *)
Lemma process_action_cursor i g p a amt :
  process_action (set_current_player_index i g) p a amt
  = do g' <- process_action g p a amt; Ok (set_current_player_index i g').
Proof.
  unfold process_action.
  change (is_valid_action (set_current_player_index i g) p a amt)
    with (is_valid_action g p a amt).
  destruct (is_valid_action g p a amt); [destruct a|]; simpl;
    destruct (getitem (player_bets g) p); simpl; try done;
    try (destruct (getitem (player_chips g) p); simpl; try done);
    repeat match goal with
      | |- context [bool_decide ?P] => destruct (bool_decide P)
      | |- context [in_list ?x ?l] => destruct (in_list x l)
      end; done.
Qed.

(** C6, for the engine and for the helper of [bot_api].  The engine accepts
    a request only from a player that is active and not folded, and does not
    look at the turn cursor: wherever the cursor stands, the request is
    validated the same and [process_action] does the same to the game, so a
    request of an active player who is not the current player is carried out
    as it would be on that player's turn.  [validate_action] accepts only the
    current player of the view it is given, who must be active.  A request
    of a player that is not active or already folded is carried out as FOLD
    with amount 0: no chip moves and the call returns normally. *)
Theorem validation_by_membership g p a amt :
  (is_valid_action g p a amt = true →
     p ∈ active_players g ∧ (p ∉ folded_players g)) ∧
  (∀ i, is_valid_action (set_current_player_index i g) p a amt
        = is_valid_action g p a amt) ∧
  (∀ i, process_action (set_current_player_index i g) p a amt
        = do g' <- process_action g p a amt;
          Ok (set_current_player_index i g')) ∧
  (∀ gs, validate_action a amt gs p = Ok true →
     p ∈ gs_active_players gs ∧ p = gs_current_player gs) ∧
  (p ∉ active_players g ∨ p ∈ folded_players g →
   is_Some (player_bets g !! p) →
   is_valid_action g p a amt = false ∧
   ∃ g', process_action g p a amt = Ok g' ∧
         process_action g p FOLD 0 = Ok g' ∧
         p ∈ folded_players g' ∧
         pot g' = pot g ∧ player_chips g' = player_chips g ∧
         player_bets g' = player_bets g).
Proof.
  split; [apply is_valid_action_active|]. split; [done|].
  split; [intros i; apply process_action_cursor|]. split.
  - intros gs. unfold validate_action.
    destruct (in_list p (gs_active_players gs)) eqn:Hin; simpl; [|done].
    case_bool_decide as Hcur; [done|]. intros _.
    split; [by apply in_list_true|]. by destruct (decide (p = gs_current_player gs)).
  - intros Hout [b Hb].
    assert (is_valid_action g p a amt = false) as Hv.
    { unfold is_valid_action.
      destruct Hout as [Hn%in_list_false|Hf%in_list_true].
      - by rewrite Hn.
      - rewrite Hf. by rewrite orb_true_r. }
    split; [done|].
    rewrite (process_action_invalid _ _ _ _ Hv). unfold process_action.
    assert (is_valid_action g p FOLD 0 = false) as ->.
    { unfold is_valid_action.
      destruct Hout as [Hn%in_list_false|Hf%in_list_true].
      - by rewrite Hn.
      - rewrite Hf. by rewrite orb_true_r. }
    unfold getitem; simpl. rewrite Hb; simpl.
    destruct (in_list p (active_players g));
      (eexists; split; [reflexivity|]; split; [reflexivity|]; simpl;
       split; [|done]; rewrite elem_of_app, list_elem_of_singleton; by right).
Qed.

(** C6, as stated, fails in the engine: with the cursor on P1, a CALL of
    P0, who is active, passes validation and is carried out as a call. *)
Lemma out_of_turn_action_is_applied :
  get_current_player limp0 = Ok "P1" ∧
  "P0" ∈ active_players limp0 ∧
  is_valid_action limp0 "P0" CALL 0 = true ∧
  ∃ g', process_action limp0 "P0" CALL 0 = Ok g' ∧
        (process_action limp0 "P0" FOLD 0 ≠ Ok g') ∧
        "P0" ∈ active_players g' ∧ folded_players g' = [] ∧
        player_bets g' !! "P0" = Some 20 ∧ pot g' = 50.
Proof.
  split; [vm_compute; reflexivity|].
  split; [apply (bool_decide_unpack _); vm_compute; reflexivity|].
  split; [vm_compute; reflexivity|].
  exists (set_players_acted {["P0"]} (set_pot 50
            (set_player_chips (<["P0" := 980]> (player_chips limp0))
            (set_player_bets (<["P0" := 20]> (player_bets limp0)) limp0)))).
  split; [vm_compute; reflexivity|].
  split; [vm_compute; congruence|].
  split; [apply (bool_decide_unpack _); vm_compute; reflexivity|].
  repeat split; vm_compute; reflexivity.
Qed.

(** * A whole hand, and what the stacks hold after it *)

(** C1, as the engine keeps the books.  The quantity every step between
    [reset_hand] and the payout leaves unchanged is [pot + Σ chips] (the bets
    of the round are inside the pot).  The payout gives each of the [k]
    winners [pot // k], so after [play_hand] the stacks hold what they held
    before it less the remainder [pot mod k]; with no winner nothing is
    paid and the pot stays where it is. *)
Theorem chips_after_play_hand g0 :
  ready g0 →
  (∀ g g', in_hand g0 g → hand_step g g' →
     pot g' + total_chips g' = pot g + total_chips g) ∧
  (∀ get_winners ds g1,
     honest_evaluator get_winners →
     play_hand get_winners ds g0 = Ok g1 →
     ∃ g ds', play_streets ds g0 = Ok (g, ds') ∧
       pot g + total_chips g = total_chips g0 ∧
       let ws := determine_winners get_winners g in
       (ws ≠ [] →
          pot g1 = 0 ∧ total_chips g1 = total_chips g0 - pot g `mod` len ws) ∧
       (ws = [] →
          pot g1 = pot g ∧ total_chips g1 = total_chips g0 - pot g)).
Proof.
  intros Hr. split.
  - intros g g' Hin Hstep.
    pose proof (in_hand_inv _ _ Hr Hin) as Hinv.
    pose proof (hand_step_inv _ _ _ Hinv Hstep) as Hinv'.
    rewrite (inv_conserved _ _ Hinv), (inv_conserved _ _ Hinv'). done.
  - intros get_winners ds g1 Hev H. unfold play_hand in H.
    ok_inv H as st Hst. destruct st as [g ds']. simpl in H.
    exists g, ds'. split; [done|].
    pose proof (in_hand_inv _ _ Hr (play_streets_in_hand _ _ _ _ Hst)) as Hinv.
    pose proof (inv_conserved _ _ Hinv) as Hcons.
    split; [done|].
    destruct (determine_winners_seated _ _ Hev (inv_seated _ _ Hinv)) as [Hnd Hsub].
    unfold settle in H. ok_inv H as g2 Hg2. ok_inv H as d Hd. simplify_eq.
    simpl. unfold total_chips. simpl.
    unfold _distribute_pot in Hg2.
    destruct (determine_winners get_winners g) as [|w ws] eqn:Hws.
    + simplify_eq. split; [done|]. intros _. split; [done|].
      unfold total_chips in Hcons. lia.
    + ok_inv Hg2 as chips Hpay. simplify_eq. simpl.
      split; [|done]. intros _. split; [done|].
      rewrite (pay_winners_sum _ _ _ _ _ (seats_nodup _ (inv_seated _ _ Hinv))
                 Hnd Hsub Hpay).
      unfold total_chips in Hcons.
      rewrite (Z.mod_eq (pot g) (len (w :: ws))) by (unfold len; simpl; lia).
      lia.
Qed.

Lemma id_honest : honest_evaluator id.
Proof. intros l Hl. by split. Qed.

Lemma odd_streets : play_streets odd_decisions odd = Ok (odd_river, []).
Proof. vm_compute. reflexivity. Qed.

Lemma odd_hand : play_hand id odd_decisions odd = Ok odd_final.
Proof. vm_compute. reflexivity. Qed.

(** C1, as stated, fails twice.  Posting the blinds raises
    [pot + Σ chips + Σ bet_this_round] from 3000 to 3030, and the hand
    [odd] ends with 2999 chips in the stacks of players who held 3000. *)
Lemma chip_sum_with_bets_not_conserved :
  pot three + total_chips three + total_bets three = 3000 ∧
  _start_hand three = Ok three_blinds ∧
  pot three_blinds + total_chips three_blinds + total_bets three_blinds = 3030 ∧
  total_chips odd = 3000 ∧
  play_hand id odd_decisions odd = Ok odd_final ∧
  total_chips odd_final = 2999.
Proof. repeat split; vm_compute; reflexivity. Qed.

(** * The theorems at concrete hands *)

Lemma three_ready : ready three.
Proof. apply ready_b_true. vm_compute. reflexivity. Qed.

Lemma odd_ready : ready odd.
Proof. apply ready_b_true. vm_compute. reflexivity. Qed.

Lemma limp3_in_hand : in_hand three limp3.
Proof.
  apply (run_betting_round_in_hand three [(CALL, 0); (CHECK, 0); (CALL, 0)]
           three_blinds limp3 []).
  - vm_compute. reflexivity.
  - apply start_hand_in_hand. vm_compute. reflexivity.
Qed.

(** The limp keeps [pot + Σ chips] at 3000 with the 60 chips of bets inside
    the pot. *)
Lemma pot_plus_chips_conserved_witness :
  ready three ∧ in_hand three limp3 ∧
  pot limp3 + total_chips limp3 = total_chips three ∧
  total_bets limp3 ≤ pot limp3.
Proof.
  split; [exact three_ready|]. split; [exact limp3_in_hand|].
  apply (pot_plus_chips_conserved three limp3);
    [exact three_ready | exact limp3_in_hand].
Defined.

(** P1, who folded the small blind of 5, keeps 995 chips after the payout. *)
Lemma chips_never_negative_witness :
  ready odd ∧ hand_state odd odd_final ∧
  player_chips odd_final !! "P1" = Some 995 ∧ 0 ≤ 995.
Proof.
  assert (hand_state odd odd_final) as Hst.
  { apply (play_hand_hand_state id odd_decisions). exact odd_hand. }
  split; [exact odd_ready|]. split; [exact Hst|].
  split; [vm_compute; reflexivity|].
  apply (chips_never_negative odd odd_final "P1" 995);
    [exact odd_ready | exact Hst | vm_compute; reflexivity].
Defined.

(** P1 checks while 10 short of the bet: the check is refused and P1 folds. *)
Lemma invalid_action_is_fold_witness :
  is_valid_action limp0 "P1" CHECK 0 = false ∧
  ∃ g', process_action limp0 "P1" CHECK 0 = Ok g' ∧
        process_action limp0 "P1" FOLD 0 = Ok g' ∧
        "P1" ∈ folded_players g' ∧ ("P1" ∉ active_players g') ∧
        (∀ q, q ≠ "P1" → (q ∈ active_players g' ↔ q ∈ active_players limp0)) ∧
        pot g' = pot limp0 ∧ player_chips g' = player_chips limp0 ∧
        player_bets g' = player_bets limp0 ∧ current_bet g' = current_bet limp0.
Proof.
  split; [vm_compute; reflexivity|].
  apply (invalid_action_is_fold limp0 "P1" CHECK 0).
  - apply (bool_decide_unpack _). vm_compute. reflexivity.
  - apply (bool_decide_unpack _). vm_compute. reflexivity.
  - vm_compute. reflexivity.
Defined.


(** The active list, not the seat list, is what the blinds wrap over: in
    [bust_seat] the active list is A, C, D, the small blind is A and the big
    blind is C. *)
Example blinds_with_a_bust_seat :
  ∃ g, _start_hand bust_seat = Ok g ∧
       active_players g = ["A"; "C"; "D"] ∧
       player_bets g !! "A" = Some 10 ∧ player_bets g !! "C" = Some 20 ∧
       player_bets g !! "D" = Some 0 ∧ pot g = 30.
Proof.
  exists (set_pot 30 (set_current_bet 20
           (set_active_players ["A"; "C"; "D"]
           (set_player_chips (<["A" := 90]> (<["C" := 80]> (player_chips bust_seat)))
           (set_player_bets (<["A" := 10]> (<["C" := 20]> (player_bets bust_seat)))
              bust_seat))))).
  repeat split; vm_compute; reflexivity.
Qed.

Lemma distribute_pot_even_split_witness :
  ∃ g', _distribute_pot tie ["P0"; "P1"; "P2"] = Ok g' ∧
        player_chips g' !! "P0" = Some 1033 ∧
        player_chips g' !! "P1" = Some 1033 ∧
        player_chips g' !! "P2" = Some 1033 ∧
        pot g' = 0 ∧
        total_chips g' = total_chips tie + 100 - 1.
Proof.
  destruct (distribute_pot_even_split tie ["P0"; "P1"; "P2"])
    as (g' & Hd & Hw & _ & Hp & Ht).
  - discriminate.
  - apply (bool_decide_unpack _). vm_compute. reflexivity.
  - apply three_ready.
  - intros p Hp. split; [exact Hp|]. apply (ready_chips _ three_ready). exact Hp.
  - exists g'. split; [exact Hd|].
    split; [apply (Hw "P0" 1000);
            [apply (bool_decide_unpack _); vm_compute; reflexivity
            | vm_compute; reflexivity]|].
    split; [apply (Hw "P1" 1000);
            [apply (bool_decide_unpack _); vm_compute; reflexivity
            | vm_compute; reflexivity]|].
    split; [apply (Hw "P2" 1000);
            [apply (bool_decide_unpack _); vm_compute; reflexivity
            | vm_compute; reflexivity]|].
    split; [exact Hp | exact Ht].
Defined.

(** P1 has folded; a later CALL in P1's name is a fold without chips. *)
Lemma validation_by_membership_witness :
  "P1" ∈ folded_players fold_call ∧
  is_valid_action fold_call "P1" CALL 0 = false ∧
  ∃ g', process_action fold_call "P1" CALL 0 = Ok g' ∧
        process_action fold_call "P1" FOLD 0 = Ok g' ∧
        "P1" ∈ folded_players g' ∧
        pot g' = pot fold_call ∧ player_chips g' = player_chips fold_call ∧
        player_bets g' = player_bets fold_call.
Proof.
  assert ("P1" ∈ folded_players fold_call) as Hf
    by (apply (bool_decide_unpack _); vm_compute; reflexivity).
  split; [exact Hf|].
  destruct (validation_by_membership fold_call "P1" CALL 0) as (_ & _ & _ & _ & H).
  apply H.
  - right. exact Hf.
  - apply (bool_decide_unpack _). vm_compute. reflexivity.
Defined.

(** The hand [odd]: 45 in the pot, two winners, one chip short afterwards. *)
Lemma chips_after_play_hand_witness :
  ready odd ∧ honest_evaluator id ∧
  play_hand id odd_decisions odd = Ok odd_final ∧
  ∃ g ds', play_streets odd_decisions odd = Ok (g, ds') ∧
    pot g + total_chips g = total_chips odd ∧
    let ws := determine_winners id g in
    (ws ≠ [] →
       pot odd_final = 0 ∧
       total_chips odd_final = total_chips odd - pot g `mod` len ws) ∧
    (ws = [] →
       pot odd_final = pot g ∧ total_chips odd_final = total_chips odd - pot g).
Proof.
  split; [exact odd_ready|]. split; [exact id_honest|]. split; [exact odd_hand|].
  destruct (chips_after_play_hand odd odd_ready) as [_ H].
  exact (H id odd_decisions odd_final id_honest odd_hand).
Defined.

(** * More on [process_action] *)

(** The branches of [process_action] on a call that returned. *)
Ltac action_branches H :=
  unfold process_action in H;
  match type of H with
  | context [is_valid_action ?g ?p ?a ?amt] =>
      let Hv := fresh "Hv" in
      destruct (is_valid_action g p a amt) eqn:Hv;
      [tryif is_var a then destruct a else idtac | clear Hv]
  end;
  let b := fresh "b" in
  let Hb := fresh "Hb" in
  ok_inv H as b Hb; apply getitem_Ok in Hb; simpl in Hb;
  repeat match type of H with
    | obind _ _ = Ok _ =>
        let c := fresh "c" in
        let Hc := fresh "Hc" in
        ok_inv H as c Hc; apply getitem_Ok in Hc; simpl in Hc
    | context [bool_decide ?P] => destruct (decide P);
        [rewrite (bool_decide_eq_true_2 P) in H by assumption
        |rewrite (bool_decide_eq_false_2 P) in H by assumption]
    | context [in_list ?x ?l] =>
        let Hin := fresh "Hin" in destruct (in_list x l) eqn:Hin
    end;
  simplify_eq; simpl in *.

(** X1.  An action changes the record of the acting player only: the stack
    and the bet of every other player stay, nobody else leaves the active
    list or joins the folded list, nobody joins the active list, the seats,
    the blinds, the button, the street and the cursor are untouched, and the
    actor is in the acted-set afterwards. *)
Theorem action_touches_only_the_actor g p a amt g' :
  process_action g p a amt = Ok g' →
  (∀ q, q ≠ p →
     player_chips g' !! q = player_chips g !! q ∧
     player_bets g' !! q = player_bets g !! q ∧
     (q ∈ active_players g' ↔ q ∈ active_players g) ∧
     (q ∈ folded_players g' ↔ q ∈ folded_players g)) ∧
  (p ∈ active_players g' → p ∈ active_players g) ∧
  p ∈ players_acted g' ∧
  player_ids g' = player_ids g ∧
  small_blind g' = small_blind g ∧ big_blind g' = big_blind g ∧
  dealer_button g' = dealer_button g ∧ round_name g' = round_name g ∧
  current_player_index g' = current_player_index g.
Proof.
  intros H. action_branches H; simpl;
    (split; [intros q Hq; rewrite ?lookup_insert_ne by done;
             repeat split; auto;
             rewrite ?elem_of_app, ?list_elem_of_singleton;
             try (intros [?|?]; [done|congruence]);
             try (by left);
             try (by apply list_remove_first_subseteq);
             try (by apply list_remove_first_other)
            |]);
    (split; [first [done | by apply list_remove_first_subseteq]|]);
    (split; [set_solver|]); done.
Qed.

(** X2.  The only exception [process_action] raises is [KeyError], and it
    raises it exactly when the player has no entry in [player_bets], or has
    none in [player_chips] while the request is a valid CALL, RAISE or
    ALL_IN.  A request in the name of an unknown player is not folded. *)
Theorem process_action_key_errors g p a amt :
  (process_action g p a amt = Raised KeyError ↔
     player_bets g !! p = None ∨
     (player_chips g !! p = None ∧ is_valid_action g p a amt = true ∧
      a ≠ FOLD ∧ a ≠ CHECK)) ∧
  (∀ e, process_action g p a amt = Raised e → e = KeyError) ∧
  process_action g p a amt ≠ Starved.
Proof.
  unfold process_action, getitem. simpl.
  destruct (player_bets g !! p) as [b|] eqn:Hb; simpl.
  2:{ destruct (is_valid_action g p a amt); repeat split; auto; try congruence. }
  destruct (is_valid_action g p a amt) eqn:Hv.
  - destruct a; simpl; destruct (player_chips g !! p) as [c|] eqn:Hc; simpl;
      repeat match goal with
        | |- context [bool_decide ?P] => destruct (bool_decide P)
        | |- context [in_list ?x ?l] => destruct (in_list x l)
        end;
      (split; [split; [try discriminate; intros _; right; by repeat split
                      |intros [?|(? & ? & ? & ?)]; congruence]|]);
      split; congruence.
  - destruct (in_list p (active_players g));
      (split; [split; [discriminate|intros [?|(? & ? & ? & ?)]; congruence]|]);
      split; congruence.
Qed.

(** X3.  A RAISE that passes validation always lands on the requested
    total, in either branch: the raiser's bet and [current_bet] both become
    [amount], which is at least the old [current_bet] plus the big blind, and
    exactly [amount - bet] chips go from the stack to the pot.  (The all-in
    branch is entered by a valid raise only when that is the whole stack.) *)
Theorem valid_raise_lands_on_amount g p amt c b :
  0 ≤ big_blind g →
  is_valid_action g p RAISE amt = true →
  player_chips g !! p = Some c → player_bets g !! p = Some b →
  ∃ g', process_action g p RAISE amt = Ok g' ∧
        current_bet g + big_blind g ≤ amt ∧
        current_bet g' = amt ∧
        player_bets g' !! p = Some amt ∧
        player_chips g' !! p = Some (c - (amt - b)) ∧
        pot g' = pot g + (amt - b) ∧
        p ∈ active_players g'.
Proof.
  intros Hbb Hv Hc Hb.
  pose proof (is_valid_action_active _ _ _ _ Hv) as [Hact Hnf].
  assert (current_bet g + big_blind g ≤ amt ∧ amt - b ≤ c) as [Hmin Hcov].
  { unfold is_valid_action in Hv.
    rewrite (proj2 (in_list_true _ _) Hact), (proj2 (in_list_false _ _) Hnf) in Hv.
    simpl in Hv. rewrite (get0_Some _ _ _ Hb), (get0_Some _ _ _ Hc) in Hv.
    apply andb_true_iff in Hv as [H1%bool_decide_eq_true H2%bool_decide_eq_true].
    lia. }
  unfold process_action. rewrite Hv. unfold getitem. simpl. rewrite Hb, Hc. simpl.
  destruct (decide (c ≤ amt - b)) as [Hle|Hgt].
  - rewrite bool_decide_eq_true_2 by done.
    eexists. split; [reflexivity|]. simpl.
    rewrite !lookup_insert_eq.
    assert (c = amt - b) as -> by lia.
    repeat split; try done; try lia.
    + f_equal. lia.
    + f_equal. lia.
  - rewrite bool_decide_eq_false_2 by done.
    eexists. split; [reflexivity|]. simpl.
    rewrite !lookup_insert_eq.
    repeat split; try done; try lia.
    f_equal. lia.
Qed.

(** X4.  With a big blind that is not negative, no action lowers
    [current_bet], and only a valid RAISE or ALL_IN changes it. *)
Theorem current_bet_never_drops g p a amt g' :
  0 ≤ big_blind g →
  process_action g p a amt = Ok g' →
  current_bet g ≤ current_bet g' ∧
  (current_bet g ≠ current_bet g' →
     is_valid_action g p a amt = true ∧ (a = RAISE ∨ a = ALL_IN)).
Proof.
  intros Hbb H.
  destruct (is_valid_action g p a amt) eqn:Hv'.
  2:{ rewrite (process_action_invalid _ _ _ _ Hv') in H.
      action_branches H; simpl; split; (lia || done). }
  pose proof (is_valid_action_active _ _ _ _ Hv') as [Hact Hnf].
  pose proof Hv' as Hvalid. unfold is_valid_action in Hv'.
  rewrite (proj2 (in_list_true _ _) Hact), (proj2 (in_list_false _ _) Hnf) in Hv'.
  simpl in Hv'.
  action_branches H; simpl; try (split; (lia || done)); try congruence.
  - rewrite (get0_Some _ _ _ Hb) in Hv'.
    apply andb_true_iff in Hv' as [H1%bool_decide_eq_true _].
    split; [lia | intros _; by split; [|left]].
  - rewrite (get0_Some _ _ _ Hb) in Hv'.
    apply andb_true_iff in Hv' as [H1%bool_decide_eq_true _].
    split; [lia | intros _; by split; [|left]].
  - split; [lia | intros _; by split; [|right]].
Qed.

(** X5.  A CALL of a player who can cover it matches the bet: the stack
    gives what [calculate_bet_amount] says, the bet becomes [current_bet],
    nothing is left to call, and [current_bet] and the acted-set of the
    others stay. *)
Theorem covered_call_matches g p c b :
  is_valid_action g p CALL 0 = true →
  player_chips g !! p = Some c → player_bets g !! p = Some b →
  calculate_bet_amount (current_bet g) b ≤ c →
  ∃ g', process_action g p CALL 0 = Ok g' ∧
        player_bets g' !! p = Some (current_bet g') ∧
        current_bet g' = current_bet g ∧
        player_chips g' !! p = Some (c - calculate_bet_amount (current_bet g) b) ∧
        pot g' = pot g + calculate_bet_amount (current_bet g) b ∧
        calculate_bet_amount (current_bet g') (current_bet g') = 0 ∧
        players_acted g' = {[p]} ∪ players_acted g.
Proof.
  intros Hv Hc Hb Hcov.
  pose proof (is_valid_action_active _ _ _ _ Hv) as [Hact Hnf].
  assert (current_bet g - b > 0) as Hpos.
  { unfold is_valid_action in Hv.
    rewrite (proj2 (in_list_true _ _) Hact), (proj2 (in_list_false _ _) Hnf) in Hv.
    simpl in Hv. rewrite (get0_Some _ _ _ Hb) in Hv.
    by apply bool_decide_eq_true in Hv. }
  unfold calculate_bet_amount in *.
  unfold process_action. rewrite Hv. unfold getitem. simpl. rewrite Hb, Hc. simpl.
  eexists. split; [reflexivity|]. simpl. rewrite !lookup_insert_eq.
  repeat split; try done.
  - f_equal. lia.
  - f_equal. lia.
  - lia.
  - lia.
Qed.

(** * What the steps of a hand leave alone *)

Lemma post_blinds_frame g g' :
  post_blinds g = Ok g' →
  player_ids g' = player_ids g ∧ small_blind g' = small_blind g ∧
  big_blind g' = big_blind g ∧ dealer_button g' = dealer_button g ∧
  round_name g' = round_name g ∧ current_bet g' = current_bet g ∧
  active_players g' = active_players g ∧ folded_players g' = folded_players g.
Proof.
  intros H. apply post_blinds_Ok in H as [[_ ->]|(_ & ? & ? & ? & ? & _ & _ & _ & _ & ->)];
    by repeat split.
Qed.

Lemma start_betting_round_frame g g' :
  _start_betting_round g = Ok g' →
  player_ids g' = player_ids g ∧ small_blind g' = small_blind g ∧
  big_blind g' = big_blind g ∧ dealer_button g' = dealer_button g ∧
  round_name g' = round_name g ∧
  active_players g' = active_players g ∧ folded_players g' = folded_players g ∧
  player_chips g' = player_chips g ∧ pot g' = pot g ∧ players_acted g' = ∅.
Proof.
  unfold _start_betting_round. intros H. ok_inv H as i Hi. simpl in H.
  case_bool_decide; simplify_eq; simpl; repeat (split; [reflexivity|]); reflexivity.
Qed.

Lemma advance_to_next_player_frame g :
  player_ids (advance_to_next_player g) = player_ids g ∧
  small_blind (advance_to_next_player g) = small_blind g ∧
  big_blind (advance_to_next_player g) = big_blind g ∧
  dealer_button (advance_to_next_player g) = dealer_button g ∧
  round_name (advance_to_next_player g) = round_name g ∧
  current_bet (advance_to_next_player g) = current_bet g ∧
  active_players (advance_to_next_player g) = active_players g ∧
  folded_players (advance_to_next_player g) = folded_players g ∧
  player_chips (advance_to_next_player g) = player_chips g ∧
  player_bets (advance_to_next_player g) = player_bets g ∧
  pot (advance_to_next_player g) = pot g ∧
  players_acted (advance_to_next_player g) = players_acted g.
Proof.
  unfold advance_to_next_player.
  destruct (active_players g) eqn:E; simpl; rewrite ?E; by repeat split.
Qed.

Lemma advance_to_next_round_frame g :
  player_ids (advance_to_next_round g) = player_ids g ∧
  small_blind (advance_to_next_round g) = small_blind g ∧
  big_blind (advance_to_next_round g) = big_blind g ∧
  dealer_button (advance_to_next_round g) = dealer_button g ∧
  current_bet (advance_to_next_round g) = current_bet g ∧
  active_players (advance_to_next_round g) = active_players g ∧
  folded_players (advance_to_next_round g) = folded_players g ∧
  player_chips (advance_to_next_round g) = player_chips g ∧
  player_bets (advance_to_next_round g) = player_bets g ∧
  pot (advance_to_next_round g) = pot g.
Proof. unfold advance_to_next_round. by repeat case_bool_decide. Qed.

(** The two lists after an action: as before, or the actor folded. *)
Lemma process_action_lists g p a amt g' :
  process_action g p a amt = Ok g' →
  (active_players g' = active_players g ∧ folded_players g' = folded_players g) ∨
  (folded_players g' = folded_players g ++ [p] ∧
   active_players g' = list_remove_first p (active_players g)).
Proof.
  intros H. action_branches H; auto.
  all: right; split; [done|].
  all: apply in_list_false in Hin.
  all: clear -Hin; induction (active_players g) as [|x l IH]; simpl; [done|].
  all: apply not_elem_of_cons in Hin as [Hne Hin];
    rewrite bool_decide_eq_false_2 by congruence; by rewrite <-IH.
Qed.

Lemma betting_step_hand_step g g' : betting_step g g' → hand_step g g'.
Proof. destruct 1; eauto using hand_step. Qed.

Lemma in_betting_in_hand g0 g : in_betting g0 g → in_hand g0 g.
Proof.
  induction 1 as [g H|g g' _ IH Hs].
  - by apply start_hand_in_hand.
  - eapply in_hand_step; [done|]. by apply betting_step_hand_step.
Qed.

(** The seats, the blinds and the button are those the hand started with. *)
Lemma in_hand_config g0 g :
  in_hand g0 g →
  player_ids g = player_ids g0 ∧ small_blind g = small_blind g0 ∧
  big_blind g = big_blind g0 ∧ dealer_button g = dealer_button g0.
Proof.
  induction 1 as [g H|g g' _ (I1 & I2 & I3 & I4) Hs].
  - apply reset_hand_Ok in H as ->. by repeat split.
  - destruct Hs as [g g' H|g g' H|g p a amt g' H|g|g].
    + apply post_blinds_frame in H as (-> & -> & -> & -> & _). by repeat split.
    + apply start_betting_round_frame in H as (-> & -> & -> & -> & _). by repeat split.
    + apply process_action_frame in H as (-> & -> & -> & -> & _). by repeat split.
    + pose proof (advance_to_next_player_frame g) as (-> & -> & -> & -> & _).
      by repeat split.
    + pose proof (advance_to_next_round_frame g) as (-> & -> & -> & -> & _).
      by repeat split.
Qed.

(** Nobody is in both lists and nobody who was dealt in is in neither. *)
Lemma in_hand_lists g0 g :
  ready g0 → in_hand g0 g →
  (∀ p, p ∈ active_players g → p ∉ folded_players g) ∧
  (∀ p, p ∈ player_ids g0 → get0 (player_chips g0) p > 0 →
        p ∈ active_players g ∨ p ∈ folded_players g) ∧
  (∀ p, p ∈ active_players g →
        p ∈ player_ids g0 ∧ get0 (player_chips g0) p > 0).
Proof.
  intros Hr Hin. induction Hin as [g H|g g' Hin (I1 & I2 & I3) Hs].
  - apply reset_hand_Ok in H as ->. simpl. split; [|split].
    + intros p _. apply not_elem_of_nil.
    + intros p Hp Hc. left. by apply filter_has_chips_elem.
    + intros p Hp. by apply filter_has_chips_elem in Hp.
  - pose proof (active_nodup _ (inv_seated _ _ (in_hand_inv _ _ Hr Hin))) as Hnd.
    destruct Hs as [g g' H|g g' H|g p a amt g' H|g|g].
    + apply post_blinds_frame in H as (_ & _ & _ & _ & _ & _ & -> & ->). auto.
    + apply start_betting_round_frame in H as (_ & _ & _ & _ & _ & -> & -> & _). auto.
    + apply process_action_lists in H as [[-> ->]|[-> ->]]; [auto|].
      split; [|split].
      * intros q Hq. rewrite elem_of_app, list_elem_of_singleton.
        intros [Hf| ->].
        -- apply list_remove_first_subseteq in Hq. by apply (I1 q).
        -- exact (list_remove_first_gone _ _ Hnd Hq).
      * intros q Hq Hc. destruct (decide (q = p)) as [->|Hne].
        -- right. rewrite elem_of_app, list_elem_of_singleton. by right.
        -- destruct (I2 q Hq Hc) as [?|?].
           ++ left. by apply list_remove_first_other.
           ++ right. rewrite elem_of_app. by left.
      * intros q Hq. apply I3. by apply list_remove_first_subseteq in Hq.
    + pose proof (advance_to_next_player_frame g)
        as (_ & _ & _ & _ & _ & _ & -> & -> & _). auto.
    + pose proof (advance_to_next_round_frame g)
        as (_ & _ & _ & _ & _ & -> & -> & _). auto.
Qed.

Lemma betting_loop_in_betting g0 ds g g' ds' :
  betting_loop ds g = Ok (g', ds') → in_betting g0 g → in_betting g0 g'.
Proof.
  revert g. induction ds as [|[a amt] ds IH]; intros g H Hin; simpl in H;
    ok_inv H as fin Hfin; destruct fin; simplify_eq; try done;
    ok_inv H as pid Hpid; case_bool_decide; simplify_eq; try done;
    ok_inv H as gs Hgs; ok_inv H as la Hla; ok_inv H as c Hc; ok_inv H as b Hb;
    try discriminate.
  ok_inv H as g1 Hg1. apply (IH _ H).
  eapply in_betting_step; [|apply bstep_next_player].
  eapply in_betting_step; [done|]. by eapply bstep_action.
Qed.

Lemma run_betting_round_in_betting g0 ds g g' ds' :
  _run_betting_round ds g = Ok (g', ds') → in_betting g0 g → in_betting g0 g'.
Proof.
  unfold _run_betting_round. intros H Hin. ok_inv H as g1 Hg1.
  eapply betting_loop_in_betting; [done|].
  eapply in_betting_step; [done|]. by apply bstep_round.
Qed.

Lemma street_in_betting g0 adv st g' ds' :
  street adv st = Ok (g', ds') → in_betting g0 st.1 → in_betting g0 g'.
Proof.
  destruct st as [g ds]. unfold street. simpl. case_bool_decide as Hlen; intros H Hin.
  - eapply run_betting_round_in_betting; [done|].
    destruct adv; [|done]. eapply in_betting_step; [done|]. apply bstep_next_round.
  - by simplify_eq.
Qed.

Lemma play_streets_in_betting ds g0 g ds' :
  play_streets ds g0 = Ok (g, ds') → in_betting g0 g.
Proof.
  unfold play_streets. intros H.
  ok_inv H as g2 Hg2.
  ok_inv H as st1 H1. ok_inv H as st2 H2. ok_inv H as st3 H3.
  assert (in_betting g0 g2) as Hin by (by apply in_betting_start).
  destruct st1 as [x1 d1], st2 as [x2 d2], st3 as [x3 d3].
  eapply (street_in_betting g0 _ (x3, d3)); [done|]. simpl.
  eapply (street_in_betting g0 _ (x2, d2)); [done|]. simpl.
  eapply (street_in_betting g0 _ (x1, d1)); [done|]. simpl.
  by eapply (street_in_betting g0 _ (g2, ds)).
Qed.

(** What a player holds and has bet in the round never exceeds the stack
    the player started the hand with. *)
Lemma in_hand_stake g0 g :
  ready g0 → in_hand g0 g →
  ∀ p, get0 (player_chips g) p + get0 (player_bets g) p ≤ get0 (player_chips g0) p.
Proof.
  intros Hr Hin. induction Hin as [g H|g g' Hin IH Hs]; intros q.
  - apply reset_hand_Ok in H as ->. simpl. rewrite zero_bets_get0. lia.
  - pose proof (in_hand_inv _ _ Hr Hin) as [Hse Hso _ _].
    assert (0 ≤ get0 (player_bets g) q) as Hbq.
    { unfold get0. destruct (player_bets g !! q) eqn:E; simpl; [|done].
      by eapply bets_nonneg. }
    specialize (IH q).
    destruct Hs as [g g' H|g g' H|g p a amt g' H|g|g].
    + apply post_blinds_Ok in H
        as [[_ ->]|(Hn & sbp & bbp & cs & cb & Hs & Hb & Hcs & Hcb & ->)]; [done|].
      pose proof (blind_players_distinct _ _ _ (active_nodup _ Hse) Hn Hs Hb) as Hne.
      rewrite lookup_insert_ne in Hcb by done.
      simpl. unfold get0 in *. rewrite !lookup_insert.
      repeat case_decide; simplify_eq; simpl; rewrite ?Hcs, ?Hcb in IH; simpl in IH; lia.
    + unfold _start_betting_round in H. ok_inv H as i Hi. simpl in H.
      case_bool_decide; simplify_eq; simpl; [|done].
      rewrite zero_bets_get0. lia.
    + apply process_action_chip_move in H
        as [-> -> _ _|c b d _ Hc Hb _ _ -> -> _]; [done|].
      unfold get0 in *. rewrite !lookup_insert.
      case_decide; simplify_eq; simpl; [|done].
      rewrite Hc, Hb in IH. simpl in IH. lia.
    + pose proof (advance_to_next_player_frame g)
        as (_ & _ & _ & _ & _ & _ & _ & _ & -> & -> & _). done.
    + pose proof (advance_to_next_round_frame g)
        as (_ & _ & _ & _ & _ & _ & _ & -> & -> & _). done.
Qed.

(** An action keeps the bets at or below [current_bet]. *)
Lemma process_action_level g p a amt g' :
  0 ≤ big_blind g → level g → process_action g p a amt = Ok g' → level g'.
Proof.
  intros Hbb Hl H.
  destruct (is_valid_action g p a amt) eqn:Hv'.
  2:{ rewrite (process_action_invalid _ _ _ _ Hv') in H.
      action_branches H; done. }
  pose proof (is_valid_action_active _ _ _ _ Hv') as [Hact Hnf].
  unfold is_valid_action in Hv'.
  rewrite (proj2 (in_list_true _ _) Hact), (proj2 (in_list_false _ _) Hnf) in Hv'.
  simpl in Hv'.
  action_branches H; try done; intros q bq; simpl;
    rewrite lookup_insert; destruct (decide (p = q)) as [<-|Hne];
    intros Hq; simplify_eq;
    try (specialize (Hl _ _ Hq));
    rewrite ?andb_true_iff, ?bool_decide_eq_true in Hv';
    rewrite ?(get0_Some _ _ _ Hb) in Hv';
    lia.
Qed.

Lemma in_betting_level g0 g :
  ready g0 → small_blind g0 ≤ big_blind g0 → in_betting g0 g → level g.
Proof.
  intros Hr Hsb Hin. induction Hin as [g H|g g' Hin IH Hs].
  - destruct Hr as [_ _ _ [H0 H1]].
    unfold _start_hand in H. ok_inv H as g1 Hg1. ok_inv H as g2 Hg2.
    ok_inv H as dealer Hd. simplify_eq.
    apply reset_hand_Ok in Hg1 as ->.
    apply post_blinds_Ok in Hg2
      as [[_ ->]|(Hn & sbp & bbp & cs & cb & _ & _ & _ & _ & ->)];
      intros q bq; simpl.
    + rewrite zero_bets_lookup. case_bool_decide; intros; simplify_eq. lia.
    + rewrite !lookup_insert, zero_bets_lookup.
      repeat case_decide; try case_bool_decide; intros; simplify_eq; lia.
  - pose proof (in_hand_config _ _ (in_betting_in_hand _ _ Hin)) as (_ & _ & Hbb & _).
    destruct Hs as [g g' H|g p a amt g' H|g|g].
    + unfold _start_betting_round in H. ok_inv H as i Hi. simpl in H.
      case_bool_decide; simplify_eq; [|done].
      intros q bq; simpl. rewrite zero_bets_lookup.
      case_bool_decide; intros; by simplify_eq.
    + eapply process_action_level; [|done..]. rewrite Hbb. apply Hr.
    + intros q bq.
      pose proof (advance_to_next_player_frame g)
        as (_ & _ & _ & _ & _ & -> & _ & _ & _ & -> & _). apply IH.
    + intros q bq.
      pose proof (advance_to_next_round_frame g)
        as (_ & _ & _ & _ & -> & _ & _ & _ & -> & _). apply IH.
Qed.

Lemma process_action_forward g p a amt g' :
  0 ≤ big_blind g → level g →
  (∀ q c, player_chips g !! q = Some c → 0 ≤ c) →
  process_action g p a amt = Ok g' →
  pot g ≤ pot g' ∧
  ∀ q, get0 (player_chips g') q ≤ get0 (player_chips g) q ∧
       get0 (player_bets g) q ≤ get0 (player_bets g') q.
Proof.
  intros Hbb Hl Hn H.
  destruct (is_valid_action g p a amt) eqn:Hv'.
  2:{ rewrite (process_action_invalid _ _ _ _ Hv') in H.
      action_branches H; split; (lia || (intros; lia)). }
  pose proof (is_valid_action_active _ _ _ _ Hv') as [Hact Hnf].
  unfold is_valid_action in Hv'.
  rewrite (proj2 (in_list_true _ _) Hact), (proj2 (in_list_false _ _) Hnf) in Hv'.
  simpl in Hv'.
  action_branches H; try (split; (lia || (intros; lia)));
    rewrite ?andb_true_iff, ?bool_decide_eq_true in Hv';
    rewrite ?(get0_Some _ _ _ Hb) in Hv';
    pose proof (Hl _ _ Hb); pose proof (Hn _ _ Hc);
    (split; [lia|]); intros q; unfold get0; rewrite !lookup_insert;
    (destruct (decide (p = q)) as [<-|Hne]; [rewrite Hb, Hc; simpl; lia | lia]).
Qed.

(** * Invariants of the two lists and of the stakes *)

(** X6.  During a hand nobody is both active and folded, every active
    player was dealt in (a seat with chips when the hand began), and nobody
    who was dealt in is missing from both lists. *)
Theorem dealt_in_players_are_active_or_folded g0 g :
  ready g0 → in_hand g0 g →
  (∀ p, p ∈ active_players g → p ∉ folded_players g) ∧
  (∀ p, p ∈ player_ids g0 → get0 (player_chips g0) p > 0 →
        p ∈ active_players g ∨ p ∈ folded_players g) ∧
  (∀ p, p ∈ active_players g →
        p ∈ player_ids g0 ∧ get0 (player_chips g0) p > 0) ∧
  NoDup (active_players g).
Proof.
  intros Hr Hin. destruct (in_hand_lists _ _ Hr Hin) as (H1 & H2 & H3).
  repeat split; auto; try (by apply H3).
  apply (in_hand_inv _ _ Hr Hin).
Qed.

(** X7.  Before the payout, the stack of a player plus the player's bet of
    the round never exceeds the stack the player began the hand with; so no
    stack grows and no bet is larger than what its player owned. *)
Theorem stake_within_starting_stack g0 g p :
  ready g0 → in_hand g0 g →
  get0 (player_chips g) p + get0 (player_bets g) p ≤ get0 (player_chips g0) p ∧
  0 ≤ get0 (player_chips g) p ≤ get0 (player_chips g0) p ∧
  0 ≤ get0 (player_bets g) p ≤ get0 (player_chips g0) p.
Proof.
  intros Hr Hin. pose proof (in_hand_stake _ _ Hr Hin p) as Hst.
  pose proof (in_hand_inv _ _ Hr Hin) as [_ Hso _ _].
  assert (0 ≤ get0 (player_chips g) p).
  { unfold get0. destruct (player_chips g !! p) eqn:E; simpl; [|done].
    by eapply chips_nonneg. }
  assert (0 ≤ get0 (player_bets g) p).
  { unfold get0. destruct (player_bets g !! p) eqn:E; simpl; [|done].
    by eapply bets_nonneg. }
  lia.
Qed.

(** X8.  With a small blind not above the big blind, the betting states keep
    every bet of the round at or below [current_bet], and then an action
    only moves chips forward: the pot does not shrink, no stack grows and no
    bet shrinks. *)
Theorem betting_moves_chips_forward g0 g p a amt g' :
  ready g0 → small_blind g0 ≤ big_blind g0 → in_betting g0 g →
  process_action g p a amt = Ok g' →
  (∀ q b, player_bets g !! q = Some b → b ≤ current_bet g) ∧
  (∀ q b, player_bets g' !! q = Some b → b ≤ current_bet g') ∧
  pot g ≤ pot g' ∧
  ∀ q, get0 (player_chips g') q ≤ get0 (player_chips g) q ∧
       get0 (player_bets g) q ≤ get0 (player_bets g') q.
Proof.
  intros Hr Hsb Hin H.
  pose proof (in_betting_level _ _ Hr Hsb Hin) as Hl.
  pose proof (in_hand_inv _ _ Hr (in_betting_in_hand _ _ Hin)) as [_ Hso _ _].
  pose proof (blinds_nonneg _ Hso) as [_ Hbb].
  split; [exact Hl|]. split; [exact (process_action_level _ _ _ _ _ Hbb Hl H)|].
  apply (process_action_forward _ _ _ _ _ Hbb Hl (chips_nonneg _ Hso) H).
Qed.

Lemma take_turns_in_betting g0 ts g g' :
  take_turns ts g = Ok g' → in_betting g0 g → in_betting g0 g'.
Proof.
  revert g. induction ts as [|[[p a] amt] ts IH]; intros g H Hin; simpl in H.
  - by simplify_eq.
  - ok_inv H as g1 Hg1. apply (IH _ H).
    eapply in_betting_step; [|apply bstep_next_player].
    eapply in_betting_step; [done|]. by eapply bstep_action.
Qed.

Lemma short_ready : ready short.
Proof. apply ready_b_true. vm_compute. reflexivity. Qed.

Lemma short_preflop_in_betting : in_betting short short_preflop.
Proof.
  apply (in_betting_step short (set_current_player_index 0 short_preflop)).
  - apply in_betting_start. vm_compute. reflexivity.
  - apply bstep_round. vm_compute. reflexivity.
Qed.

Lemma squeezed_in_betting : in_betting short squeezed.
Proof.
  apply (take_turns_in_betting short
           [("P1", ALL_IN, 0); ("P2", RAISE, 100); ("P0", CALL, 0)] short_preflop).
  - vm_compute. reflexivity.
  - exact short_preflop_in_betting.
Qed.

(** * The helpers of [bot_api] against the engine *)

Lemma get_game_state_Ok g gs :
  get_game_state g = Ok gs →
  get_current_player g = Ok (gs_current_player gs) ∧
  gs_current_bet gs = current_bet g ∧ gs_big_blind gs = big_blind g ∧
  gs_player_chips gs = player_chips g ∧ gs_player_bets gs = player_bets g ∧
  gs_active_players gs = active_players g ∧ gs_pot gs = pot g.
Proof.
  unfold get_game_state. intros H. ok_inv H as cur Hcur. simplify_eq. simpl.
  by repeat split.
Qed.

(** X9.  What [validate_action] accepts, the engine accepts: an action a bot
    has checked with [validate_action] on the view the engine gave it passes
    [is_valid_action], and it comes from the player whose turn it is; the
    engine will not turn it into a fold. *)
Theorem validated_action_is_accepted g0 g gs p a amt :
  ready g0 → in_hand g0 g →
  get_game_state g = Ok gs →
  validate_action a amt gs p = Ok true →
  is_valid_action g p a amt = true ∧ get_current_player g = Ok p.
Proof.
  intros Hr Hin Hgs Hval.
  apply get_game_state_Ok in Hgs as (Hcur & Hcb & Hbb & Hch & Hbe & Hact & _).
  unfold validate_action in Hval. rewrite Hact, Hch, Hbe, Hcb, Hbb in Hval.
  destruct (in_list p (active_players g)) eqn:Hp; simpl in Hval; [|done].
  case_bool_decide as Hne; [done|].
  assert (p = gs_current_player gs) as Heq
    by (by destruct (decide (p = gs_current_player gs))).
  rewrite <-Heq in Hcur. split; [|done].
  ok_inv Hval as c Hc. ok_inv Hval as b Hb. apply getitem_Ok in Hc, Hb.
  apply in_list_true in Hp as Hp'.
  destruct (in_hand_lists _ _ Hr Hin) as (Hdis & _).
  unfold is_valid_action.
  rewrite Hp, (proj2 (in_list_false _ _) (Hdis _ Hp')). simpl.
  rewrite (get0_Some _ _ _ Hb), (get0_Some _ _ _ Hc).
  destruct a; simplify_eq; try done.
  - apply andb_true_iff in Hval as [? _]. done.
  - rewrite !andb_true_iff in Hval. rewrite andb_true_iff. tauto.
Qed.

(** X10.  In the betting states of a hand whose small blind is not above
    the big blind, every action [get_legal_actions] lists for the player to
    act, RAISE aside, passes both validations with amount 0; and a RAISE of
    an active player passes the engine's validation exactly for the totals
    from [min_bet = current_bet + big_blind] to
    [max_bet = chips + bet_this_round], the range the loop hands to the
    bot. *)
Theorem legal_actions_are_accepted g0 g gs p la :
  ready g0 → small_blind g0 ≤ big_blind g0 → in_betting g0 g →
  get_game_state g = Ok gs →
  get_legal_actions gs p = Ok la →
  (∀ a, a ∈ la → a ≠ RAISE →
     is_valid_action g p a 0 = true ∧ validate_action a 0 gs p = Ok true) ∧
  (∀ amt, p ∈ active_players g →
     (is_valid_action g p RAISE amt = true ↔
      current_bet g + big_blind g ≤ amt ≤
        get0 (player_chips g) p + get0 (player_bets g) p)).
Proof.
  intros Hr Hsb Hin Hgs Hla.
  pose proof (in_betting_level _ _ Hr Hsb Hin) as Hl.
  destruct (in_hand_lists _ _ Hr (in_betting_in_hand _ _ Hin)) as (Hdis & _).
  apply get_game_state_Ok in Hgs as (Hcur & Hcb & Hbb & Hch & Hbe & Hact & _).
  split.
  - unfold get_legal_actions in Hla. unfold validate_action.
    rewrite Hact, Hch, Hbe, Hcb in *.
    destruct (in_list p (active_players g)) eqn:Hp; simpl in *;
      [|simplify_eq; intros a Ha; by apply elem_of_nil in Ha].
    case_bool_decide as Hne; simpl in Hla;
      [simplify_eq; intros a Ha; by apply elem_of_nil in Ha|].
    ok_inv Hla as c Hc. ok_inv Hla as b Hb. rewrite Hc, Hb. simpl.
    apply getitem_Ok in Hc, Hb.
    apply in_list_true in Hp as Hp'.
    pose proof (Hl _ _ Hb) as Hlev.
    intros a Ha Hnr. unfold is_valid_action.
    rewrite Hp, (proj2 (in_list_false _ _) (Hdis _ Hp')). simpl.
    rewrite (get0_Some _ _ _ Hb), (get0_Some _ _ _ Hc).
    simplify_eq.
    destruct a; try done.
    + destruct (decide (current_bet g - b = 0)) as [Hz|Hz].
      * by rewrite (bool_decide_eq_true_2 _ Hz).
      * exfalso. rewrite (bool_decide_eq_false_2 _ Hz) in Ha.
        repeat case_bool_decide; set_solver.
    + assert (current_bet g - b > 0 ∧ c >= current_bet g - b) as [H1 H2].
      { destruct (decide (current_bet g - b = 0)) as [Hz|Hz].
        - rewrite (bool_decide_eq_true_2 _ Hz) in Ha.
          repeat case_bool_decide; set_solver.
        - rewrite (bool_decide_eq_false_2 _ Hz) in Ha.
          destruct (decide (c >= current_bet g - b)) as [Hc'|Hc']; [lia|].
          rewrite (bool_decide_eq_false_2 _ Hc') in Ha.
          repeat case_bool_decide; set_solver. }
      by rewrite !bool_decide_eq_true_2.
    + assert (c > 0) as Hpos.
      { destruct (decide (c > 0)) as [?|Hc']; [done|].
        rewrite (bool_decide_eq_false_2 _ Hc') in Ha.
        repeat case_bool_decide; set_solver. }
      by rewrite !bool_decide_eq_true_2.
  - intros amt Hp. unfold is_valid_action.
    rewrite (proj2 (in_list_true _ _) Hp), (proj2 (in_list_false _ _) (Hdis _ Hp)).
    simpl. rewrite andb_true_iff, !bool_decide_eq_true. lia.
Qed.

(** X11.  A player who is all-in and faces a bet when asked again is offered
    FOLD only by [get_legal_actions]; yet the engine accepts a CALL from
    that player, and the call moves no chip and leaves the player active. *)
Theorem all_in_player_is_offered_fold_only g0 g gs p b :
  ready g0 → in_hand g0 g →
  get_game_state g = Ok gs → gs_current_player gs = p →
  p ∈ active_players g →
  player_chips g !! p = Some 0 → player_bets g !! p = Some b →
  b < current_bet g →
  get_legal_actions gs p = Ok [FOLD] ∧
  is_valid_action g p CALL 0 = true ∧
  ∃ g', process_action g p CALL 0 = Ok g' ∧
        player_chips g' = player_chips g ∧ player_bets g' = player_bets g ∧
        pot g' = pot g ∧ current_bet g' = current_bet g ∧
        active_players g' = active_players g ∧
        folded_players g' = folded_players g.
Proof.
  intros Hr Hin Hgs Hcurp Hp Hc Hb Hlt.
  destruct (in_hand_lists _ _ Hr Hin) as (Hdis & _).
  apply get_game_state_Ok in Hgs as (Hcur & Hcb & Hbb & Hch & Hbe & Hact & _).
  assert (is_valid_action g p CALL 0 = true) as Hv.
  { unfold is_valid_action.
    rewrite (proj2 (in_list_true _ _) Hp), (proj2 (in_list_false _ _) (Hdis _ Hp)).
    simpl. rewrite (get0_Some _ _ _ Hb). apply bool_decide_eq_true_2. lia. }
  split; [|split; [done|]].
  - unfold get_legal_actions. rewrite Hact, Hch, Hbe, Hcb, Hcurp.
    rewrite (proj2 (in_list_true _ _) Hp). simpl.
    rewrite (bool_decide_eq_false_2 (p ≠ p)) by tauto.
    unfold getitem. rewrite Hc, Hb. simpl.
    rewrite (bool_decide_eq_false_2 (current_bet g - b = 0)) by lia.
    rewrite (bool_decide_eq_false_2 (0 >= current_bet g - b)) by lia.
    by rewrite (bool_decide_eq_false_2 (0 > current_bet g - b)) by lia.
  - unfold process_action. rewrite Hv. unfold getitem. simpl. rewrite Hb, Hc. simpl.
    eexists. split; [reflexivity|]. simpl.
    replace (0 - (current_bet g - b) `min` 0) with 0 by lia.
    replace (b + (current_bet g - b) `min` 0) with b by lia.
    replace (pot g + (current_bet g - b) `min` 0) with (pot g) by lia.
    rewrite !insert_id by done. done.
Qed.

(** * How a betting round and a hand end *)

Lemma betting_loop_ends ds g g' ds' :
  betting_loop ds g = Ok (g', ds') →
  is_betting_round_complete g' = Ok true ∨ get_current_player g' = Ok "".
Proof.
  revert g. induction ds as [|[a amt] ds IH]; intros g H; simpl in H;
    ok_inv H as fin Hfin; destruct fin; simplify_eq; auto;
    ok_inv H as pid Hpid; case_bool_decide; simplify_eq; auto;
    ok_inv H as gs Hgs; ok_inv H as la Hla; ok_inv H as c Hc; ok_inv H as b Hb;
    try discriminate.
  ok_inv H as g1 Hg1. by apply (IH _ H).
Qed.

Lemma betting_loop_round_name ds g g' ds' :
  betting_loop ds g = Ok (g', ds') → round_name g' = round_name g.
Proof.
  revert g. induction ds as [|[a amt] ds IH]; intros g H; simpl in H;
    ok_inv H as fin Hfin; destruct fin; simplify_eq; auto;
    ok_inv H as pid Hpid; case_bool_decide; simplify_eq; auto;
    ok_inv H as gs Hgs; ok_inv H as la Hla; ok_inv H as c Hc; ok_inv H as b Hb;
    try discriminate.
  ok_inv H as g1 Hg1. rewrite (IH _ H).
  pose proof (advance_to_next_player_frame g1) as (_ & _ & _ & _ & -> & _).
  by apply process_action_frame in Hg1 as (_ & _ & _ & _ & -> & _).
Qed.

(** X12.  When [_run_betting_round] returns with two or more players still
    active, every one of them who has chips left has bet exactly
    [current_bet] (no seat being named by the empty string, which the loop
    takes for "no player"). *)
Theorem betting_round_ends_matched g0 ds g g' ds' p :
  ready g0 → in_hand g0 g → "" ∉ player_ids g0 →
  _run_betting_round ds g = Ok (g', ds') →
  1 < len (active_players g') →
  p ∈ active_players g' → get0 (player_chips g') p > 0 →
  get0 (player_bets g') p = current_bet g'.
Proof.
  intros Hr Hin Hname Hrun Hn Hp Hc.
  pose proof (run_betting_round_in_hand _ _ _ _ _ Hrun Hin) as Hin'.
  pose proof (in_hand_inv _ _ Hr Hin') as Hinv.
  unfold _run_betting_round in Hrun. ok_inv Hrun as g1 Hg1.
  apply betting_loop_ends in Hrun as [Hdone|Hnone].
  - by apply (round_complete_all_matched g' (inv_seated _ _ Hinv)).
  - exfalso. destruct (get_current_player_total g') as (q & Hq & [Hqin| ->]).
    + rewrite Hq in Hnone. simplify_eq. apply Hname.
      rewrite <-(inv_ids _ _ Hinv). by apply (inv_seated _ _ Hinv).
    + unfold get_current_player in Hq.
      destruct (active_players g') as [|x l] eqn:E; [by apply elem_of_nil in Hp|].
      rewrite <-E in *. unfold pymod in Hq.
      rewrite bool_decide_eq_false_2 in Hq by lia. simpl in Hq.
      apply list_item_Ok in Hq. apply Hname.
      rewrite <-(inv_ids _ _ Hinv). by apply (inv_seated _ _ Hinv).
Qed.

Lemma street_round_name adv g ds g' ds' :
  street adv (g, ds) = Ok (g', ds') →
  round_name g' = round_name g ∨
  (adv = true ∧ round_name g' = round_name (advance_to_next_round g)).
Proof.
  unfold street. case_bool_decide as Hn; intros H; [|simplify_eq; by left].
  unfold _run_betting_round in H. ok_inv H as g1 Hg1.
  apply betting_loop_round_name in H.
  apply start_betting_round_frame in Hg1 as (_ & _ & _ & _ & Hrn & _).
  rewrite H, Hrn. destruct adv; [right|left]; done.
Qed.

(** X13.  [play_hand] advances the street three times at most: when it
    returns, [round_name] is "preflop", "flop", "turn" or "river", never
    "showdown". *)
Theorem play_hand_never_names_showdown get_winners ds g0 g' :
  play_hand get_winners ds g0 = Ok g' →
  round_name g' ∈ ["preflop"; "flop"; "turn"; "river"].
Proof.
  unfold play_hand, play_streets. intros H.
  ok_inv H as st Hst. ok_inv Hst as g1 Hg1.
  ok_inv Hst as st1 H1. ok_inv Hst as st2 H2. ok_inv Hst as st3 H3.
  destruct st as [g4 d4], st1 as [x1 d1], st2 as [x2 d2], st3 as [x3 d3].
  assert (round_name g1 = "preflop") as R0.
  { unfold _start_hand in Hg1. ok_inv Hg1 as r Hr. ok_inv Hg1 as r2 Hr2.
    ok_inv Hg1 as dealer Hd. simplify_eq.
    apply post_blinds_frame in Hr2 as (_ & _ & _ & _ & -> & _).
    by apply reset_hand_Ok in Hr as ->. }
  assert (round_name g' = round_name g4) as ->.
  { unfold settle in H. simpl in H. ok_inv H as g5 Hg5. ok_inv H as d Hd.
    simplify_eq. simpl. unfold _distribute_pot in Hg5.
    destruct (determine_winners get_winners g4); [by simplify_eq|].
    ok_inv Hg5 as chips Hchips. by simplify_eq. }
  apply street_round_name in H1, H2, H3, Hst.
  assert (∀ x, round_name x = "preflop" →
               round_name (advance_to_next_round x) = "flop") as A1
    by (intros x E; unfold advance_to_next_round; by rewrite E).
  assert (∀ x, round_name x = "flop" →
               round_name (advance_to_next_round x) = "turn") as A2
    by (intros x E; unfold advance_to_next_round; by rewrite E).
  assert (∀ x, round_name x = "turn" →
               round_name (advance_to_next_round x) = "river") as A3
    by (intros x E; unfold advance_to_next_round; by rewrite E).
  assert (round_name x1 = "preflop") as N1.
  { destruct H1 as [E|[? E]]; [congruence|done]. }
  assert (round_name x2 = "preflop" ∨ round_name x2 = "flop") as N2.
  { destruct H2 as [E|[_ E]]; rewrite E; auto. }
  assert (round_name x3 = "preflop" ∨ round_name x3 = "flop" ∨
          round_name x3 = "turn") as N3.
  { destruct H3 as [E|[_ E]]; rewrite E; destruct N2 as [?|?]; auto. }
  rewrite !elem_of_cons.
  destruct Hst as [E|[_ E]]; rewrite E; destruct N3 as [?|[?|?]]; auto 10.
Qed.

(** X14.  When a single player is left, the showdown asks no evaluator: that
    player receives the whole pot, nobody else's stack changes, the pot is
    emptied and the stacks again hold every chip the hand began with. *)
Theorem last_player_takes_the_pot get_winners g0 g p :
  ready g0 → in_hand g0 g → active_players g = [p] →
  ∃ g' c, settle get_winners g = Ok g' ∧
          player_chips g !! p = Some c ∧
          player_chips g' !! p = Some (c + pot g) ∧
          (∀ q, q ≠ p → player_chips g' !! q = player_chips g !! q) ∧
          pot g' = 0 ∧ total_chips g' = total_chips g0.
Proof.
  intros Hr Hin Hact.
  pose proof (in_hand_inv _ _ Hr Hin) as [Hse Hso Hids Hcons].
  assert (p ∈ player_ids g) as Hp.
  { apply (active_seated _ Hse). rewrite Hact. apply list_elem_of_here. }
  destruct (seats_chips _ Hse _ Hp) as [c Hc].
  unfold settle, determine_winners. rewrite Hact.
  rewrite bool_decide_eq_true_2 by done.
  unfold _distribute_pot, pay_winners, getitem. rewrite Hc. simpl.
  unfold pymod. rewrite bool_decide_eq_false_2.
  2:{ unfold len. destruct (player_ids g); [by apply elem_of_nil in Hp|simpl; lia]. }
  simpl. eexists _, c. split; [reflexivity|]. simpl.
  change (len [p]) with 1. rewrite Z.div_1_r.
  split; [done|]. split; [by rewrite lookup_insert_eq|].
  split; [intros q Hq; by rewrite lookup_insert_ne|]. split; [done|].
  unfold total_chips in *. simpl.
  rewrite (sum_over_put _ _ p c) by (done || apply Hse). lia.
Qed.

(** * The turn cursor *)

Lemma turns_frame n g :
  active_players (turns n g) = active_players g ∧
  (active_players g ≠ [] →
   current_player_index (turns n g) `mod` len (active_players g)
   = (current_player_index g + Z.of_nat n) `mod` len (active_players g)).
Proof.
  induction n as [|n [IHa IHi]].
  - split; [done|]. intros _. simpl. by rewrite Z.add_0_r.
  - cbn [turns].
    pose proof (advance_to_next_player_frame (turns n g))
      as (_ & _ & _ & _ & _ & _ & Ha & _).
    split; [by rewrite Ha|]. intros Hne.
    unfold advance_to_next_player. rewrite IHa.
    destruct (active_players g) as [|x l] eqn:E; [done|]. rewrite <-E in *.
    simpl. assert (0 < len (active_players g)) by (rewrite E; unfold len; simpl; lia).
    rewrite Z.mod_mod by lia.
    rewrite <-Z.add_mod_idemp_l, (IHi Hne), Z.add_mod_idemp_l by lia.
    f_equal. lia.
Qed.

Lemma get_current_player_nonempty g :
  active_players g ≠ [] →
  get_current_player g =
  list_item (active_players g)
    (current_player_index g `mod` len (active_players g)).
Proof.
  intros Hne. unfold get_current_player.
  destruct (active_players g) as [|x l] eqn:E; [done|].
  unfold pymod. rewrite bool_decide_eq_false_2 by (unfold len; simpl; lia). done.
Qed.

(** X15.  As long as nobody folds the cursor goes round the active list:
    whatever its value, the current player is an active player, and every
    active player is the current player after fewer turns than there are
    active players. *)
Theorem every_active_player_gets_a_turn g p :
  p ∈ active_players g →
  (∃ q, get_current_player g = Ok q ∧ q ∈ active_players g) ∧
  ∃ k, (k < length (active_players g))%nat ∧
       get_current_player (turns k g) = Ok p.
Proof.
  intros Hp.
  assert (active_players g ≠ []) as Hne
    by (intros E; rewrite E in Hp; by apply elem_of_nil in Hp).
  assert (0 < len (active_players g)) as Hn
    by (unfold len; destruct (active_players g); simpl; [done|lia]).
  split.
  - rewrite get_current_player_nonempty by done.
    destruct (list_item_in_range (active_players g)
                (current_player_index g `mod` len (active_players g)))
      as (q & -> & Hq); [apply Z.mod_pos_bound; lia|].
    exists q. split; [done|]. by eapply list_elem_of_lookup_2.
  - apply list_elem_of_lookup_1 in Hp as [j Hj].
    pose proof (lookup_lt_Some _ _ _ Hj) as Hjn.
    assert (0 ≤ (Z.of_nat j - current_player_index g) `mod` len (active_players g)
            < len (active_players g)) as Hk
      by (apply Z.mod_pos_bound; lia).
    exists (Z.to_nat ((Z.of_nat j - current_player_index g)
                        `mod` len (active_players g))).
    split; [unfold len in *; lia|].
    destruct (turns_frame
                (Z.to_nat ((Z.of_nat j - current_player_index g)
                             `mod` len (active_players g))) g) as [Ha Hi].
    specialize (Hi Hne).
    rewrite get_current_player_nonempty by (by rewrite Ha).
    rewrite Ha, Hi. rewrite Z2Nat.id by lia.
    rewrite Z.add_mod_idemp_r by lia.
    replace (current_player_index g + (Z.of_nat j - current_player_index g))
      with (Z.of_nat j) by lia.
    rewrite Z.mod_small by (unfold len; lia).
    rewrite list_item_nonneg by lia. by rewrite Nat2Z.id, Hj.
Qed.

(** * [GameInfoAPI] *)

Lemma list_index_Some x l i :
  list_index x l = Some i → 0 ≤ i < len l ∧ l !! Z.to_nat i = Some x.
Proof.
  revert i. induction l as [|y l IH]; intros i; simpl; [done|].
  case_bool_decide as E.
  - intros [= <-]. subst. unfold len. simpl. split; [lia|done].
  - destruct (list_index x l) as [j|]; simpl; [|done]. intros [= <-].
    destruct (IH j eq_refl) as [Hj Hl]. unfold len in *. simpl length.
    split; [lia|]. replace (Z.to_nat (Z.succ j)) with (S (Z.to_nat j)) by lia.
    done.
Qed.

Lemma list_index_None x l : list_index x l = None ↔ x ∉ l.
Proof.
  induction l as [|y l IH]; simpl.
  - split; [intros _; apply not_elem_of_nil|done].
  - rewrite not_elem_of_cons. case_bool_decide as E.
    + split; [done|]. intros [? _]. congruence.
    + destruct (list_index x l); simpl.
      * split; [done|]. intros [_ H]. by apply IH in H.
      * split; [|done]. intros _. split; [congruence|]. by apply IH.
Qed.

Lemma list_index_NoDup x l j :
  NoDup l → l !! j = Some x → list_index x l = Some (Z.of_nat j).
Proof.
  intros Hnd Hj. destruct (list_index x l) as [i|] eqn:E.
  - destruct (list_index_Some _ _ _ E) as [Hi Hl].
    pose proof (NoDup_lookup _ _ _ _ Hnd Hl Hj). f_equal. lia.
  - apply list_index_None in E. exfalso. apply E. by eapply list_elem_of_lookup_2.
Qed.

(** X16.  [get_position_info] counts seats from the player to act, round
    the active list: with distinct active players, the player at index [j]
    when the current player is at index [i] has position [(j - i) mod n];
    it lies in [0 .. n-1], is 0 for the current player only, and
    [players_after] counts the rest of the lap, [is_last] marking its end.
    If the player or the current player is not active the answer is
    position -1, nobody after, not last. *)
Theorem position_info_counts_from_current gs p :
  let n := len (gs_active_players gs) in
  let r := get_position_info gs p in
  (p ∉ gs_active_players gs ∨ gs_current_player gs ∉ gs_active_players gs →
     r = mkPositionInfo (-1) 0 false) ∧
  (NoDup (gs_active_players gs) →
   ∀ i j, gs_active_players gs !! i = Some (gs_current_player gs) →
          gs_active_players gs !! j = Some p →
     position r = (Z.of_nat j - Z.of_nat i) `mod` n ∧
     0 ≤ position r < n ∧
     (position r = 0 ↔ p = gs_current_player gs) ∧
     players_after r = n - 1 - position r ∧
     (is_last r = true ↔ players_after r = 0)).
Proof.
  intros n r. split.
  - unfold r, get_position_info. intros [H|H]; apply list_index_None in H.
    + by rewrite H.
    + rewrite H. by destruct (list_index p _).
  - intros Hnd i j Hi Hj. unfold r, get_position_info.
    rewrite (list_index_NoDup _ _ _ Hnd Hj), (list_index_NoDup _ _ _ Hnd Hi).
    fold n. simpl.
    pose proof (lookup_lt_Some _ _ _ Hi) as Hin.
    pose proof (lookup_lt_Some _ _ _ Hj) as Hjn.
    assert (0 < n) as Hn by (unfold n, len; lia).
    assert (0 ≤ (Z.of_nat j - Z.of_nat i) `mod` n < n) as Hr
      by (apply Z.mod_pos_bound; lia).
    split; [done|]. split; [done|]. split; [|split; [lia|]].
    + split.
      * intros Hz. destruct (decide (i ≤ j)%nat) as [Hle|Hgt].
        -- rewrite Z.mod_small in Hz by (unfold n, len; lia).
           assert (i = j) as -> by lia. congruence.
        -- exfalso.
           rewrite <-(Z.mod_add _ 1 n), Z.mod_small in Hz by (unfold n, len; lia).
           unfold n, len in *. lia.
      * intros ->. pose proof (NoDup_lookup _ _ _ _ Hnd Hi Hj) as ->.
        by rewrite Z.sub_diag, Z.mod_0_l by lia.
    + rewrite bool_decide_eq_true. lia.
Qed.

Lemma filter_other_notin (p : string) (l : list string) :
  p ∉ l → List.filter (λ q, bool_decide (q ≠ p)) l = l.
Proof.
  induction l as [|x l IH]; simpl; [done|].
  rewrite not_elem_of_cons. intros [Hne Hnin].
  rewrite bool_decide_eq_true_2 by congruence. by rewrite IH.
Qed.

Lemma filter_other_length (p : string) (l : list string) :
  NoDup l → p ∈ l →
  len (List.filter (λ q, bool_decide (q ≠ p)) l) = len l - 1.
Proof.
  unfold len. induction 1 as [|x l Hx Hnd IH]; simpl.
  - intros H. by apply elem_of_nil in H.
  - destruct (decide (x = p)) as [->|Hne].
    + intros _. rewrite bool_decide_eq_false_2 by tauto.
      rewrite filter_other_notin by done. lia.
    + rewrite bool_decide_eq_true_2 by done.
      rewrite elem_of_cons. intros [?|Hin]; [congruence|].
      specialize (IH Hin). simpl. apply list_elem_of_In in Hin.
      destruct l; [done|]. simpl in *. lia.
Qed.

(** X17.  [get_active_opponents] returns the active players other than the
    one asked about, in their order: the player is never in the answer,
    everybody else who is active is; for an active player and distinct names
    the answer is one shorter than the active list, and [is_heads_up] holds
    exactly when it has a single member. *)
Theorem active_opponents_are_the_others gs p :
  (∀ q, q ∈ get_active_opponents gs p ↔ q ∈ gs_active_players gs ∧ q ≠ p) ∧
  (p ∉ gs_active_players gs → get_active_opponents gs p = gs_active_players gs) ∧
  (NoDup (gs_active_players gs) → p ∈ gs_active_players gs →
     len (get_active_opponents gs p) = len (gs_active_players gs) - 1 ∧
     (is_heads_up gs = true ↔ ∃ q, get_active_opponents gs p = [q])).
Proof.
  unfold get_active_opponents, is_heads_up. split; [|split].
  - intros q. rewrite list_elem_of_In, filter_In, <-list_elem_of_In.
    by rewrite bool_decide_eq_true.
  - apply filter_other_notin.
  - intros Hnd Hp. pose proof (filter_other_length p _ Hnd Hp) as Hlen.
    split; [done|]. rewrite bool_decide_eq_true.
    destruct (List.filter _ (gs_active_players gs)) as [|x [|y l]] eqn:E;
      unfold len in *; simpl in *.
    + split; [lia|]. intros [q Hq]. done.
    + split; [eauto|]. intros _. lia.
    + split; [lia|]. intros [q Hq]. done.
Qed.

(** * Starting and finishing a hand *)

Lemma players_with_chips_raised chips ids :
  match players_with_chips chips ids with
  | Ok _ => ∀ p, p ∈ ids → is_Some (chips !! p)
  | Raised e => e = KeyError ∧ ∃ p, p ∈ ids ∧ chips !! p = None
  | Starved => False
  end.
Proof.
  induction ids as [|x ids IH]; simpl.
  - intros p Hp. by apply elem_of_nil in Hp.
  - unfold getitem. destruct (chips !! x) as [c|] eqn:E; simpl.
    + destruct (players_with_chips chips ids) as [act|e|]; simpl; [|idtac|done].
      * intros p. rewrite elem_of_cons. intros [->|?]; [by eexists|auto].
      * destruct IH as [-> (p & Hp & Hnone)]. split; [done|].
        exists p. split; [by right|done].
    + split; [done|]. exists x. split; [by left|done].
Qed.

(** X18.  [reset_hand] raises [KeyError], and nothing else, exactly when a
    seat has no entry in [player_chips].  Otherwise it keeps every stack and
    the button, empties the pot and the folded list, sets every seat's bet to
    0 and [current_bet] to the big blind, and makes active exactly the seats
    whose stack is above 0. *)
Theorem reset_hand_deals_in_the_funded_seats g :
  (reset_hand g = Raised KeyError ↔
     ∃ p, p ∈ player_ids g ∧ player_chips g !! p = None) ∧
  (∀ e, reset_hand g = Raised e → e = KeyError) ∧
  reset_hand g ≠ Starved ∧
  (∀ g', reset_hand g = Ok g' →
     player_chips g' = player_chips g ∧ dealer_button g' = dealer_button g ∧
     pot g' = 0 ∧ folded_players g' = [] ∧
     current_bet g' = big_blind g ∧ round_name g' = "preflop" ∧
     (∀ p, p ∈ player_ids g → player_bets g' !! p = Some 0) ∧
     (∀ p, p ∈ active_players g' ↔ p ∈ player_ids g ∧ get0 (player_chips g) p > 0)).
Proof.
  pose proof (players_with_chips_raised (player_chips g) (player_ids g)) as Hpw.
  unfold reset_hand.
  destruct (players_with_chips (player_chips g) (player_ids g))
    as [act|e|] eqn:E; simpl; [|idtac|done].
  - split; [|split; [done|split; [done|]]].
    + split; [done|]. intros (p & Hp & Hnone). destruct (Hpw p Hp). congruence.
    + intros g' [= <-]. simpl.
      apply players_with_chips_Ok in E as ->.
      do 6 (split; [done|]). split.
      * intros p Hp. rewrite zero_bets_lookup. by rewrite bool_decide_eq_true_2.
      * intros p. apply filter_has_chips_elem.
  - destruct Hpw as [-> Hex].
    split; [done|]. split; [congruence|]. split; [done|]. intros g' [=].
Qed.

(** X19.  A hand that returns leaves a game on which the next hand can be
    played: the seats and blinds are the same, every seat still has a stack
    and none is negative, and the button has moved one seat on, wrapping
    round the seat list. *)
Theorem play_hand_leaves_a_ready_game get_winners ds g0 g1 :
  ready g0 → play_hand get_winners ds g0 = Ok g1 →
  ready g1 ∧
  player_ids g1 = player_ids g0 ∧
  small_blind g1 = small_blind g0 ∧ big_blind g1 = big_blind g0 ∧
  dealer_button g1 = (dealer_button g0 + 1) `mod` len (player_ids g0) ∧
  0 ≤ dealer_button g1 < len (player_ids g1).
Proof.
  intros Hr H. unfold play_hand in H. ok_inv H as st Hst.
  destruct st as [g ds']. simpl in H.
  pose proof (play_streets_in_hand _ _ _ _ Hst) as Hin.
  pose proof (in_hand_inv _ _ Hr Hin) as [Hse Hso Hids _].
  pose proof (in_hand_config _ _ Hin) as (_ & Hsb & Hbb & Hdb).
  unfold settle in H. ok_inv H as g2 Hg2. ok_inv H as d Hd. simplify_eq.
  pose proof (distribute_pot_inv _ _ _ Hg2 Hso) as Hnn.
  assert (player_ids g2 = player_ids g ∧ small_blind g2 = small_blind g ∧
          big_blind g2 = big_blind g ∧ dealer_button g2 = dealer_button g ∧
          ∀ p, is_Some (player_chips g !! p) → is_Some (player_chips g2 !! p))
    as (I1 & I2 & I3 & I4 & I5).
  { unfold _distribute_pot in Hg2.
    destruct (determine_winners get_winners g); [by simplify_eq|].
    ok_inv Hg2 as chips Hchips. simplify_eq. simpl. repeat split; try done.
    intros p. exact (pay_winners_keys _ _ _ _ p Hchips). }
  unfold pymod in Hd. case_bool_decide as Hz; [done|]. simplify_eq. simpl.
  rewrite I1, I2, I3, I4, Hids, Hsb, Hbb, Hdb in *.
  split; [|repeat split; try done].
  - split; simpl; rewrite ?I1, ?I2, ?I3, ?Hids, ?Hsb, ?Hbb.
    + apply Hr.
    + intros p Hp. apply I5, Hse. by rewrite Hids.
    + apply Hnn.
    + apply Hr.
  - apply Z.mod_pos_bound. unfold len in *. lia.
  - apply Z.mod_pos_bound. unfold len in *. lia.
Qed.

(** * The completion test *)

(** X20.  On a state whose seats and dictionaries agree,
    [is_betting_round_complete] answers without raising, and it answers yes
    exactly when at most one player is active, or the acted-set has at least
    as many members as the active list and every active player with chips
    left has bet [current_bet]. *)
Theorem round_completion_rule g :
  seated g →
  (is_betting_round_complete g = Ok true ∨
   is_betting_round_complete g = Ok false) ∧
  (is_betting_round_complete g = Ok true ↔
   len (active_players g) ≤ 1 ∨
   (len (active_players g) ≤ Z.of_nat (size (players_acted g)) ∧
    ∀ p, p ∈ active_players g → get0 (player_chips g) p > 0 →
         get0 (player_bets g) p = current_bet g)).
Proof.
  intros Hs. rewrite (round_complete_decided g Hs). split.
  - destruct (bool_decide _); auto.
  - split.
    + intros [= H%bool_decide_eq_true].
      destruct H as [?|[? Hall]]; [by left|right]. split; [done|].
      rewrite Forall_forall in Hall. exact Hall.
    + intros H. apply f_equal, bool_decide_eq_true_2.
      destruct H as [?|[? Hall]]; [by left|right]. split; [done|].
      rewrite Forall_forall. exact Hall.
Qed.

Lemma one_actor_round_open g p :
  2 ≤ len (active_players g) → players_acted g = {[p]} →
  is_betting_round_complete g = Ok false.
Proof.
  intros Hn Hs. unfold is_betting_round_complete.
  rewrite bool_decide_eq_false_2 by lia.
  rewrite bool_decide_eq_true_2; [done|]. rewrite Hs, size_singleton. lia.
Qed.

(** X21.  A raise that leaves chips behind, and an all-in above the bet
    level, clear the acted-set down to the raiser; with two or more active
    players the round is then not complete, whoever had acted before. *)
Theorem reseeded_round_stays_open g p a amt c b :
  2 ≤ len (active_players g) →
  player_chips g !! p = Some c → player_bets g !! p = Some b →
  is_valid_action g p a amt = true →
  (a = RAISE ∧ amt - b < c) ∨ (a = ALL_IN ∧ current_bet g < b + c) →
  ∃ g', process_action g p a amt = Ok g' ∧
        players_acted g' = {[p]} ∧
        current_bet g' = (if decide (a = RAISE) then amt else b + c) ∧
        active_players g' = active_players g ∧
        is_betting_round_complete g' = Ok false.
Proof.
  intros Hn Hc Hb Hv Hcase.
  unfold process_action. rewrite Hv. unfold getitem. simpl. rewrite Hb. simpl.
  destruct Hcase as [[-> Hlt]|[-> Hlt]]; rewrite Hc; simpl.
  - rewrite bool_decide_eq_false_2 by lia.
    eexists. split; [reflexivity|].
    split; [done|]. split; [simpl; lia|]. split; [done|].
    by apply (one_actor_round_open _ p).
  - rewrite bool_decide_eq_true_2 by lia.
    eexists. split; [reflexivity|].
    split; [done|]. split; [done|]. split; [done|].
    by apply (one_actor_round_open _ p).
Qed.


(** * The further theorems at concrete hands *)

Lemma limp0_in_betting : in_betting three limp0.
Proof.
  apply (in_betting_step three three_blinds).
  - apply in_betting_start. vm_compute. reflexivity.
  - apply bstep_round. vm_compute. reflexivity.
Qed.

Lemma limp0_call : process_action limp0 "P1" CALL 0 = Ok (set_current_player_index 1 limp1).
Proof. vm_compute. reflexivity. Qed.

Lemma limp0_view_shown : get_game_state limp0 = Ok limp0_view.
Proof. vm_compute. reflexivity. Qed.

Lemma squeezed_view_shown : get_game_state squeezed = Ok squeezed_view.
Proof. vm_compute. reflexivity. Qed.

Lemma lone_in_hand : in_hand three lone.
Proof.
  apply (run_betting_round_in_hand three [(FOLD, 0); (FOLD, 0)] three_blinds lone []).
  - vm_compute. reflexivity.
  - apply start_hand_in_hand. vm_compute. reflexivity.
Qed.

Lemma elem_of_decided (x : string) (l : list string) :
  bool_decide (x ∈ l) = true → x ∈ l.
Proof. apply bool_decide_eq_true. Qed.

(** P1's call in [limp0] leaves P0 and P2 as they were. *)
Lemma action_touches_only_the_actor_witness :
  process_action limp0 "P1" CALL 0 = Ok (set_current_player_index 1 limp1) ∧
  "P1" ∈ players_acted (set_current_player_index 1 limp1) ∧
  player_ids (set_current_player_index 1 limp1) = player_ids limp0.
Proof.
  split; [exact limp0_call|].
  destruct (action_touches_only_the_actor _ _ _ _ _ limp0_call)
    as (_ & _ & Hacted & Hids & _).
  split; [exact Hacted | exact Hids].
Defined.

(** A request in the name of a player nobody seated. *)
Lemma process_action_key_errors_witness :
  player_bets limp0 !! "nobody" = None ∧
  process_action limp0 "nobody" FOLD 0 = Raised KeyError.
Proof.
  assert (player_bets limp0 !! "nobody" = None) as H by (vm_compute; reflexivity).
  split; [exact H|].
  apply (proj1 (process_action_key_errors limp0 "nobody" FOLD 0)). left. exact H.
Defined.

(** P2's raise to 1000 in [limp1]. *)
Lemma valid_raise_lands_on_amount_witness :
  is_valid_action limp1 "P2" RAISE 1000 = true ∧
  ∃ g', process_action limp1 "P2" RAISE 1000 = Ok g' ∧
        current_bet limp1 + big_blind limp1 ≤ 1000 ∧
        current_bet g' = 1000 ∧
        player_bets g' !! "P2" = Some 1000 ∧
        player_chips g' !! "P2" = Some (980 - (1000 - 20)) ∧
        pot g' = pot limp1 + (1000 - 20) ∧
        "P2" ∈ active_players g'.
Proof.
  split; [vm_compute; reflexivity|].
  apply (valid_raise_lands_on_amount limp1 "P2" 1000 980 20).
  - vm_compute. discriminate.
  - vm_compute. reflexivity.
  - vm_compute. reflexivity.
  - vm_compute. reflexivity.
Defined.

Lemma current_bet_never_drops_witness :
  process_action limp1 "P2" RAISE 1000 = Ok shove ∧
  current_bet limp1 ≤ current_bet shove.
Proof.
  assert (process_action limp1 "P2" RAISE 1000 = Ok shove) as H
    by (vm_compute; reflexivity).
  split; [exact H|].
  apply (current_bet_never_drops limp1 "P2" RAISE 1000 shove); [|exact H].
  vm_compute. discriminate.
Defined.

Lemma covered_call_matches_witness :
  is_valid_action limp0 "P1" CALL 0 = true ∧
  ∃ g', process_action limp0 "P1" CALL 0 = Ok g' ∧
        player_bets g' !! "P1" = Some (current_bet g') ∧
        current_bet g' = current_bet limp0 ∧
        player_chips g' !! "P1"
          = Some (990 - calculate_bet_amount (current_bet limp0) 10) ∧
        pot g' = pot limp0 + calculate_bet_amount (current_bet limp0) 10 ∧
        calculate_bet_amount (current_bet g') (current_bet g') = 0 ∧
        players_acted g' = {["P1"]} ∪ players_acted limp0.
Proof.
  split; [vm_compute; reflexivity|].
  apply (covered_call_matches limp0 "P1" 990 10).
  - vm_compute. reflexivity.
  - vm_compute. reflexivity.
  - vm_compute. reflexivity.
  - vm_compute. discriminate.
Defined.

Lemma dealt_in_players_are_active_or_folded_witness :
  ready three ∧ in_hand three lone ∧
  ("P0" ∈ active_players lone ∨ "P0" ∈ folded_players lone).
Proof.
  split; [exact three_ready|]. split; [exact lone_in_hand|].
  destruct (dealt_in_players_are_active_or_folded three lone three_ready lone_in_hand)
    as (_ & H & _).
  apply (H "P0").
  - apply elem_of_decided. vm_compute. reflexivity.
  - vm_compute. reflexivity.
Defined.

Lemma stake_within_starting_stack_witness :
  ready three ∧ in_hand three limp3 ∧
  get0 (player_chips limp3) "P0" + get0 (player_bets limp3) "P0"
    ≤ get0 (player_chips three) "P0".
Proof.
  split; [exact three_ready|]. split; [exact limp3_in_hand|].
  apply (stake_within_starting_stack three limp3 "P0" three_ready limp3_in_hand).
Defined.

Lemma betting_moves_chips_forward_witness :
  ready short ∧ small_blind short ≤ big_blind short ∧ in_betting short squeezed ∧
  process_action squeezed "P0" CALL 0
    = Ok (set_folded_players ["P0"]
           (set_active_players ["P1"; "P2"]
             (set_players_acted {["P0"; "P2"]} squeezed))) ∧
  pot squeezed ≤ 230.
Proof.
  assert (small_blind short ≤ big_blind short) as Hsb by (vm_compute; discriminate).
  assert (process_action squeezed "P0" CALL 0
          = Ok (set_folded_players ["P0"]
                 (set_active_players ["P1"; "P2"]
                   (set_players_acted {["P0"; "P2"]} squeezed)))) as H
    by (vm_compute; reflexivity).
  split; [exact short_ready|]. split; [exact Hsb|].
  split; [exact squeezed_in_betting|]. split; [exact H|].
  destruct (betting_moves_chips_forward _ _ _ _ _ _
              short_ready Hsb squeezed_in_betting H) as (_ & _ & Hpot & _).
  exact Hpot.
Defined.

Lemma validated_action_is_accepted_witness :
  get_game_state limp0 = Ok limp0_view ∧
  validate_action CALL 0 limp0_view "P1" = Ok true ∧
  is_valid_action limp0 "P1" CALL 0 = true ∧
  get_current_player limp0 = Ok "P1".
Proof.
  assert (validate_action CALL 0 limp0_view "P1" = Ok true) as Hv
    by (vm_compute; reflexivity).
  split; [exact limp0_view_shown|]. split; [exact Hv|].
  apply (validated_action_is_accepted three limp0 limp0_view "P1" CALL 0).
  - exact three_ready.
  - exact (in_betting_in_hand _ _ limp0_in_betting).
  - exact limp0_view_shown.
  - exact Hv.
Defined.

Lemma legal_actions_are_accepted_witness :
  get_legal_actions limp0_view "P1" = Ok [FOLD; CALL; RAISE; ALL_IN] ∧
  is_valid_action limp0 "P1" CALL 0 = true ∧
  validate_action CALL 0 limp0_view "P1" = Ok true.
Proof.
  assert (get_legal_actions limp0_view "P1" = Ok [FOLD; CALL; RAISE; ALL_IN]) as Hla
    by (vm_compute; reflexivity).
  split; [exact Hla|].
  assert (small_blind three ≤ big_blind three) as Hsb by (vm_compute; discriminate).
  destruct (legal_actions_are_accepted three limp0 limp0_view "P1" _
              three_ready Hsb limp0_in_betting limp0_view_shown Hla) as [H _].
  apply (H CALL).
  - apply (bool_decide_unpack _). vm_compute. reflexivity.
  - discriminate.
Defined.

Lemma all_in_player_is_offered_fold_only_witness :
  player_chips squeezed !! "P1" = Some 0 ∧
  player_bets squeezed !! "P1" = Some 30 ∧ 30 < current_bet squeezed ∧
  get_legal_actions squeezed_view "P1" = Ok [FOLD] ∧
  is_valid_action squeezed "P1" CALL 0 = true.
Proof.
  assert (player_chips squeezed !! "P1" = Some 0) as Hc by (vm_compute; reflexivity).
  assert (player_bets squeezed !! "P1" = Some 30) as Hb by (vm_compute; reflexivity).
  assert (30 < current_bet squeezed) as Hlt by (vm_compute; reflexivity).
  split; [exact Hc|]. split; [exact Hb|]. split; [exact Hlt|].
  destruct (all_in_player_is_offered_fold_only short squeezed squeezed_view "P1" 30)
    as (Hla & Hv & _).
  - exact short_ready.
  - exact (in_betting_in_hand _ _ squeezed_in_betting).
  - exact squeezed_view_shown.
  - reflexivity.
  - apply elem_of_decided. vm_compute. reflexivity.
  - exact Hc.
  - exact Hb.
  - exact Hlt.
  - split; [exact Hla | exact Hv].
Defined.

Lemma betting_round_ends_matched_witness :
  _run_betting_round [(CALL, 0); (CHECK, 0); (CALL, 0)] three_blinds = Ok (limp3, []) ∧
  get0 (player_bets limp3) "P0" = current_bet limp3.
Proof.
  assert (_run_betting_round [(CALL, 0); (CHECK, 0); (CALL, 0)] three_blinds
          = Ok (limp3, [])) as Hrun by (vm_compute; reflexivity).
  split; [exact Hrun|].
  apply (betting_round_ends_matched three [(CALL, 0); (CHECK, 0); (CALL, 0)]
           three_blinds limp3 [] "P0" three_ready).
  - apply start_hand_in_hand. vm_compute. reflexivity.
  - apply (bool_decide_unpack _). vm_compute. reflexivity.
  - exact Hrun.
  - vm_compute. reflexivity.
  - apply elem_of_decided. vm_compute. reflexivity.
  - vm_compute. reflexivity.
Defined.

Lemma play_hand_never_names_showdown_witness :
  play_hand id odd_decisions odd = Ok odd_final ∧
  round_name odd_final ∈ ["preflop"; "flop"; "turn"; "river"].
Proof.
  split; [exact odd_hand|].
  exact (play_hand_never_names_showdown id odd_decisions odd odd_final odd_hand).
Defined.

Lemma last_player_takes_the_pot_witness :
  active_players lone = ["P2"] ∧
  ∃ g' c, settle id lone = Ok g' ∧
          player_chips lone !! "P2" = Some c ∧
          player_chips g' !! "P2" = Some (c + pot lone) ∧
          (∀ q, q ≠ "P2" → player_chips g' !! q = player_chips lone !! q) ∧
          pot g' = 0 ∧ total_chips g' = total_chips three.
Proof.
  split; [reflexivity|].
  exact (last_player_takes_the_pot id three lone "P2" three_ready lone_in_hand
           eq_refl).
Defined.

Lemma every_active_player_gets_a_turn_witness :
  "P0" ∈ active_players limp0 ∧
  ∃ k, (k < length (active_players limp0))%nat ∧
       get_current_player (turns k limp0) = Ok "P0".
Proof.
  assert ("P0" ∈ active_players limp0) as H
    by (apply elem_of_decided; vm_compute; reflexivity).
  split; [exact H|].
  exact (proj2 (every_active_player_gets_a_turn limp0 "P0" H)).
Defined.

(** P0 as P1 sees it: two seats after the player to act, and last. *)
Lemma position_info_counts_from_current_witness :
  position (get_position_info limp0_view "P0") = (0 - 1) `mod` 3 ∧
  players_after (get_position_info limp0_view "P0")
    = 3 - 1 - position (get_position_info limp0_view "P0").
Proof.
  destruct (position_info_counts_from_current limp0_view "P0") as [_ H].
  destruct (H ltac:(apply (bool_decide_unpack _); vm_compute; reflexivity)
              1%nat 0%nat eq_refl eq_refl) as (Hpos & _ & _ & Hafter & _).
  split; [exact Hpos | exact Hafter].
Defined.

Lemma active_opponents_are_the_others_witness :
  "P1" ∈ gs_active_players limp0_view ∧
  len (get_active_opponents limp0_view "P1") = len (gs_active_players limp0_view) - 1.
Proof.
  assert ("P1" ∈ gs_active_players limp0_view) as H
    by (apply elem_of_decided; vm_compute; reflexivity).
  split; [exact H|].
  destruct (active_opponents_are_the_others limp0_view "P1") as (_ & _ & Hn).
  apply Hn; [|exact H].
  apply (bool_decide_unpack _). vm_compute. reflexivity.
Defined.

(** A seat without a stack. *)
Lemma reset_hand_deals_in_the_funded_seats_witness :
  player_chips (set_player_chips ∅ three) !! "P0" = None ∧
  reset_hand (set_player_chips ∅ three) = Raised KeyError.
Proof.
  split; [reflexivity|].
  apply (proj1 (reset_hand_deals_in_the_funded_seats (set_player_chips ∅ three))).
  exists "P0". split; [|reflexivity].
  apply elem_of_decided. vm_compute. reflexivity.
Defined.

Lemma play_hand_leaves_a_ready_game_witness :
  play_hand id odd_decisions odd = Ok odd_final ∧
  ready odd_final ∧ dealer_button odd_final = (dealer_button odd + 1) `mod` 3.
Proof.
  split; [exact odd_hand|].
  destruct (play_hand_leaves_a_ready_game id odd_decisions odd odd_final
              odd_ready odd_hand) as (Hr & _ & _ & _ & Hd & _).
  split; [exact Hr | exact Hd].
Defined.

Lemma round_completion_rule_witness :
  seated limp3 ∧
  (is_betting_round_complete limp3 = Ok true ∨
   is_betting_round_complete limp3 = Ok false).
Proof.
  pose proof (inv_seated _ _ (in_hand_inv _ _ three_ready limp3_in_hand)) as Hs.
  split; [exact Hs|].
  exact (proj1 (round_completion_rule limp3 Hs)).
Defined.

(** P1's all-in for 30 over a bet of 20 in [short_preflop]. *)
Lemma reseeded_round_stays_open_witness :
  is_valid_action short_preflop "P1" ALL_IN 0 = true ∧
  ∃ g', process_action short_preflop "P1" ALL_IN 0 = Ok g' ∧
        players_acted g' = {["P1"]} ∧
        current_bet g' = (if decide (ALL_IN = RAISE) then 0 else 10 + 20) ∧
        active_players g' = active_players short_preflop ∧
        is_betting_round_complete g' = Ok false.
Proof.
  assert (is_valid_action short_preflop "P1" ALL_IN 0 = true) as Hv
    by (vm_compute; reflexivity).
  split; [exact Hv|].
  apply (reseeded_round_stays_open short_preflop "P1" ALL_IN 0 20 10).
  - vm_compute. discriminate.
  - vm_compute. reflexivity.
  - vm_compute. reflexivity.
  - exact Hv.
  - right. split; [reflexivity|]. vm_compute. reflexivity.
Defined.

(** * Every betting round comes to an end *)

Lemma sum_over_elem_le (m : gmap string Z) (ids : list string) (p : string) :
  (∀ q c, m !! q = Some c → 0 ≤ c) → p ∈ ids → get0 m p ≤ sum_over m ids.
Proof.
  intros Hn. induction ids as [|x ids IH]; simpl.
  - intros H. by apply elem_of_nil in H.
  - pose proof (sum_over_nonneg m ids Hn).
    assert (0 ≤ get0 m x).
    { unfold get0. destruct (m !! x) eqn:E; simpl; [by eapply Hn|done]. }
    rewrite elem_of_cons. intros [->|Hin]; [|specialize (IH Hin)];
      unfold sum_over in *; simpl; lia.
Qed.

(** The level an action leaves is the old one, or at most what the actor
    had in stack and bet together. *)
Lemma process_action_bet_cap g p a amt g' :
  process_action g p a amt = Ok g' →
  current_bet g' = current_bet g ∨
  (p ∈ active_players g ∧
   current_bet g' ≤ get0 (player_chips g) p + get0 (player_bets g) p).
Proof.
  intros H.
  destruct (decide (p ∈ active_players g)) as [Hin|Hout].
  - action_branches H; rewrite ?(get0_Some _ _ _ Hb);
      try match goal with
        | Hc : player_chips _ !! _ = Some _ |- _ => rewrite (get0_Some _ _ _ Hc)
        end;
      try (by left);
      match goal with |- ?A ∨ _ => destruct (decide A); [by left|right] end;
      (split; [done|lia]).
  - left. unfold process_action, is_valid_action in H.
    unfold in_list in H. rewrite (bool_decide_eq_false_2 (p ∈ active_players g)) in H by done.
    simpl in H. ok_inv H as b Hb.
    rewrite (bool_decide_eq_false_2 (p ∈ active_players g)) in H by done.
    by simplify_eq.
Qed.

Lemma start_betting_round_bet g g' :
  _start_betting_round g = Ok g' →
  current_bet g' = 0 ∨ current_bet g' = current_bet g.
Proof.
  unfold _start_betting_round. intros H. ok_inv H as i Hi.
  case_bool_decide; simplify_eq; simpl; auto.
Qed.

Lemma in_hand_bet_bound g0 g :
  ready g0 → in_hand g0 g → current_bet g ≤ bet_bound g0.
Proof.
  intros Hr Hin. unfold bet_bound.
  pose proof (sum_over_nonneg (player_chips g0) (player_ids g0) (ready_nonneg _ Hr)) as Ht.
  fold (total_chips g0) in Ht.
  induction Hin as [g Hreset|g g' Hin IH Hstep].
  - unfold reset_hand in Hreset. ok_inv Hreset as l Hl. simplify_eq. simpl. lia.
  - destruct Hstep as [g g' H|g g' H|g p a amt g' H|g|g].
    + apply post_blinds_frame in H. destruct H as (_&_&_&_&_&->&_). done.
    + apply start_betting_round_bet in H. destruct H as [->| ->]; [lia|done].
    + destruct (process_action_bet_cap _ _ _ _ _ H) as [->|[Hp Hle]]; [done|].
      pose proof (in_hand_stake _ _ Hr Hin p).
      destruct (in_hand_lists _ _ Hr Hin) as (_&_&Hact).
      destruct (Hact _ Hp) as [Hids _].
      pose proof (sum_over_elem_le _ _ _ (ready_nonneg _ Hr) Hids).
      unfold total_chips. lia.
    + destruct (advance_to_next_player_frame g) as (_&_&_&_&_&->&_). done.
    + destruct (advance_to_next_round_frame g) as (_&_&_&_&->&_). done.
Qed.

(** One turn of the loop makes progress: a player leaves, or the level
    goes up, or the actor is settled and no settled player is unsettled. *)
Lemma turn_progress g p a amt g' :
  0 < big_blind g → p ∈ active_players g →
  process_action g p a amt = Ok g' →
  (len (active_players g') = len (active_players g) - 1 ∧
   current_bet g' = current_bet g) ∨
  (active_players g' = active_players g ∧ current_bet g < current_bet g') ∨
  (active_players g' = active_players g ∧ current_bet g' = current_bet g ∧
   settled g' p ∧ ∀ q, settled g q → settled g' q).
Proof.
  intros Hbb Hin H.
  pose proof (list_remove_first_length p _ Hin) as Hlen.
  destruct (is_valid_action g p a amt) eqn:Hv'.
  2:{ rewrite (process_action_invalid _ _ _ _ Hv') in H. left.
      action_branches H;
        try (simpl; split; [lia|done]);
        match goal with
        | Hf : in_list _ _ = false |- _ => by apply in_list_false in Hf
        end. }
  pose proof (is_valid_action_active _ _ _ _ Hv') as [Hact Hnf].
  unfold is_valid_action in Hv'.
  rewrite (proj2 (in_list_true _ _) Hact), (proj2 (in_list_false _ _) Hnf) in Hv'.
  simpl in Hv'.
  action_branches H;
    try match goal with
      | Hf : in_list _ _ = false |- _ => by apply in_list_false in Hf
      end;
    try rewrite ?andb_true_iff, ?bool_decide_eq_true in Hv';
    repeat match goal with
      | Hx : _ !! _ = Some _ |- _ => rewrite (get0_Some _ _ _ Hx) in Hv'
      end;
    first
      [ by (left; simpl; split; [lia|done])
      | by (right; left; split; [done|lia])
      | right; right; split; [done|]; split; [done|]; split;
        [ split; [simpl; set_solver|];
          unfold matched; simpl;
          rewrite ?get0_insert_eq, ?(get0_Some _ _ _ Hb); lia
        | intros q [Hq Hm]; split; [simpl; set_solver|];
          unfold matched in *; simpl in *;
          destruct (decide (p = q)) as [<-|Hne];
          rewrite ?get0_insert_eq, ?get0_insert_ne by done;
          rewrite ?(get0_Some _ _ _ Hb); [lia|done] ] ].
Qed.

Lemma active_len_le g : seated g → len (active_players g) ≤ len (player_ids g).
Proof.
  intros Hs. unfold len.
  assert (active_players g ⊆+ player_ids g) as H.
  { apply NoDup_submseteq; [apply Hs|]. intros p. apply Hs. }
  apply submseteq_length in H. lia.
Qed.

(** Once the whole table behind the cursor is settled the round is judged
    complete. *)
Lemma lap_full_complete g :
  seated g → lap g (len (active_players g)) →
  is_betting_round_complete g = Ok true.
Proof.
  intros Hs Hlap. apply all_acted_and_matched_complete; [done|]. right.
  assert (∀ p, p ∈ active_players g → settled g p) as Hall.
  { intros p Hp. apply list_elem_of_lookup in Hp as [j Hj].
    pose proof (lookup_lt_Some _ _ _ Hj) as Hlt.
    set (n := len (active_players g)) in *.
    assert (0 < n) as Hn by (unfold n, len; lia).
    set (i := (current_player_index g - 1 - Z.of_nat j) `mod` n + 1).
    pose proof (Z.mod_pos_bound (current_player_index g - 1 - Z.of_nat j) n Hn).
    destruct (Hlap i) as (q & Hq & Hset); [unfold i; lia|].
    assert ((current_player_index g - i) `mod` n = Z.of_nat j) as Hpos.
    { unfold i.
      replace (current_player_index g
               - ((current_player_index g - 1 - Z.of_nat j) `mod` n + 1))
        with (current_player_index g - 1
              - (current_player_index g - 1 - Z.of_nat j) `mod` n) by lia.
      rewrite Zminus_mod_idemp_r.
      replace (current_player_index g - 1 - (current_player_index g - 1 - Z.of_nat j))
        with (Z.of_nat j) by lia.
      apply Z.mod_small. unfold n, len. lia. }
    change (len (active_players g)) with n in Hq.
    rewrite Hpos, Nat2Z.id in Hq. by simplify_eq. }
  split; [intros p Hp; by apply Hall|].
  apply Forall_forall. intros p Hp. by apply Hall.
Qed.

(** After a turn that settles the actor and moves neither the list nor the
    level, the lap behind the cursor is one seat longer. *)
Lemma lap_advance g g1 k p :
  active_players g1 = active_players g →
  current_player_index g1 = current_player_index g →
  active_players g
    !! Z.to_nat (current_player_index g `mod` len (active_players g)) = Some p →
  lap g k → settled g1 p → (∀ q, settled g q → settled g1 q) →
  lap (advance_to_next_player g1) (k + 1).
Proof.
  intros Hact Hidx Hp Hlap Hsp Hkeep i Hi.
  pose proof (lookup_lt_Some _ _ _ Hp) as Hlt.
  assert (0 < len (active_players g)) as Hn by (unfold len; lia).
  assert (∀ q, settled g1 q → settled (advance_to_next_player g1) q) as Hadv.
  { intros q [Hq Hm].
    pose proof (advance_to_next_player_frame g1)
      as (_&_&_&_&_&Hcb&_&_&Hch&Hbe&_&Hpa).
    split; [by rewrite Hpa|]. unfold matched. by rewrite Hcb, Hch, Hbe. }
  assert (active_players (advance_to_next_player g1) = active_players g ∧
          current_player_index (advance_to_next_player g1)
          = (current_player_index g + 1) `mod` len (active_players g)) as [Ha Hi'].
  { assert (0 < len (active_players g1)) as Hn1 by (by rewrite Hact).
    unfold advance_to_next_player.
    destruct (active_players g1) as [|x l] eqn:E1;
      [unfold len in Hn1; simpl in Hn1; lia|].
    simpl. rewrite Hidx, <-Hact, ?E1. done. }
  rewrite Ha, Hi'. rewrite Zminus_mod_idemp_l.
  destruct (decide (i = 1)) as [->|Hne].
  - exists p. split; [|by apply Hadv].
    by replace (current_player_index g + 1 - 1) with (current_player_index g) by lia.
  - destruct (Hlap (i - 1)) as (q & Hq & Hset); [lia|].
    exists q. split; [|by apply Hadv, Hkeep].
    by replace (current_player_index g + 1 - i)
      with (current_player_index g - (i - 1)) by lia.
Qed.

Lemma betting_loop_done g ds :
  is_betting_round_complete g = Ok true → betting_loop ds g = Ok (g, ds).
Proof. intros H. destruct ds as [|[??]?]; simpl; by rewrite H. Qed.

(** The body of the loop while the round is open: the player under the
    cursor is asked and the cursor moves on. *)
Lemma betting_loop_turn g :
  seated g → is_betting_round_complete g = Ok false →
  ∃ p, active_players g
         !! Z.to_nat (current_player_index g `mod` len (active_players g)) = Some p ∧
       ((p = "" ∧ ∀ ds, betting_loop ds g = Ok (g, ds)) ∨
        (betting_loop [] g = Starved ∧
         ∀ a amt ds,
           betting_loop ((a, amt) :: ds) g =
           do g1 <- process_action g p a amt;
           betting_loop ds (advance_to_next_player g1))).
Proof.
  intros Hs Hopen.
  assert (0 < len (active_players g)) as Hn.
  { unfold is_betting_round_complete in Hopen. case_bool_decide; [done|lia]. }
  assert (active_players g ≠ []) as Hne.
  { intros E. rewrite E in Hn. unfold len in Hn. simpl in Hn. lia. }
  destruct (list_item_in_range (active_players g)
              (current_player_index g `mod` len (active_players g)))
    as (p & Hitem & Hp); [by apply Z.mod_pos_bound|].
  assert (get_current_player g = Ok p) as Hcur
    by (by rewrite get_current_player_nonempty).
  exists p. split; [done|].
  destruct (decide (p = "")) as [Hemp|Hemp].
  - left. split; [done|]. intros ds.
    destruct ds as [|[??]?]; simpl; rewrite Hopen, Hcur; simpl;
      by rewrite bool_decide_eq_true_2.
  - right.
    assert (p ∈ player_ids g) as Hin
      by (by eapply (active_seated _ Hs), list_elem_of_lookup_2).
    destruct (get_legal_actions_total
                (mkGameState (pot g) (current_bet g) (player_chips g) (player_bets g)
                   (active_players g) p (round_name g) (big_blind g) (big_blind g)
                   (small_blind g)) p) as [la Hla]; try (by apply Hs).
    destruct (getitem_Some (player_chips g) p) as (c & Hc & _); [by apply Hs|].
    destruct (getitem_Some (player_bets g) p) as (b & Hb & _); [by apply Hs|].
    split; [|intros a amt ds]; simpl; rewrite Hopen; simpl;
      unfold get_game_state; rewrite Hcur; simpl;
      rewrite (bool_decide_eq_false_2 (p = "")) by done;
      rewrite Hla; simpl; rewrite Hc, Hb; done.
Qed.

Section Termination.
Variable g0 : PokerGame.
Hypothesis Hready : ready g0.
Hypothesis Hblind : 0 < big_blind g0.

(** The loop returns once it has been given as many decisions as the rank
    of its state, and hands on what it did not use. *)
Lemma betting_loop_finishes (m : nat) :
  ∀ g k (extra : nat) ds,
    in_hand g0 g → 0 ≤ k ≤ len (active_players g) → lap g k →
    rank g0 g k ≤ Z.of_nat m → (m + extra ≤ length ds)%nat →
    ∃ g' ds', betting_loop ds g = Ok (g', ds') ∧ (extra ≤ length ds')%nat.
Proof.
  induction m as [|m IH]; intros g k extra ds Hin Hk Hlap Hrank Hlen.
  all: pose proof (in_hand_inv _ _ Hready Hin) as Hinv.
  all: pose proof (inv_seated _ _ Hinv) as Hs.
  all: pose proof (in_hand_bet_bound _ _ Hready Hin) as Hcb.
  all: pose proof (active_len_le _ Hs) as Hn0; rewrite (inv_ids _ _ Hinv) in Hn0.
  all: destruct (is_betting_round_complete g) as [[|]| |] eqn:Hopen;
    [exists g, ds; split; [by apply betting_loop_done|lia]
    | | by rewrite (round_complete_decided g Hs) in Hopen
      | by rewrite (round_complete_decided g Hs) in Hopen].
  all: assert (2 ≤ len (active_players g)) as Hn
    by (unfold is_betting_round_complete in Hopen; case_bool_decide; [done|lia]).
  all: assert (0 ≤ bet_bound g0) as HB
    by (pose proof (current_bet_nonneg _ (inv_solvent _ _ Hinv)); lia).
  - exfalso. unfold rank in Hrank. nia.
  - destruct (betting_loop_turn g Hs Hopen) as (p & Hp & [[_ Hstop]|[_ Hturn]]).
    { exists g, ds. split; [apply Hstop|lia]. }
    destruct ds as [|[a amt] ds]; [simpl in Hlen; lia|].
    assert (p ∈ active_players g) as Hact by (by eapply list_elem_of_lookup_2).
    destruct (process_action_total g p a amt Hs (active_seated _ Hs _ Hact))
      as [g1 Hg1].
    rewrite Hturn, Hg1. cbn [obind].
    assert (in_hand g0 g1) as Hin1 by (eapply in_hand_step; [done|by econstructor]).
    assert (in_hand g0 (advance_to_next_player g1)) as Hin2
      by (eapply in_hand_step; [done|by constructor]).
    pose proof (in_hand_bet_bound _ _ Hready Hin1) as Hcb1.
    pose proof (in_hand_config _ _ Hin) as (_ & _ & Hbb & _).
    pose proof (advance_to_next_player_frame g1)
      as (_&_&_&_&_&Hacb&Haact&_).
    pose proof (process_action_frame _ _ _ _ _ Hg1) as (_&_&_&_&_&Hidx&_).
    assert (∀ k', rank g0 (advance_to_next_player g1) k' = rank g0 g1 k') as Hrk
      by (intros; unfold rank; by rewrite Hacb, Haact).
    simpl in Hlen.
    destruct (turn_progress g p a amt g1) as [[Hl1 Hb1]|[[Ha1 Hb1]|(Ha1&Hb1&Hsp&Hkeep)]];
      [lia|done|done| | |].
    + apply (IH _ 0 extra); [done|rewrite Haact; lia|intros i Hi; lia| |lia].
      rewrite Hrk. unfold rank in *. rewrite Hl1, Hb1. nia.
    + apply (IH _ 0 extra); [done|rewrite Haact, Ha1; lia|intros i Hi; lia| |lia].
      rewrite Hrk. unfold rank in *. rewrite Ha1. nia.
    + assert (k < len (active_players g)) as Hklt.
      { destruct (decide (k = len (active_players g))) as [->|]; [|lia].
        rewrite (lap_full_complete g Hs Hlap) in Hopen. done. }
      apply (IH _ (k + 1) extra);
        [done|rewrite Haact, Ha1; lia|by eapply lap_advance| |lia].
      rewrite Hrk. unfold rank in *. rewrite Ha1, Hb1. lia.
Qed.

Lemma rank_within_budget g :
  in_hand g0 g → rank g0 g 0 ≤ Z.of_nat (round_budget g0).
Proof.
  intros Hin.
  pose proof (in_hand_inv _ _ Hready Hin) as Hinv.
  pose proof (active_len_le _ (inv_seated _ _ Hinv)) as Hn0.
  rewrite (inv_ids _ _ Hinv) in Hn0.
  pose proof (in_hand_bet_bound _ _ Hready Hin) as Hcb.
  pose proof (current_bet_nonneg _ (inv_solvent _ _ Hinv)) as Hcb0.
  assert (0 ≤ len (active_players g)) by (unfold len; lia).
  assert (0 ≤ len (player_ids g0)) by (unfold len; lia).
  unfold round_budget, rank.
  set (n := len (active_players g)) in *. set (N := len (player_ids g0)) in *.
  set (B := bet_bound g0) in *. set (c := current_bet g) in *.
  assert (0 ≤ N * (B + 1) * (N + 1)) by (apply Z.mul_nonneg_nonneg; nia).
  assert (0 ≤ B * (N + 1)) by nia.
  rewrite Z2Nat.id by lia.
  assert (n * (B + 1) * (N + 1) ≤ N * (B + 1) * (N + 1))
    by (apply Z.mul_le_mono_nonneg_r; nia).
  assert ((B - c) * (N + 1) ≤ B * (N + 1))
    by (apply Z.mul_le_mono_nonneg_r; lia).
  lia.
Qed.

(** A betting round returns once [round_budget] decisions are at hand and
    uses no more than that. *)
Lemma street_finishes adv g (extra : nat) ds :
  in_hand g0 g → (round_budget g0 + extra ≤ length ds)%nat →
  ∃ g' ds', street adv (g, ds) = Ok (g', ds') ∧ (extra ≤ length ds')%nat ∧
            in_hand g0 g'.
Proof.
  intros Hin Hlen. unfold street. case_bool_decide as Hn.
  2:{ exists g, ds. split; [done|]. split; [lia|done]. }
  set (g1 := if adv then advance_to_next_round g else g).
  assert (in_hand g0 g1) as Hin1.
  { unfold g1. destruct adv; [|done].
    eapply in_hand_step; [done|]. apply step_next_round. }
  assert (active_players g1 = active_players g) as Hact.
  { unfold g1. destruct adv; [|done].
    by pose proof (advance_to_next_round_frame g) as (_&_&_&_&_&->&_). }
  destruct (start_betting_round_total g1) as [g2 Hg2].
  { rewrite Hact. intros E. rewrite E in Hn. unfold len in Hn. simpl in Hn. lia. }
  assert (in_hand g0 g2) as Hin2
    by (eapply in_hand_step; [done|by apply step_round]).
  destruct (betting_loop_finishes (round_budget g0) g2 0 extra ds)
    as (g' & ds' & Hloop & Hleft); [done| |intros i Hi; lia| |done|].
  { unfold len. lia. }
  { by apply rank_within_budget. }
  exists g', ds'. unfold _run_betting_round. rewrite Hg2. cbn [obind].
  split; [done|]. split; [done|].
  eapply (street_in_hand g0 adv (g, ds)); [|done].
  unfold street. rewrite bool_decide_eq_true_2 by done.
  unfold _run_betting_round. fold g1. rewrite Hg2. cbn [obind]. done.
Qed.

End Termination.

Lemma settle_total get_winners g0 g :
  hand_inv g0 g → honest_evaluator get_winners → 0 < len (player_ids g0) →
  ∃ g', settle get_winners g = Ok g'.
Proof.
  intros Hinv Hev Hids.
  destruct (determine_winners_seated _ _ Hev (inv_seated _ _ Hinv)) as [_ Hsub].
  unfold settle, _distribute_pot.
  assert (len (player_ids g) ≠ 0) as Hlen by (rewrite (inv_ids _ _ Hinv); lia).
  destruct (determine_winners get_winners g) as [|w ws] eqn:Hws.
  - cbn [obind]. unfold pymod. rewrite bool_decide_eq_false_2 by done. eauto.
  - destruct (pay_winners_total (pot g `div` len (w :: ws)) (w :: ws)
                (player_chips g)) as [chips ->].
    { intros p Hp. by apply (inv_seated _ _ Hinv), Hsub. }
    cbn [obind]. unfold pymod. simpl. rewrite bool_decide_eq_false_2 by done. eauto.
Qed.

(** What [play_hand] does to the game, the cards left out: with a big
    blind above zero it returns as soon as the bots supply [hand_budget]
    decisions. *)
Lemma play_hand_returns get_winners ds g0 :
  ready g0 → 0 < big_blind g0 →
  0 ≤ dealer_button g0 < len (player_ids g0) →
  honest_evaluator get_winners →
  (hand_budget g0 ≤ length ds)%nat →
  ∃ g', play_hand get_winners ds g0 = Ok g'.
Proof.
  intros Hr Hbb Hd Hev Hlen. unfold play_hand, play_streets, hand_budget in *.
  destruct (start_hand_total _ Hr Hd) as [g Hg]. rewrite Hg. cbn [obind].
  pose proof (start_hand_in_hand _ _ Hg) as Hin.
  destruct (street_finishes g0 Hr Hbb false g (3 * round_budget g0) ds Hin)
    as (g1 & d1 & -> & Hl1 & Hin1); [lia|]. cbn [obind].
  destruct (street_finishes g0 Hr Hbb true g1 (2 * round_budget g0) d1 Hin1)
    as (g2 & d2 & -> & Hl2 & Hin2); [lia|]. cbn [obind].
  destruct (street_finishes g0 Hr Hbb true g2 (1 * round_budget g0) d2 Hin2)
    as (g3 & d3 & -> & Hl3 & Hin3); [lia|]. cbn [obind].
  destruct (street_finishes g0 Hr Hbb true g3 0 d3 Hin3)
    as (g4 & d4 & -> & Hl4 & Hin4); [lia|]. cbn [obind].
  simpl. apply (settle_total _ g0); [by apply in_hand_inv|done|lia].
Qed.

(** * A hand that never ends *)




Lemma penny_ready : ready penny.
Proof. apply ready_b_true. vm_compute. reflexivity. Qed.



(** * The deck *)

Lemma deal_hole_cards_enough players (deck : Deck) :
  (2 * length players ≤ deck)%nat →
  deal_hole_cards players deck = Ok (deck - 2 * length players)%nat.
Proof.
  revert deck. induction players as [|p ps IH]; intros deck Hd; simpl in *.
  - f_equal. lia.
  - destruct deck as [|[|deck]]; [lia|lia|]. simpl.
    rewrite IH by lia. f_equal. lia.
Qed.

Lemma deal_hole_cards_short players (deck : Deck) :
  (deck < 2 * length players)%nat →
  deal_hole_cards players deck = Raised IndexError.
Proof.
  revert deck. induction players as [|p ps IH]; intros deck Hd; simpl in *; [lia|].
  destruct deck as [|[|deck]]; [done|done|]. simpl. apply IH. lia.
Qed.

(** With the cards of the board still in the deck, moving to the next
    street draws them and does to the game what [advance_to_next_round]
    does. *)
Lemma advance_to_next_round_cards_enough g (deck : Deck) :
  (board_cards (round_name g) ≤ deck)%nat →
  ∃ deck' : Deck,
    advance_to_next_round_cards g deck = Ok (advance_to_next_round g, deck') ∧
    (board_cards (round_name (advance_to_next_round g)) ≤ deck')%nat.
Proof.
  unfold advance_to_next_round_cards, advance_to_next_round.
  intros Hd. repeat case_bool_decide;
    try match goal with H : round_name g = _ |- _ => rewrite H in Hd end.
  - change (board_cards "preflop") with 8%nat in Hd.
    destruct deck as [|[|[|[|deck]]]]; try lia.
    exists deck. split; [done|].
    change (board_cards (round_name (set_round_name "flop" g))) with 4%nat. lia.
  - change (board_cards "flop") with 4%nat in Hd.
    destruct deck as [|[|deck]]; try lia.
    exists deck. split; [done|].
    change (board_cards (round_name (set_round_name "turn" g))) with 2%nat. lia.
  - change (board_cards "turn") with 2%nat in Hd.
    destruct deck as [|[|deck]]; try lia.
    exists deck. split; [done|].
    change (board_cards (round_name (set_round_name "river" g))) with 0%nat. lia.
  - exists deck. split; [done|].
    change (board_cards (round_name (set_round_name "showdown" g))) with 0%nat. lia.
  - by exists deck.
Qed.

Lemma street_cards_enough adv g (deck : Deck) ds :
  (board_cards (round_name g) ≤ deck)%nat →
  ∃ deck' : Deck,
    street_cards adv (g, deck, ds)
    = (do r <- street adv (g, ds); Ok (r.1, deck', r.2)) ∧
    ∀ g' ds', street adv (g, ds) = Ok (g', ds') →
              (board_cards (round_name g') ≤ deck')%nat.
Proof.
  intros Hd. unfold street_cards.
  destruct (bool_decide (len (active_players g) > 1)) eqn:Hn.
  2:{ exists deck. unfold street. rewrite Hn. split; [done|].
      intros g' ds' [= <- <-]. done. }
  destruct adv.
  - destruct (advance_to_next_round_cards_enough g deck Hd) as (deck' & -> & Hd').
    exists deck'. cbn [obind fst snd]. split.
    + unfold street. rewrite Hn.
      by destruct (_run_betting_round ds (advance_to_next_round g)) as [[??]| |].
    + intros g' ds' H.
      unfold street in H. rewrite Hn in H.
      unfold _run_betting_round in H. ok_inv H as g1 Hg1.
      apply betting_loop_round_name in H.
      apply start_betting_round_frame in Hg1 as (_ & _ & _ & _ & Hrn & _).
      by rewrite H, Hrn.
  - exists deck. cbn [obind fst snd]. split.
    + unfold street. rewrite Hn.
      by destruct (_run_betting_round ds g) as [[??]| |].
    + intros g' ds' H.
      apply street_round_name in H as [H|[? _]]; [by rewrite H|done].
Qed.

(** A deck that holds two cards for every funded seat and eight for the
    board never runs out: the hand goes as [play_hand] has it. *)
Lemma play_hand_cards_enough (cards : nat) get_winners ds g0 :
  (2 * length (funded g0) + 8 ≤ cards)%nat →
  play_hand_cards cards get_winners ds g0 = play_hand get_winners ds g0.
Proof.
  intros Hc. unfold play_hand_cards, play_hand, play_streets,
    _start_hand_cards, _start_hand.
  destruct (reset_hand g0) as [g1| |] eqn:Hreset; [|done|done]. cbn [obind].
  pose proof (reset_hand_Ok _ _ Hreset) as Hg1.
  assert (active_players g1 = funded g0 ∧ round_name g1 = "preflop") as [Hact Hname]
    by (by rewrite Hg1).
  rewrite Hact, deal_hole_cards_enough by lia. cbn [obind].
  destruct (post_blinds g1) as [g2| |] eqn:Hblinds; [|done|done]. cbn [obind].
  destruct (list_item (player_ids g2) (dealer_button g2)); [|done|done].
  cbn [obind fst snd].
  apply post_blinds_frame in Hblinds as (_&_&_&_&Hname2&_).
  set (deck := (cards - 2 * length (funded g0))%nat).
  destruct (street_cards_enough false g2 deck ds) as (d1 & -> & H1).
  { rewrite Hname2, Hname. change (board_cards "preflop") with 8%nat.
    unfold deck. lia. }
  destruct (street false (g2, ds)) as [[x1 s1]| |]; [|done|done].
  cbn [obind fst snd].
  destruct (street_cards_enough true x1 d1 s1) as (d2 & -> & H2); [by eapply H1|].
  destruct (street true (x1, s1)) as [[x2 s2]| |]; [|done|done].
  cbn [obind fst snd].
  destruct (street_cards_enough true x2 d2 s2) as (d3 & -> & H3); [by eapply H2|].
  destruct (street true (x2, s2)) as [[x3 s3]| |]; [|done|done].
  cbn [obind fst snd].
  destruct (street_cards_enough true x3 d3 s3) as (d4 & -> & H4); [by eapply H3|].
  destruct (street true (x3, s3)) as [[x4 s4]| |]; [|done|done].
  done.
Qed.

(** A deck with fewer than two cards for every funded seat runs out while
    the hole cards are dealt. *)
Lemma play_hand_cards_short (cards : nat) get_winners ds g0 :
  (∀ p, p ∈ player_ids g0 → is_Some (player_chips g0 !! p)) →
  (cards < 2 * length (funded g0))%nat →
  play_hand_cards cards get_winners ds g0 = Raised IndexError.
Proof.
  intros Hk Hc. unfold play_hand_cards, _start_hand_cards, reset_hand.
  rewrite (players_with_chips_total _ _ Hk). cbn [obind]. simpl.
  fold (funded g0). by rewrite deal_hole_cards_short.
Qed.

(** * The blinds and the dealer's seat *)

(** C8, at a table with a seat that is out of chips.  [_start_hand] logs
    the player at [player_ids[dealer_button]] as the dealer and [play_hand]
    moves the button over the seat list, but [post_blinds] takes the same
    number as a position in the active list.  In [bust_seat] the seats are
    A, B, C, D, B has no chips and the button is on C: the two active seats
    after the dealer are D and A, yet A posts the small blind, the dealer C
    posts the big blind and D posts nothing. *)
Theorem dealer_posts_the_big_blind :
  list_item (player_ids bust_seat) (dealer_button bust_seat) = Ok "C" ∧
  ∃ g, _start_hand bust_seat = Ok g ∧
       active_players g = ["A"; "C"; "D"] ∧
       take 2 (active_after_dealer g) = ["D"; "A"] ∧
       player_bets g !! "A" = Some (small_blind bust_seat) ∧
       player_bets g !! "C" = Some (big_blind bust_seat) ∧
       player_bets g !! "D" = Some 0 ∧
       player_chips g !! "D" = Some 100 ∧
       pot g = small_blind bust_seat + big_blind bust_seat.
Proof.
  split; [vm_compute; reflexivity|].
  exists (set_pot 30 (set_current_bet 20
           (set_active_players ["A"; "C"; "D"]
           (set_player_chips (<["A" := 90]> (<["C" := 80]> (player_chips bust_seat)))
           (set_player_bets (<["A" := 10]> (<["C" := 20]> (player_bets bust_seat)))
              bust_seat))))).
  repeat split; vm_compute; reflexivity.
Qed.

(** * A hand with its cards *)

(** X22.  [play_hand] with the cards drawn, on a ready game with the button
    on a seat and an honest evaluator.  If a fresh deck holds two cards for
    every seat with chips and eight for the board, the hand raises nothing,
    whatever the bots decide: it returns, or the decisions supplied were too
    few.  If the deck holds fewer than two cards for every seat with chips,
    it runs out while the hole cards are dealt and the hand raises. *)
Theorem play_hand_cards_not_raised (cards : nat) get_winners ds g0 :
  ready g0 → 0 ≤ dealer_button g0 < len (player_ids g0) →
  honest_evaluator get_winners →
  ((2 * length (funded g0) + 8 ≤ cards)%nat →
     not_raised (play_hand_cards cards get_winners ds g0)) ∧
  ((cards < 2 * length (funded g0))%nat →
     ∃ e, play_hand_cards cards get_winners ds g0 = Raised e).
Proof.
  intros Hr Hd Hev. split; intros Hc.
  - rewrite play_hand_cards_enough by done. by apply play_hand_not_raised.
  - exists IndexError. apply play_hand_cards_short; [apply Hr|done].
Qed.

(** X23.  With a big blind above zero and a deck that holds two cards for
    every seat with chips and eight for the board, a hand always comes to an
    end: [play_hand], the cards drawn, returns as soon as the bots supply
    [hand_budget] decisions, whatever those decisions are. *)
Theorem play_hand_cards_returns (cards : nat) get_winners ds g0 :
  ready g0 → 0 < big_blind g0 →
  0 ≤ dealer_button g0 < len (player_ids g0) →
  honest_evaluator get_winners →
  (2 * length (funded g0) + 8 ≤ cards)%nat →
  (hand_budget g0 ≤ length ds)%nat →
  ∃ g', play_hand_cards cards get_winners ds g0 = Ok g'.
Proof.
  intros Hr Hbb Hd Hev Hc Hlen.
  rewrite play_hand_cards_enough by done. by apply play_hand_returns.
Qed.

Lemma play_hand_cards_not_raised_witness :
  ready odd ∧ 0 ≤ dealer_button odd < len (player_ids odd) ∧
  honest_evaluator id ∧
  (2 * length (funded odd) + 8 ≤ 52)%nat ∧
  not_raised (play_hand_cards 52 id odd_decisions odd) ∧
  (5 < 2 * length (funded odd))%nat ∧
  ∃ e, play_hand_cards 5 id odd_decisions odd = Raised e.
Proof.
  assert (0 ≤ dealer_button odd < len (player_ids odd)) as Hd
    by (vm_compute; split; [discriminate | reflexivity]).
  assert (2 * length (funded odd) + 8 ≤ 52)%nat as Henough
    by (apply Nat.leb_le; vm_compute; reflexivity).
  assert (5 < 2 * length (funded odd))%nat as Hshort
    by (apply Nat.ltb_lt; vm_compute; reflexivity).
  split; [exact odd_ready|]. split; [exact Hd|]. split; [exact id_honest|].
  split; [exact Henough|].
  split; [exact (proj1 (play_hand_cards_not_raised 52 id odd_decisions odd
                          odd_ready Hd id_honest) Henough)|].
  split; [exact Hshort|].
  exact (proj2 (play_hand_cards_not_raised 5 id odd_decisions odd
                  odd_ready Hd id_honest) Hshort).
Defined.

Lemma play_hand_cards_returns_witness :
  ready penny ∧ 0 < big_blind penny ∧
  0 ≤ dealer_button penny < len (player_ids penny) ∧
  honest_evaluator id ∧
  (2 * length (funded penny) + 8 ≤ 52)%nat ∧
  (hand_budget penny ≤ length (repeat (CALL, 0) 176))%nat ∧
  ∃ g', play_hand_cards 52 id (repeat (CALL, 0) 176) penny = Ok g'.
Proof.
  assert (0 < big_blind penny) as Hbb by reflexivity.
  assert (0 ≤ dealer_button penny < len (player_ids penny)) as Hd
    by (vm_compute; split; [discriminate | reflexivity]).
  assert (2 * length (funded penny) + 8 ≤ 52)%nat as Henough
    by (apply Nat.leb_le; vm_compute; reflexivity).
  assert (hand_budget penny ≤ length (repeat (CALL, 0) 176))%nat as Hlen
    by (apply Nat.leb_le; vm_compute; reflexivity).
  split; [exact penny_ready|]. split; [exact Hbb|]. split; [exact Hd|].
  split; [exact id_honest|]. split; [exact Henough|]. split; [exact Hlen|].
  exact (play_hand_cards_returns 52 id (repeat (CALL, 0) 176) penny
           penny_ready Hbb Hd id_honest Henough Hlen).
Defined.
